(** * FileTree: a shallow embedding of the stereoscope file tree

    The development follows [pkg/filetree/filetree.go]: the link resolver
    ([node], [resolveAncestorLinks], [resolveNodeLinks]), the mutation API
    ([AddFile], [AddDir], [AddSymLink], [AddHardLink], [RemovePath],
    [RemoveChildPaths]), the queries [File] and [HasPath], and [merge].

    The packages the file imports ([pkg/file] for paths and references,
    [pkg/filetree/filenode] for the node record, [pkg/tree] for the keyed
    tree store and its walker) are modelled from the specification; each
    such definition says so in its doc comment. *)

From Stdlib Require Import Ascii String.
From stdpp Require Import gmap strings list fin_maps.

Local Open Scope string_scope.

(** ** Go standard library: [strings] and [path] *)

Module GoPath.

Definition DirSeparator : string := "/".

Definition is_sep (c : ascii) : bool := Ascii.eqb c "/"%char.

(** [strings.Split(s, "/")]: never empty, [Split "" = [""]]. *)
Fixpoint Split (s : string) : list string :=
  match s with
  | EmptyString => [EmptyString]
  | String c rest =>
      if is_sep c then EmptyString :: Split rest
      else match Split rest with
           | [] => [String c EmptyString]
           | h :: tl => String c h :: tl
           end
  end.

(** [strings.Join(elems, "/")]. *)
Fixpoint JoinSep (elems : list string) : string :=
  match elems with
  | [] => ""
  | [x] => x
  | x :: rest => x ++ DirSeparator ++ JoinSep rest
  end.

(** [strings.HasPrefix(s, pre)]. *)
Definition HasPrefix (s pre : string) : bool := String.prefix pre s.

(** [strings.TrimPrefix(s, pre)]. *)
Definition TrimPrefix (s pre : string) : string :=
  if HasPrefix s pre
  then String.substring (String.length pre) (String.length s - String.length pre) s
  else s.

(** One element of the lexical processing of [path.Clean]; [stack] holds
    the elements kept so far, the most recent first. *)
Definition clean_step (rooted : bool) (stack : list string) (seg : string)
  : list string :=
  if String.eqb seg "" || String.eqb seg "." then stack
  else if String.eqb seg ".." then
    match stack with
    | top :: below => if String.eqb top ".." then seg :: stack else below
    | [] => if rooted then [] else [seg]
    end
  else seg :: stack.

(** [path.Clean] (and [filepath.Clean] on a slash-separated system). *)
Definition Clean (p : string) : string :=
  if String.eqb p "" then "."
  else
    let rooted := HasPrefix p DirSeparator in
    let out := rev (fold_left (clean_step rooted) (Split p) []) in
    if rooted then DirSeparator ++ JoinSep out
    else match out with
         | [] => "."
         | _ => JoinSep out
         end.

(** [path.Join]: empty elements are ignored, the result is cleaned; the
    empty string when every element is empty. *)
Definition Join (elems : list string) : string :=
  match filter (fun e => e ≠ "") elems with
  | [] => ""
  | ne => Clean (JoinSep ne)
  end.

(** [filepath.Split]: the directory part keeps its final separator. *)
Fixpoint SplitDir (p : string) : string * string :=
  match p with
  | EmptyString => ("", "")
  | String c rest =>
      let '(d, f) := SplitDir rest in
      if String.eqb d "" then
        if is_sep c then (DirSeparator, rest) else ("", String c f)
      else (String c d, f)
  end.

(** [path.Base]. *)
Definition Base (p : string) : string :=
  if String.eqb p "" then "."
  else match rev (filter (fun e => e ≠ "") (Split p)) with
       | [] => DirSeparator
       | b :: _ => b
       end.

End GoPath.

(** ** Package [file]: paths *)

Module file.

Definition Path := string.

Definition DirSeparator : string := GoPath.DirSeparator.
Definition WhiteoutPrefix : string := ".wh.".
Definition OpaqueWhiteout : string := WhiteoutPrefix ++ WhiteoutPrefix ++ ".opq".

(** Modelled from the spec: [Path.Normalize] of package [file] is not
    part of the sources; paths are normalized to use [/] as separator,
    collapsed to remove [.] and [..] segments, and made absolute. *)
Definition Normalize (p : Path) : Path :=
  GoPath.Clean (DirSeparator ++ p).

(** Modelled from the spec: [Path.IsAbsolutePath] (a link target may be
    absolute or relative; an absolute one begins with the separator). *)
Definition IsAbsolutePath (p : Path) : bool :=
  GoPath.HasPrefix p DirSeparator.

(** Modelled from the spec: [Path.Basename], the last element of the
    path. *)
Definition Basename (p : Path) : string := GoPath.Base p.

(** Modelled from the spec: [Path.ParentPath]; it fails on the root. *)
Definition ParentPath (p : Path) : option Path :=
  let n := Normalize p in
  if String.eqb n DirSeparator then None
  else Some (Normalize (fst (GoPath.SplitDir n))).

(** The non-empty prefixes of a list, shortest first. *)
Fixpoint prefixes {A} (l : list A) : list (list A) :=
  match l with
  | [] => []
  | x :: rest => [x] :: map (cons x) (prefixes rest)
  end.

(** Modelled from the spec: [Path.ConstituentPaths]; for [/a/b/c] it
    yields [/], [/a], [/a/b], [/a/b/c], root first. *)
Definition ConstituentPaths (p : Path) : list Path :=
  let segs := filter (fun e => e ≠ "") (GoPath.Split (Normalize p)) in
  DirSeparator :: map (fun pre => DirSeparator ++ GoPath.JoinSep pre) (prefixes segs).

(** Modelled from the spec: a path whose basename begins with the
    whiteout prefix marks the deletion of a sibling. *)
Definition IsWhiteout (p : Path) : bool :=
  GoPath.HasPrefix (Basename p) WhiteoutPrefix.

(** Modelled from the spec: a path whose basename equals the opaque
    sentinel marks its parent directory opaque. *)
Definition IsDirWhiteout (p : Path) : bool :=
  String.eqb (Basename p) OpaqueWhiteout.

(** Modelled from the spec: [Path.UnWhiteoutPath] strips the prefix from
    the basename and gives the sibling's path. *)
Definition UnWhiteoutPath (p : Path) : option Path :=
  match ParentPath p with
  | None => None
  | Some parent =>
      Some (GoPath.Join [parent; GoPath.TrimPrefix (Basename p) WhiteoutPrefix])
  end.

End file.

(** ** Package [file]: kinds, references; the error values *)

(** The kinds and the references of package [file] are in a module of
    their own, so that the field [RealPath] of a reference and that of a
    node can both keep their name. *)
Module fileref.

(** The four node kinds of the data model ([file.Type]). *)
Inductive Type_ := TypeReg | TypeHardLink | TypeSymlink | TypeDir.

#[global] Instance Type_eq_dec : EqDecision Type_.
Proof. solve_decision. Defined.

(** Modelled from the spec: the reference factory of package [file]
    returns an opaque handle for a real path; the handle is a fresh
    identifier together with the path it was made for. *)
Record Reference := mkReference { ID : nat; RealPath : file.Path }.

#[global] Instance Reference_eq_dec : EqDecision Reference.
Proof. solve_decision. Defined.

(** [file.NewFileReference]: consumes one identifier of the process-wide
    counter. *)
Definition NewFileReference (nextID : nat) (p : file.Path) : Reference * nat :=
  (mkReference nextID p, S nextID).

End fileref.

(** The error values of the package: the two sentinels declared in the
    source, and the [fmt.Errorf] values by their message and arguments. *)
Inductive error :=
| ErrRemovingRoot
| ErrLinkCycleDetected
| ErrAlreadyExists (p : file.Path) (butIsNot : string)
| ErrNoParentPath (p : file.Path)
| ErrMissingParent (parent p : file.Path)
| ErrStore (msg : string) (id : file.Path)
| ErrWrap (msg : string) (p : file.Path) (cause : error).

(** ** Package [filenode] *)

Module filenode.

(** Modelled from the spec: the node record of package [filenode]: kind,
    real path, link target (empty for the non-link kinds) and optional
    reference. *)
Record FileNode := mkFileNode {
  RealPath : file.Path;
  FileType : fileref.Type_;
  LinkPath : file.Path;
  Reference : option fileref.Reference
}.

Definition NewDir (p : file.Path) (ref : option fileref.Reference) : FileNode :=
  mkFileNode p fileref.TypeDir "" ref.

Definition NewFile (p : file.Path) (ref : option fileref.Reference) : FileNode :=
  mkFileNode p fileref.TypeReg "" ref.

Definition NewSymLink (p linkPath : file.Path) (ref : option fileref.Reference) : FileNode :=
  mkFileNode p fileref.TypeSymlink linkPath ref.

Definition NewHardLink (p linkPath : file.Path) (ref : option fileref.Reference) : FileNode :=
  mkFileNode p fileref.TypeHardLink linkPath ref.

Definition IsLink (n : FileNode) : bool :=
  match FileType n with
  | fileref.TypeHardLink | fileref.TypeSymlink => true
  | _ => false
  end.

(** The node with its reference field assigned ([fn.Reference = r]). *)
Definition withReference (n : FileNode) (r : option fileref.Reference) : FileNode :=
  mkFileNode (RealPath n) (FileType n) (LinkPath n) r.

(** A node is keyed by its real path. *)
Definition IDByPath (p : file.Path) : string := p.

Definition ID (n : FileNode) : string := IDByPath (RealPath n).

End filenode.

Import filenode.

(** ** Package [tree]: the keyed tree store *)

Module tree.

(** Modelled from the spec: the tree substrate of package [tree] is a
    mapping from key to node plus the parent/child adjacency: a mapping
    from a parent's key to its children in insertion order, and the
    parent linkage of every child. *)
Record Tree := mkTree {
  nodes : gmap string FileNode;
  children : gmap string (list string);
  parent : gmap string string;
  root : option string
}.

Definition NewTree : Tree := mkTree ∅ ∅ ∅ None.

(** [get(real_path)]. *)
Definition Node (t : Tree) (id : string) : option FileNode := nodes t !! id.

Definition HasNode (t : Tree) (id : string) : bool := bool_decide (is_Some (nodes t !! id)).

(** [children(node)]: the direct children, by key. *)
Definition ChildIDs (t : Tree) (id : string) : list string :=
  default [] (children t !! id).

(** [children(node)]: the direct children. *)
Definition Children (t : Tree) (n : FileNode) : list FileNode :=
  omap (Node t) (ChildIDs t (ID n)).

Definition Length (t : Tree) : nat := size (nodes t).

(** [nodes()]: all the nodes, in the order of the store. *)
Definition Nodes (t : Tree) : list FileNode := (map_to_list (nodes t)).*2.

(** [add_root(node)]: fails if a root is already present. *)
Definition AddRoot (t : Tree) (n : FileNode) : error + Tree :=
  match root t with
  | Some _ => inl (ErrStore "root node already exists" (ID n))
  | None =>
      inr (mkTree (<[ID n := n]> (nodes t)) (<[ID n := []]> (children t))
                  (parent t) (Some (ID n)))
  end.

(** [add_child(parent_node, child_node)]: fails if the child's key is
    already present or the parent is not in the tree. *)
Definition AddChild (t : Tree) (p n : FileNode) : error + Tree :=
  if negb (HasNode t (ID p)) then inl (ErrStore "parent node not in tree" (ID p))
  else if HasNode t (ID n) then inl (ErrStore "node already exists" (ID n))
  else
    inr (mkTree (<[ID n := n]> (nodes t))
                (<[ID n := []]> (<[ID p := (ChildIDs t (ID p) ++ [ID n])%list]> (children t)))
                (<[ID n := ID p]> (parent t))
                (root t)).

(** [replace(old_node, new_node)]: same key required; children and
    parent linkage are preserved. *)
Definition Replace (t : Tree) (old new : FileNode) : error + Tree :=
  if negb (HasNode t (ID old)) then inl (ErrStore "cannot replace node not in tree" (ID old))
  else if negb (String.eqb (ID old) (ID new)) then
    inl (ErrStore "cannot replace node with a different key" (ID new))
  else inr (mkTree (<[ID new := new]> (nodes t)) (children t) (parent t) (root t)).

(** The keys of the subtree below [id], [id] first; [depth] bounds the
    number of levels visited. *)
Fixpoint subtree (depth : nat) (ch : gmap string (list string)) (id : string)
  : list string :=
  id :: match depth with
        | 0 => []
        | S d => flat_map (subtree d ch) (default [] (ch !! id))
        end.

Definition delete_all {V} (ks : list string) (m : gmap string V) : gmap string V :=
  foldr delete m ks.

(** [remove_subtree(node)]: detaches the node and all its descendants
    from the store and gives their number; fails on the root.  A tree
    with [n] nodes has fewer than [n] levels. *)
Definition RemoveNode (t : Tree) (n : FileNode) : error + (Tree * nat) :=
  let id := ID n in
  if bool_decide (root t = Some id) then inl (ErrStore "cannot remove the root node" id)
  else if negb (HasNode t id) then inl (ErrStore "unable to remove node not in tree" id)
  else
    let gone := subtree (size (nodes t)) (children t) id in
    let ch := match parent t !! id with
              | Some pid => alter (filter (fun k => k ≠ id)) pid (children t)
              | None => children t
              end in
    inr (mkTree (delete_all gone (nodes t)) (delete_all gone ch)
                (delete_all gone (parent t)) (root t),
         length gone).

End tree.

(** Modelled from the spec: the depth-first walker of package [tree]
    visits the real nodes in pre-order, children in their stored order;
    [ShouldVisit] filters the nodes handed to the visitor and
    [ShouldContinueBranch] decides whether the walk descends below a node.
    The first visitor error aborts the walk.  The visitor threads a state
    [St] and may itself fail to terminate ([None]). *)
Module walker.
Section DepthFirst.
Context {St : Type}.
Variable t : tree.Tree.
Variable visitor : FileNode → St → option (option error * St).
Variables ShouldContinueBranch ShouldVisit : FileNode → bool.

Definition visit (n : FileNode) (st : St) : option (option error * St) :=
  if ShouldVisit n then visitor n st else Some (None, st).

Definition walk_children (walk : string → St → option (option error * St))
    (ids : list string) (st : St) : option (option error * St) :=
  fold_left (fun acc id =>
               match acc with
               | Some (None, st') => walk id st'
               | stopped => stopped
               end) ids (Some (None, st)).

Fixpoint Walk (depth : nat) (id : string) (st : St) : option (option error * St) :=
  match tree.Node t id with
  | None => Some (None, st)
  | Some n =>
      match visit n st with
      | Some (None, st') =>
          if ShouldContinueBranch n then
            match depth with
            | 0 => Some (None, st')
            | S d => walk_children (Walk d) (tree.ChildIDs t id) st'
            end
          else Some (None, st')
      | stopped => stopped
      end
  end.

Definition WalkAll (st : St) : option (option error * St) :=
  match tree.root t with
  | Some r => Walk (tree.Length t) r st
  | None => Some (None, st)
  end.
End DepthFirst.
End walker.

(** ** Package [filetree] *)

Module filetree.

Import file.

Abbreviation FileTree := tree.Tree (only parsing).

(** [NewFileTree]: a tree with the root [/], a directory without
    reference. *)
Definition NewFileTree : tree.Tree :=
  match tree.AddRoot tree.NewTree (NewDir "/" None) with
  | inr t => t
  | inl _ => tree.NewTree
  end.

(** *** Link resolution options *)

Inductive LinkResolutionOption := FollowBasenameLinks | DoNotFollowDeadBasenameLinks.

#[global] Instance LinkResolutionOption_eq_dec : EqDecision LinkResolutionOption.
Proof. solve_decision. Defined.

(** The fields [FollowBasenameLinks] and [DoNotFollowDeadBasenameLinks] of
    the source carry an [s] here: the options above have their names. *)
Record linkResolutionStrategy := mkStrategy {
  FollowAncestorLinks : bool;
  sFollowBasenameLinks : bool;
  sDoNotFollowDeadBasenameLinks : bool
}.

(** The zero value [linkResolutionStrategy{}]. *)
Definition noFollow : linkResolutionStrategy := mkStrategy false false false.

(** Modelled from the spec: the strategy follows links when either
    follow flag is set. *)
Definition FollowLinks (s : linkResolutionStrategy) : bool :=
  FollowAncestorLinks s || sFollowBasenameLinks s.

(** Modelled from the spec: the strategy derived from the options of a
    call; each option switches its flag on. *)
Definition newLinkResolutionStrategy (options : list LinkResolutionOption)
  : linkResolutionStrategy :=
  mkStrategy false
             (bool_decide (FollowBasenameLinks ∈ options))
             (bool_decide (DoNotFollowDeadBasenameLinks ∈ options)).

(** *** The resolver *)

(** What a resolution returns: the path, the node (possibly absent) and
    the error (possibly none); Go returns the three together. *)
Definition Resolved : Type := Path * option FileNode * option error.

(** [t.node(p, linkResolutionStrategy{})]: the direct lookup by key. *)
Definition nodeDirect (t : tree.Tree) (p : Path) : Resolved :=
  (p, tree.Node t (IDByPath p), None).

Section AncestorLinks.
Variable t : tree.Tree.
(** [t.resolveNodeLinks(_, true)], which may not return. *)
Variable follow : FileNode → option Resolved.

(** The loop of [resolveAncestorLinks] over [pathParts], from index
    [idx]; [len] is [len(pathParts)]. *)
Fixpoint ancestorLoop (parts : list string) (idx len : nat)
    (currentPathStr : string) (currentPath : Path) (currentNode : option FileNode)
  : option Resolved :=
  match parts with
  | [] => Some (currentPath, currentNode, None)
  | part :: rest =>
      if (String.eqb part "" || String.eqb part DirSeparator) && (idx =? 0)%nat then
        ancestorLoop rest (S idx) len currentPathStr currentPath currentNode
      else
        let currentPath := Normalize (currentPathStr ++ DirSeparator ++ part) in
        let currentPathStr := currentPath in
        match nodeDirect t currentPath with
        | (_, _, Some err) => Some ("", None, Some err)
        | (currentPath, None, None) => Some (currentPath, None, None)
        | (currentPath, Some cn, None) =>
            match Reference cn with
            | None => ancestorLoop rest (S idx) len currentPathStr currentPath (Some cn)
            | Some _ =>
                let isLastPart := (idx =? len - 1)%nat in
                if negb isLastPart && IsLink cn then
                  match follow cn with
                  | None => None
                  | Some (p, n, Some err) => Some (p, n, Some err)
                  | Some (p, n, None) => ancestorLoop rest (S idx) len p p n
                  end
                else ancestorLoop rest (S idx) len currentPathStr currentPath (Some cn)
            end
        end
  end.

Definition resolveAncestorLinksWith (path : Path) : option Resolved :=
  let pathParts := GoPath.Split (Normalize path) in
  ancestorLoop pathParts 0 (length pathParts) "" "" None.
End AncestorLinks.

(** The path a link node points to: an absolute target verbatim, a
    relative one joined to the directory of the link and cleaned. *)
Definition nextPathOf (currentNode : FileNode) : Path :=
  if IsAbsolutePath (LinkPath currentNode) then LinkPath currentNode
  else
    let parentDir := fst (GoPath.SplitDir (RealPath currentNode)) in
    GoPath.Clean (GoPath.Join [parentDir; LinkPath currentNode]).

(** The return after the loop of [resolveNodeLinks]. *)
Definition afterLoop (followDeadBasenameLinks : bool) (lastPath : Path)
    (lastNode : option FileNode) (currentPath : Path) (currentNode : option FileNode)
  : Resolved :=
  match currentNode with
  | None => if negb followDeadBasenameLinks then (lastPath, lastNode, None)
            else (currentPath, currentNode, None)
  | Some _ => (currentPath, currentNode, None)
  end.

(** The [for] loop of [resolveNodeLinks].  Every iteration and every
    nested resolution takes one unit of [fuel]; [None] is a computation
    that has not returned within it. *)
Fixpoint nodeLinksLoop (fuel : nat) (t : tree.Tree) (followDeadBasenameLinks : bool)
    (alreadySeen : gset string) (lastPath : Path) (lastNode : option FileNode)
    (currentPath : Path) (currentNode : option FileNode) : option Resolved :=
  match fuel with
  | 0 => None
  | S fuel' =>
      match currentNode with
      | None =>
          Some (afterLoop followDeadBasenameLinks lastPath lastNode currentPath currentNode)
      | Some cn =>
          if bool_decide (currentPath ∈ alreadySeen) then
            Some (currentPath, None, Some ErrLinkCycleDetected)
          else if negb (IsLink cn) then
            Some (afterLoop followDeadBasenameLinks lastPath lastNode currentPath currentNode)
          else
            let alreadySeen := {[currentPath]} ∪ alreadySeen in
            let nextPath := nextPathOf cn in
            if String.eqb nextPath "" then
              Some (afterLoop followDeadBasenameLinks lastPath lastNode currentPath currentNode)
            else
              let lastNode := currentNode in
              let lastPath := currentPath in
              match resolveAncestorLinksWith t
                      (fun n => nodeLinksLoop fuel' t true ∅ "" None (RealPath n) (Some n))
                      nextPath with
              | None => None
              | Some (p, n, Some err) => Some (p, n, Some err)
              | Some (p, n, None) =>
                  nodeLinksLoop fuel' t followDeadBasenameLinks alreadySeen
                                lastPath lastNode p n
              end
      end
  end.

Definition resolveNodeLinks (fuel : nat) (t : tree.Tree) (n : FileNode)
    (followDeadBasenameLinks : bool) : option Resolved :=
  nodeLinksLoop fuel t followDeadBasenameLinks ∅ "" None (RealPath n) (Some n).

Definition resolveAncestorLinks (fuel : nat) (t : tree.Tree) (path : Path)
  : option Resolved :=
  resolveAncestorLinksWith t (fun n => resolveNodeLinks fuel t n true) path.

Definition node (fuel : nat) (t : tree.Tree) (p : Path) (strategy : linkResolutionStrategy)
  : option Resolved :=
  if negb (FollowLinks strategy) then Some (nodeDirect t p)
  else
    let ancestors :=
      if FollowAncestorLinks strategy then resolveAncestorLinks fuel t p
      else Some (p, tree.Node t (IDByPath p), None) in
    match ancestors with
    | None => None
    | Some (currentPath, currentNode, Some err) => Some (currentPath, currentNode, Some err)
    | Some (currentPath, None, None) => Some (currentPath, None, None)
    | Some (currentPath, Some cn, None) =>
        if sFollowBasenameLinks strategy then
          resolveNodeLinks fuel t cn (negb (sDoNotFollowDeadBasenameLinks strategy))
        else Some (currentPath, Some cn, None)
    end.

(** *** Queries *)

Definition File (fuel : nat) (t : tree.Tree) (path : Path)
    (options : list LinkResolutionOption)
  : option (bool * option fileref.Reference * option error) :=
  let userStrategy := newLinkResolutionStrategy options in
  match nodeDirect t path with
  | (_, _, Some err) => Some (false, None, Some err)
  | (_, currentNode, None) =>
      let direct :=
        match currentNode with
        | Some cn => negb (IsLink cn) || (IsLink cn && negb (sFollowBasenameLinks userStrategy))
        | None => false
        end in
      match currentNode, direct with
      | Some cn, true => Some (true, Reference cn, None)
      | _, _ =>
          match node fuel t path
                  (mkStrategy true (sFollowBasenameLinks userStrategy)
                              (sDoNotFollowDeadBasenameLinks userStrategy)) with
          | None => None
          | Some (_, Some cn, err) => Some (true, Reference cn, err)
          | Some (_, None, err) => Some (false, None, err)
          end
      end
  end.

Definition HasPath (fuel : nat) (t : tree.Tree) (path : Path) : option bool :=
  match File fuel t path [FollowBasenameLinks] with
  | None => None
  | Some (_, _, Some _) => Some false
  | Some (exists_, _, None) => Some exists_
  end.

(** *** Mutations *)

(** The outcome of a store operation as [(error, tree)]: on failure the
    tree is as it was. *)
Definition stored (t : tree.Tree) (r : error + tree.Tree) : option error * tree.Tree :=
  match r with
  | inl err => (Some err, t)
  | inr t' => (None, t')
  end.

Definition setFileNode (t : tree.Tree) (fn : FileNode) : option error * tree.Tree :=
  match tree.Node t (IDByPath (RealPath fn)) with
  | Some existingNode => stored t (tree.Replace t existingNode fn)
  | None =>
      match ParentPath (RealPath fn) with
      | None =>
          (Some (ErrWrap "unable to determine parent path while adding path"
                         (RealPath fn) (ErrNoParentPath (RealPath fn))), t)
      | Some parentPath =>
          match nodeDirect t parentPath with
          | (_, _, Some err) => (Some err, t)
          | (_, None, None) => (Some (ErrMissingParent parentPath (RealPath fn)), t)
          | (_, Some parentNode, None) => stored t (tree.AddChild t parentNode fn)
          end
      end
  end.

(** The first loop of [addParentPaths]: the constituent paths from the
    deepest up, until one exists. *)
Fixpoint pathsToAdd (t : tree.Tree) (deepestFirst : list Path) : list Path :=
  match deepestFirst with
  | [] => []
  | p :: rest =>
      match tree.Node t (IDByPath p) with
      | Some _ => []
      | None => p :: pathsToAdd t rest
      end
  end.

(** The second loop of [addParentPaths]: a directory without reference
    at each path, stopping at the first error. *)
Fixpoint addDirs (t : tree.Tree) (shallowestFirst : list Path) : option error * tree.Tree :=
  match shallowestFirst with
  | [] => (None, t)
  | p :: rest =>
      match setFileNode t (NewDir p None) with
      | (Some err, t') => (Some err, t')
      | (None, t') => addDirs t' rest
      end
  end.

Definition addParentPaths (t : tree.Tree) (realPath : Path) : option error * tree.Tree :=
  match ParentPath realPath with
  | None =>
      (Some (ErrWrap "unable to determine parent path while adding path"
                     realPath (ErrNoParentPath realPath)), t)
  | Some parentPath =>
      match nodeDirect t parentPath with
      | (_, _, Some err) => (Some err, t)
      | (_, Some _, None) => (None, t)
      | (_, None, None) =>
          let parentPaths := ConstituentPaths realPath in
          addDirs t (rev (pathsToAdd t (rev parentPaths)))
      end
  end.

(** [fn.Reference = ref] on the node the tree holds at [id]. *)
Definition assignReference (t : tree.Tree) (id : string) (fn : FileNode)
    (ref : fileref.Reference) : tree.Tree :=
  tree.mkTree (<[id := withReference fn (Some ref)]> (tree.nodes t))
              (tree.children t) (tree.parent t) (tree.root t).

(** What an [Add*] call returns, with the tree and the reference counter
    after it. *)
Definition Added : Type := option fileref.Reference * option error * tree.Tree * nat.

Definition AddFile (t : tree.Tree) (nextID : nat) (realPath : Path) : Added :=
  match nodeDirect t realPath with
  | (_, _, Some err) => (None, Some err, t, nextID)
  | (_, Some fn, None) =>
      if negb (bool_decide (FileType fn = fileref.TypeReg)) then
        (None, Some (ErrAlreadyExists realPath "a regular file"), t, nextID)
      else
        match Reference fn with
        | None =>
            let '(ref, nextID) := fileref.NewFileReference nextID realPath in
            (Some ref, None, assignReference t (IDByPath realPath) fn ref, nextID)
        | Some ref => (Some ref, None, t, nextID)
        end
  | (_, None, None) =>
      match addParentPaths t realPath with
      | (Some err, t) => (None, Some err, t, nextID)
      | (None, t) =>
          let '(ref, nextID) := fileref.NewFileReference nextID realPath in
          let newFn := NewFile realPath (Some ref) in
          let '(err, t) := setFileNode t newFn in
          (Reference newFn, err, t, nextID)
      end
  end.

Definition AddSymLink (t : tree.Tree) (nextID : nat) (realPath linkPath : Path) : Added :=
  match nodeDirect t realPath with
  | (_, _, Some err) => (None, Some err, t, nextID)
  | (_, Some fn, None) =>
      if negb (bool_decide (FileType fn = fileref.TypeSymlink)) then
        (None, Some (ErrAlreadyExists realPath "a symlink file"), t, nextID)
      else
        match Reference fn with
        | None =>
            let '(ref, nextID) := fileref.NewFileReference nextID realPath in
            (Some ref, None, assignReference t (IDByPath realPath) fn ref, nextID)
        | Some ref => (Some ref, None, t, nextID)
        end
  | (_, None, None) =>
      match addParentPaths t realPath with
      | (Some err, t) => (None, Some err, t, nextID)
      | (None, t) =>
          let '(ref, nextID) := fileref.NewFileReference nextID realPath in
          let newFn := NewSymLink realPath linkPath (Some ref) in
          let '(err, t) := setFileNode t newFn in
          (Reference newFn, err, t, nextID)
      end
  end.

Definition AddHardLink (t : tree.Tree) (nextID : nat) (realPath linkPath : Path) : Added :=
  match nodeDirect t realPath with
  | (_, _, Some err) => (None, Some err, t, nextID)
  | (_, Some fn, None) =>
      if negb (bool_decide (FileType fn = fileref.TypeHardLink)) then
        (None, Some (ErrAlreadyExists realPath "a symlink file"), t, nextID)
      else
        match Reference fn with
        | None =>
            let '(ref, nextID) := fileref.NewFileReference nextID realPath in
            (Some ref, None, assignReference t (IDByPath realPath) fn ref, nextID)
        | Some ref => (Some ref, None, t, nextID)
        end
  | (_, None, None) =>
      match addParentPaths t realPath with
      | (Some err, t) => (None, Some err, t, nextID)
      | (None, t) =>
          let '(ref, nextID) := fileref.NewFileReference nextID realPath in
          let newFn := NewHardLink realPath linkPath (Some ref) in
          let '(err, t) := setFileNode t newFn in
          (Reference newFn, err, t, nextID)
      end
  end.

Definition AddDir (t : tree.Tree) (nextID : nat) (realPath : Path) : Added :=
  match nodeDirect t realPath with
  | (_, _, Some err) => (None, Some err, t, nextID)
  | (_, Some fn, None) =>
      if negb (bool_decide (FileType fn = fileref.TypeDir)) then
        (None, Some (ErrAlreadyExists realPath "a symlink file"), t, nextID)
      else
        match Reference fn with
        | None =>
            let '(ref, nextID) := fileref.NewFileReference nextID realPath in
            (Some ref, None, assignReference t (IDByPath realPath) fn ref, nextID)
        | Some ref => (Some ref, None, t, nextID)
        end
  | (_, None, None) =>
      match addParentPaths t realPath with
      | (Some err, t) => (None, Some err, t, nextID)
      | (None, t) =>
          let '(ref, nextID) := fileref.NewFileReference nextID realPath in
          let newFn := NewDir realPath (Some ref) in
          let '(err, t) := setFileNode t newFn in
          (Reference newFn, err, t, nextID)
      end
  end.

(** [None]: the resolution of [path] has not returned. *)
Definition RemovePath (fuel : nat) (t : tree.Tree) (path : Path)
  : option (option error * tree.Tree) :=
  if String.eqb (Normalize path) "/" then Some (Some ErrRemovingRoot, t)
  else
    match node fuel t path (mkStrategy true false false) with
    | None => None
    | Some (_, _, Some err) => Some (Some err, t)
    | Some (_, None, None) => Some (None, t)
    | Some (_, Some fn, None) =>
        match tree.RemoveNode t fn with
        | inl err => Some (Some err, t)
        | inr (t', _) => Some (None, t')
        end
    end.

(** The loop of [RemoveChildPaths] over the children found before it
    starts. *)
Fixpoint removeNodes (t : tree.Tree) (children : list FileNode) : option error * tree.Tree :=
  match children with
  | [] => (None, t)
  | child :: rest =>
      match tree.RemoveNode t child with
      | inl err => (Some err, t)
      | inr (t', _) => removeNodes t' rest
      end
  end.

Definition RemoveChildPaths (fuel : nat) (t : tree.Tree) (path : Path)
  : option (option error * tree.Tree) :=
  match node fuel t path (mkStrategy true true false) with
  | None => None
  | Some (_, _, Some err) => Some (Some err, t)
  | Some (_, None, None) => Some (None, t)
  | Some (_, Some fn, None) => Some (removeNodes t (tree.Children t fn))
  end.

(** *** Merge *)

Definition hasOpaqueDirectory (fuel : nat) (t : tree.Tree) (directoryPath : Path)
  : option bool :=
  HasPath fuel t (GoPath.Join [directoryPath; OpaqueWhiteout]).

(** The copy of the upper node that [merge] installs: it keeps the
    reference of the node already in the lower tree when the upper node
    has none and the kinds agree. *)
Definition nodeCopyFor (upperNode : FileNode) (originalNode : option FileNode) : FileNode :=
  match originalNode with
  | Some orig =>
      match Reference orig, Reference upperNode with
      | Some lowerRef, None =>
          if bool_decide (FileType upperNode = FileType orig)
          then withReference upperNode (Some lowerRef)
          else upperNode
      | _, _ => upperNode
      end
  | None => upperNode
  end.

(** The part of the visitor after the whiteout handling: look the path
    up in the lower tree, add the missing parents, install the copy. *)
Definition graft (t : tree.Tree) (upperNode : FileNode) : option error * tree.Tree :=
  match nodeDirect t (RealPath upperNode) with
  | (_, _, Some err) =>
      (Some (ErrWrap "filetree merge failed when looking for path" (RealPath upperNode) err), t)
  | (_, originalNode, None) =>
      let '(perr, t1) :=
        match originalNode with
        | None => addParentPaths t (RealPath upperNode)
        | Some _ => (None, t)
        end in
      match perr with
      | Some err =>
          (Some (ErrWrap "could not add parent paths to lower" (RealPath upperNode) err), t1)
      | None =>
          let nodeCopy := nodeCopyFor upperNode originalNode in
          match setFileNode t1 nodeCopy with
          | (Some err, t2) =>
              (Some (ErrWrap "filetree merge failed to set file node" (RealPath nodeCopy) err), t2)
          | (None, t2) => (None, t2)
          end
      end
  end.

(** The whiteout step of the visitor, and the rest for other nodes. *)
Definition whiteoutOrGraft (fuel : nat) (t : tree.Tree) (upperNode : FileNode)
  : option (option error * tree.Tree) :=
  if IsWhiteout (RealPath upperNode) then
    match UnWhiteoutPath (RealPath upperNode) with
    | None =>
        Some (Some (ErrWrap "filetree merge failed to find original upperPath for whiteout"
                            (RealPath upperNode) (ErrNoParentPath (RealPath upperNode))), t)
    | Some lowerPath =>
        match RemovePath fuel t lowerPath with
        | None => None
        | Some (Some err, t') =>
            Some (Some (ErrWrap "filetree merge failed to remove upperPath" lowerPath err), t')
        | Some (None, t') => Some (None, t')
        end
    end
  else Some (graft t upperNode).

(** The opaque-directory step that the visitor runs first. *)
Definition opaqueStep (fuel : nat) (upper t : tree.Tree) (upperNode : FileNode)
  : option (option error * tree.Tree) :=
  match hasOpaqueDirectory fuel upper (RealPath upperNode) with
  | None => None
  | Some false => Some (None, t)
  | Some true =>
      match RemoveChildPaths fuel t (RealPath upperNode) with
      | None => None
      | Some (Some err, t') =>
          Some (Some (ErrWrap "filetree merge failed to remove child paths"
                              (RealPath upperNode) err), t')
      | Some (None, t') => Some (None, t')
      end
  end.

(** The visitor of [merge], applied to the lower tree [t]. *)
Definition mergeVisitor (fuel : nat) (upper : tree.Tree) (upperNode : FileNode)
    (t : tree.Tree) : option (option error * tree.Tree) :=
  match opaqueStep fuel upper t upperNode with
  | Some (None, t1) => whiteoutOrGraft fuel t1 upperNode
  | stopped => stopped
  end.

(** [t.merge(upper)]: [t] is the lower tree. *)
Definition merge (fuel : nat) (t upper : tree.Tree) : option (option error * tree.Tree) :=
  walker.WalkAll upper (mergeVisitor fuel upper)
                 (fun n => negb (IsWhiteout (ID n)))
                 (fun n => negb (IsDirWhiteout (ID n)))
                 t.

(** *** Listings and comparisons *)

Definition AllFiles (t : tree.Tree) : list fileref.Reference :=
  omap (λ f, if bool_decide (FileType f = fileref.TypeReg) then Reference f else None)
       (tree.Nodes t).

Definition AllRealPaths (t : tree.Tree) : list Path :=
  RealPath <$> tree.Nodes t.

(** The loop of [ListPaths] over the children of the directory; an error
    of a resolution ends it without a listing. *)
Fixpoint listChildren (fuel : nat) (t : tree.Tree) (dir : Path) (children : list FileNode)
    (listing : list Path) : option (list Path * option error) :=
  match children with
  | [] => Some (listing, None)
  | childFn :: rest =>
      match node fuel t (RealPath childFn) (mkStrategy true false false) with
      | None => None
      | Some (_, _, Some err) => Some ([], Some err)
      | Some (basePath, _, None) =>
          listChildren fuel t dir rest
                       (listing ++ [GoPath.Join [dir; Basename basePath]])%list
      end
  end.

Definition ListPaths (fuel : nat) (t : tree.Tree) (dir : Path)
  : option (list Path * option error) :=
  match node fuel t dir (mkStrategy true true false) with
  | None => None
  | Some (_, _, Some err) => Some ([], Some err)
  | Some (_, None, None) => Some ([], None)
  | Some (_, Some n, None) =>
      if negb (bool_decide (FileType n = fileref.TypeDir)) then Some ([], None)
      else listChildren fuel t dir (tree.Children t n) []
  end.

(** [PathDiff]: the keys of [other] that [t] lacks, and the keys of [t]
    that [other] lacks; the two string sets of the source are [gset]s. *)
Definition PathDiff (t other : tree.Tree) : list Path * list Path :=
  let ourPaths : gset string := list_to_set (ID <$> tree.Nodes t) in
  let theirPaths : gset string := list_to_set (ID <$> tree.Nodes other) in
  (filter (λ id, id ∉ ourPaths) (ID <$> tree.Nodes other),
   filter (λ id, id ∉ theirPaths) (ID <$> tree.Nodes t)).

Definition Equal (t other : tree.Tree) : bool :=
  if negb (tree.Length t =? tree.Length other)%nat then false
  else
    let '(extra, missing) := PathDiff t other in
    (length extra =? 0)%nat && (length missing =? 0)%nat.

End filetree.

Import file filetree.

(** ** Trees used in the examples *)

(** The tree after a list of calls, from the empty tree; the references
    are numbered from 0. *)
Inductive call :=
| CallAddFile (p : Path)
| CallAddDir (p : Path)
| CallAddSymLink (p target : Path)
| CallAddHardLink (p target : Path).

Definition doCall (t : tree.Tree) (nextID : nat) (c : call) : Added :=
  match c with
  | CallAddFile p => AddFile t nextID p
  | CallAddDir p => AddDir t nextID p
  | CallAddSymLink p target => AddSymLink t nextID p target
  | CallAddHardLink p target => AddHardLink t nextID p target
  end.

Definition build (calls : list call) : tree.Tree :=
  fst (fold_left (fun st c => let '(_, _, t, nextID) := doCall (fst st) (snd st) c in (t, nextID))
                 calls (NewFileTree, 0)).


Definition addedRef (a : Added) : option fileref.Reference := a.1.1.1.
Definition addedErr (a : Added) : option error := a.1.1.2.
Definition addedTree (a : Added) : tree.Tree := a.1.2.
Definition addedNextID (a : Added) : nat := a.2.

(** Every node of the store is kept under its own real path. *)
Definition keyed (t : tree.Tree) : Prop :=
  ∀ k n, tree.Node t k = Some n → RealPath n = k.

(** Two links that point at each other. *)
Definition cycAB : tree.Tree :=
  build [CallAddSymLink "/a" "/b"; CallAddSymLink "/b" "/a"].

(** Two links, each pointing below the other. *)
Definition cycThroughAncestors : tree.Tree :=
  build [CallAddSymLink "/a" "/b/x"; CallAddSymLink "/b" "/a/y"].

(** A link whose target was never added. *)
Definition deadLink : tree.Tree := build [CallAddSymLink "/l" "/missing"].

(** A link next to its target. *)
Definition linkAndTarget : tree.Tree :=
  build [CallAddFile "/target/x"; CallAddSymLink "/link" "/target"].

(** The layers of the whiteout scenario. *)
Definition lowerPasswd : tree.Tree := build [CallAddFile "/etc/passwd"].
Definition upperWhiteout : tree.Tree := build [CallAddFile "/etc/.wh.passwd"].


(** The four conditions under which the copy made by [merge] takes the
    reference [lowerRef] of the lower node. *)
Definition inheritsLower (upperNode : FileNode) (originalNode : option FileNode)
    (lowerRef : fileref.Reference) : Prop :=
  ∃ orig, originalNode = Some orig
          ∧ FileType orig = FileType upperNode
          ∧ Reference upperNode = None
          ∧ Reference orig = Some lowerRef.

(** The state of the loop of [resolveNodeLinks] when the current node is
    absent: the last node is a stored link, kept with its path, whose
    target resolved to the absent current path. *)
Definition lastIsDeadLink (t : tree.Tree) (lp : Path) (ln : option FileNode) (cp : Path)
  : Prop :=
  ∃ l f, ln = Some l ∧ lp = RealPath l ∧ IsLink l = true
         ∧ tree.Node t (RealPath l) = Some l
         ∧ resolveAncestorLinks f t (nextPathOf l) = Some (cp, None, None).

(** [keyed], as a check that runs. *)
Definition keyedb (t : tree.Tree) : bool :=
  bool_decide (map_Forall (λ k n, RealPath n = k) (tree.nodes t)).

(** Resolving the link [c] resolves the link [d] first: [d] is stored,
    with a reference, at the first element of the target of [c], and the
    target goes on below it. *)
Definition entersLink (t : tree.Tree) (c d : FileNode) : Prop :=
  IsLink c = true ∧ nextPathOf c ≠ ""
  ∧ ∃ seg rest,
      GoPath.Split (Normalize (nextPathOf c)) = "" :: seg :: rest
      ∧ rest ≠ []
      ∧ tree.Node t (Normalize ("" ++ DirSeparator ++ seg)) = Some d
      ∧ is_Some (Reference d)
      ∧ IsLink d = true.

(** Whether a resolution found a node: no answer while it has not
    returned, false on an error. *)
Definition foundNode (r : option Resolved) : option bool :=
  match r with
  | None => None
  | Some (_, Some _, None) => Some true
  | Some _ => Some false
  end.

(** A string without separator. *)
Fixpoint noslash (s : string) : bool :=
  match s with
  | EmptyString => true
  | String c rest => negb (GoPath.is_sep c) && noslash rest
  end.

(** A path element that [path.Clean] keeps. *)
Definition properSeg (s : string) : Prop :=
  noslash s = true ∧ s ≠ "" ∧ s ≠ "." ∧ s ≠ "..".

(** The shape every tree built by the mutation API has: nodes are kept
    under their real path; the root [/] is present and has no parent; every
    other node is linked, both ways, to the node at its parent path; the
    linkage has no cycle (a depth can be given to every key). *)
Record WF (t : tree.Tree) : Prop := mkWF {
  wf_keyed : keyed t;
  wf_root : tree.root t = Some "/" ∧ is_Some (tree.Node t "/") ∧ tree.parent t !! "/" = None;
  wf_parent : ∀ k, is_Some (tree.Node t k) → k ≠ "/" →
                   ∃ pp, ParentPath k = Some pp ∧ tree.parent t !! k = Some pp;
  wf_linked : ∀ k pp, tree.parent t !! k = Some pp →
                      is_Some (tree.Node t k) ∧ is_Some (tree.Node t pp);
  wf_children : ∀ k pp, tree.parent t !! k = Some pp ↔ k ∈ tree.ChildIDs t pp;
  wf_depth : ∃ depth : string → nat,
               ∀ k pp, tree.parent t !! k = Some pp → depth k = S (depth pp)
}.

(** The trees that the mutation API produces from the empty tree; a call
    that fails still leaves a tree behind. *)
Inductive reachable : tree.Tree → Prop :=
| reach_NewFileTree : reachable NewFileTree
| reach_AddFile t nextID p :
    reachable t → reachable (addedTree (AddFile t nextID p))
| reach_AddDir t nextID p :
    reachable t → reachable (addedTree (AddDir t nextID p))
| reach_AddSymLink t nextID p target :
    reachable t → reachable (addedTree (AddSymLink t nextID p target))
| reach_AddHardLink t nextID p target :
    reachable t → reachable (addedTree (AddHardLink t nextID p target))
| reach_RemovePath fuel t p e t' :
    reachable t → RemovePath fuel t p = Some (e, t') → reachable t'
| reach_RemoveChildPaths fuel t p e t' :
    reachable t → RemoveChildPaths fuel t p = Some (e, t') → reachable t'.

(** A chain of links that ends at an absent path: [deadChain t n c l p]
    says that following the link [c] leads, over [n] further links, to the
    link [l], whose target resolves to the path [p] where no node is. *)
Inductive deadChain (t : tree.Tree) : nat → FileNode → FileNode → Path → Prop :=
| deadChain_last l p f :
    IsLink l = true → nextPathOf l ≠ "" →
    resolveAncestorLinks f t (nextPathOf l) = Some (p, None, None) →
    deadChain t 0 l l p
| deadChain_step n c c' p' l p f :
    IsLink c = true → nextPathOf c ≠ "" →
    resolveAncestorLinks f t (nextPathOf c) = Some (p', Some c', None) →
    deadChain t n c' l p →
    deadChain t (S n) c l p.

(** Following links: [linkSteps t n c d] says that [n] links lead from
    the node [c] to the node [d], each target resolving to the next node. *)
Inductive linkSteps (t : tree.Tree) : nat → FileNode → FileNode → Prop :=
| linkSteps_here c : linkSteps t 0 c c
| linkSteps_next n c c' p' d f :
    IsLink c = true → nextPathOf c ≠ "" →
    resolveAncestorLinks f t (nextPathOf c) = Some (p', Some c', None) →
    linkSteps t n c' d →
    linkSteps t (S n) c d.

(** The normal form of a path: the separator and the kept elements. *)
Definition normalOf (out : list string) : Path := String "/" (GoPath.JoinSep out).

(** The string that [resolveAncestorLinks] has accumulated after the
    elements [pre]: empty before the first element. *)
Definition accOf (pre : list string) : string :=
  match pre with
  | [] => ""
  | _ => normalOf pre
  end.

(** A tree without link nodes. *)
Definition linkFree (t : tree.Tree) : Prop :=
  ∀ k n, tree.Node t k = Some n → IsLink n = false.

(** [linkFree], as a check that runs. *)
Definition linkFreeb (t : tree.Tree) : bool :=
  bool_decide (map_Forall (λ _ n, IsLink n = false) (tree.nodes t)).

(** Looking the elements [rest] up one below the other, from the normal
    form of [pre] down: the node at the last one, when every one on the way
    is there. *)
Fixpoint descend (t : tree.Tree) (pre rest : list string) (cn : option FileNode)
  : option FileNode :=
  match rest with
  | [] => cn
  | x :: rest' =>
      match tree.Node t (normalOf (pre ++ [x])) with
      | None => None
      | Some c => descend t (pre ++ [x]) rest' (Some c)
      end
  end.

(** A link to a link to a regular file. *)
Definition linkChain : tree.Tree :=
  build [CallAddFile "/data/f"; CallAddSymLink "/l1" "/l2"; CallAddSymLink "/l2" "data/f"].

(** Every key of the store is a normalized path. *)
Definition normalKeys (t : tree.Tree) : Prop :=
  ∀ k n, tree.Node t k = Some n → Normalize k = k.

(** [normalKeys], as a check that runs. *)
Definition normalKeysb (t : tree.Tree) : bool :=
  bool_decide (map_Forall (λ k _, Normalize k = k) (tree.nodes t)).

(** Two directories with regular files. *)
Definition etcTree : tree.Tree :=
  build [CallAddFile "/etc/passwd"; CallAddFile "/bin/sh"; CallAddFile "/etc/group"].


(** A path that is walked without following a link: at every prefix of
    [pre] there is a node, and none is a link with a reference. *)
Definition plainPath (t : tree.Tree) (pre : list string) : Prop :=
  ∀ r, r ∈ prefixes pre →
       ∃ n, tree.Node t (normalOf r) = Some n ∧ (Reference n = None ∨ IsLink n = false).

(** A tree whose nodes are no links and are kept under normalized paths. *)
Definition plain (t : tree.Tree) : Prop :=
  ∀ k n, tree.Node t k = Some n → IsLink n = false ∧ Normalize k = k.

(** The trees built from the empty tree with files and directories at
    normalized paths, removals, and merges of such trees. *)
Inductive plainBuilt : tree.Tree → Prop :=
| plain_NewFileTree : plainBuilt NewFileTree
| plain_AddFile t nextID p :
    plainBuilt t → Normalize p = p → plainBuilt (addedTree (AddFile t nextID p))
| plain_AddDir t nextID p :
    plainBuilt t → Normalize p = p → plainBuilt (addedTree (AddDir t nextID p))
| plain_RemovePath fuel t p e t' :
    plainBuilt t → RemovePath fuel t p = Some (e, t') → plainBuilt t'
| plain_RemoveChildPaths fuel t p e t' :
    plainBuilt t → RemoveChildPaths fuel t p = Some (e, t') → plainBuilt t'
| plain_merge fuel t upper e t' :
    plainBuilt t → plainBuilt upper → merge fuel t upper = Some (e, t') → plainBuilt t'.

(** The layers of the reference scenario: the lower tree has a file
    [/f], a directory [/d] and a file [/g], each with a reference; the upper
    tree has a file below [/d], a link at [/f] and a file below [/g]. *)
Definition lowerRefs : tree.Tree :=
  build [CallAddFile "/f"; CallAddDir "/d"; CallAddFile "/g"].
Definition upperRefs : tree.Tree :=
  build [CallAddFile "/d/x"; CallAddSymLink "/f" "/d/x"; CallAddFile "/g/y"].


(** * Properties *)

Local Open Scope nat_scope.

(** ** The model on examples *)

Example Split_abc : GoPath.Split "/a/b" = [""; "a"; "b"].
Proof. reflexivity. Qed.

Example Clean_dots : GoPath.Clean "/cur/dir/../file1.txt" = "/cur/file1.txt".
Proof. reflexivity. Qed.

Example Clean_rel : GoPath.Clean "../a/./b//c/.." = "../a/b".
Proof. reflexivity. Qed.

Example SplitDir_ab : GoPath.SplitDir "/a/b" = ("/a/", "b").
Proof. reflexivity. Qed.

Example Normalize_root : file.Normalize "" = "/" ∧ file.Normalize "/a/../" = "/".
Proof. split; reflexivity. Qed.

Example ParentPath_ab : file.ParentPath "/a/b" = Some "/a" ∧ file.ParentPath "/a" = Some "/"
                        ∧ file.ParentPath "/" = None.
Proof. repeat split; reflexivity. Qed.

Example ConstituentPaths_abc :
  file.ConstituentPaths "/a/b/c" = ["/"; "/a"; "/a/b"; "/a/b/c"].
Proof. reflexivity. Qed.

Example UnWhiteoutPath_passwd :
  file.UnWhiteoutPath "/etc/.wh.passwd" = Some "/etc/passwd".
Proof. reflexivity. Qed.

(** The scenarios of the specification, run on the model. *)

Example scenario_deep_insert :
  let t := build [CallAddFile "/a/b/c.txt"] in
  tree.Node t "/" = Some (NewDir "/" None)
  ∧ tree.Node t "/a" = Some (NewDir "/a" None)
  ∧ tree.Node t "/a/b" = Some (NewDir "/a/b" None)
  ∧ tree.Node t "/a/b/c.txt"
    = Some (NewFile "/a/b/c.txt" (Some (fileref.mkReference 0 "/a/b/c.txt"))).
Proof. repeat split; by vm_compute. Qed.

Example scenario_follow_links :
  let t := build [CallAddSymLink "/link" "/target"; CallAddFile "/target/x"] in
  File 2 t "/link/x" [] = Some (true, Some (fileref.mkReference 1 "/target/x"), None)
  ∧ File 2 t "/link" [FollowBasenameLinks] = File 2 t "/target" [FollowBasenameLinks]
  ∧ File 2 t "/link" [] = Some (true, Some (fileref.mkReference 0 "/link"), None).
Proof. repeat split; by vm_compute. Qed.

Example scenario_opaque_directory :
  let lower := build [CallAddFile "/var/log/a"; CallAddFile "/var/log/b"] in
  let upper := build [CallAddFile "/var/log/.wh..wh..opq"; CallAddFile "/var/log/c"] in
  (λ r, match r with Some (e, t) => Some (e, tree.ChildIDs t "/var/log") | None => None end)
    (merge 2 lower upper)
  = Some (None, ["/var/log/c"]).
Proof. by vm_compute. Qed.

Example scenario_errors :
  let t := build [CallAddFile "/x"] in
  addedErr (AddDir t 1 "/x") = Some (ErrAlreadyExists "/x" "a symlink file")
  ∧ RemovePath 0 t "/" = Some (Some ErrRemovingRoot, t)
  ∧ RemovePath 0 t "/nothing" = Some (None, t).
Proof. repeat split; by vm_compute. Qed.

(** ** Fuel *)

Section Fuel.

(** The direct lookup is what [node] does under the zero strategy. *)
Lemma node_noFollow fuel t p : node fuel t p noFollow = Some (nodeDirect t p).
Proof. reflexivity. Qed.

Lemma ancestorLoop_mono t (f1 f2 : FileNode → option Resolved) :
  (∀ n r, f1 n = Some r → f2 n = Some r) →
  ∀ parts idx len s cp cn r,
    ancestorLoop t f1 parts idx len s cp cn = Some r →
    ancestorLoop t f2 parts idx len s cp cn = Some r.
Proof.
  intros Hf. induction parts as [|part rest IH]; intros idx len s cp cn r; simpl.
  - done.
  - destruct ((String.eqb part "" || String.eqb part DirSeparator) && (idx =? 0)%nat).
    + apply IH.
    + unfold nodeDirect.
      destruct (tree.Node t _) as [c|]; [|done].
      destruct (Reference c); [|apply IH].
      destruct (negb (idx =? len - 1)%nat && IsLink c); [|apply IH].
      destruct (f1 c) as [[[p n] e]|] eqn:E1; [|done].
      rewrite (Hf _ _ E1). destruct e; [done|apply IH].
Qed.

Lemma nodeLinksLoop_mono fuel :
  ∀ fuel' t fd seen lp ln cp cn r,
    fuel ≤ fuel' →
    nodeLinksLoop fuel t fd seen lp ln cp cn = Some r →
    nodeLinksLoop fuel' t fd seen lp ln cp cn = Some r.
Proof.
  induction fuel as [|fuel IH]; intros fuel' t fd seen lp ln cp cn r Hle; [done|].
  destruct fuel' as [|fuel']; [lia|]. simpl.
  destruct cn as [c|]; [|done].
  destruct (bool_decide (cp ∈ seen)); [done|].
  destruct (negb (IsLink c)); [done|].
  destruct (String.eqb (nextPathOf c) ""); [done|].
  unfold resolveAncestorLinksWith.
  destruct (ancestorLoop t (λ n, nodeLinksLoop fuel t true ∅ "" None (RealPath n) (Some n)) _ _ _ _ _ _)
    as [[[p n] e]|] eqn:E; [|done].
  apply (ancestorLoop_mono t _
           (λ n, nodeLinksLoop fuel' t true ∅ "" None (RealPath n) (Some n))) in E.
  - rewrite E. destruct e; [done|]. apply IH. lia.
  - intros n0 r0. apply IH. lia.
Qed.

Lemma resolveNodeLinks_mono fuel fuel' t n fd r :
  fuel ≤ fuel' → resolveNodeLinks fuel t n fd = Some r → resolveNodeLinks fuel' t n fd = Some r.
Proof. apply nodeLinksLoop_mono. Qed.

Lemma resolveAncestorLinks_mono fuel fuel' t p r :
  fuel ≤ fuel' → resolveAncestorLinks fuel t p = Some r → resolveAncestorLinks fuel' t p = Some r.
Proof.
  intros Hle. unfold resolveAncestorLinks, resolveAncestorLinksWith.
  apply ancestorLoop_mono. intros n r0. by apply resolveNodeLinks_mono.
Qed.

Lemma node_mono fuel fuel' t p s r :
  fuel ≤ fuel' → node fuel t p s = Some r → node fuel' t p s = Some r.
Proof.
  intros Hle. unfold node. destruct (negb (FollowLinks s)); [done|].
  destruct (FollowAncestorLinks s).
  - destruct (resolveAncestorLinks fuel t p) as [[[cp cn] e]|] eqn:E; [|done].
    rewrite (resolveAncestorLinks_mono _ _ _ _ _ Hle E).
    destruct e; [done|]. destruct cn; [|done].
    destruct (sFollowBasenameLinks s); [|done]. by apply resolveNodeLinks_mono.
  - destruct (tree.Node t (IDByPath p)); [|done].
    destruct (sFollowBasenameLinks s); [|done]. by apply resolveNodeLinks_mono.
Qed.

Lemma File_mono fuel fuel' t p opts r :
  fuel ≤ fuel' → File fuel t p opts = Some r → File fuel' t p opts = Some r.
Proof.
  intros Hle. unfold File, nodeDirect.
  set (s := mkStrategy _ _ _).
  destruct (tree.Node t (IDByPath p)) as [c|].
  - destruct (negb (IsLink c) || _); [done|].
    destruct (node fuel t p s) as [[[cp cn] e]|] eqn:E; [|done].
    by rewrite (node_mono _ _ _ _ _ _ Hle E).
  - destruct (node fuel t p s) as [[[cp cn] e]|] eqn:E; [|done].
    by rewrite (node_mono _ _ _ _ _ _ Hle E).
Qed.

Lemma HasPath_mono fuel fuel' t p b :
  fuel ≤ fuel' → HasPath fuel t p = Some b → HasPath fuel' t p = Some b.
Proof.
  intros Hle. unfold HasPath.
  destruct (File fuel t p _) as [r|] eqn:E; [|done].
  by rewrite (File_mono _ _ _ _ _ _ Hle E).
Qed.

End Fuel.

(** ** The visited set and link cycles *)

Section Cycles.

Lemma nodeLinksLoop_seen fuel t fd seen lp ln cp cn :
  cp ∈ seen →
  nodeLinksLoop (S fuel) t fd seen lp ln cp (Some cn)
  = Some (cp, None, Some ErrLinkCycleDetected).
Proof. intros Hin. simpl. by rewrite bool_decide_eq_true_2. Qed.

Lemma nodeLinksLoop_follow fuel t fd seen lp ln cp cn p n :
  cp ∉ seen → IsLink cn = true → nextPathOf cn ≠ "" →
  resolveAncestorLinks fuel t (nextPathOf cn) = Some (p, n, None) →
  nodeLinksLoop (S fuel) t fd seen lp ln cp (Some cn)
  = nodeLinksLoop fuel t fd ({[cp]} ∪ seen) cp (Some cn) p n.
Proof.
  intros Hnot Hlink Hnext Hres. simpl.
  rewrite bool_decide_eq_false_2 by done. rewrite Hlink. simpl.
  destruct (String.eqb_spec (nextPathOf cn) "") as [E|_]; [done|].
  unfold resolveAncestorLinks, resolveNodeLinks in Hres. by rewrite Hres.
Qed.

Lemma File_cycAB fuel :
  3 ≤ fuel →
  File fuel cycAB "/a" [FollowBasenameLinks] = Some (false, None, Some ErrLinkCycleDetected).
Proof. intros Hle. apply (File_mono 3); [done|]. by vm_compute. Qed.

End Cycles.

(** ** [HasPath] and resolution errors *)

(** C10: when [File] with [FollowBasenameLinks] returns an error, [HasPath]
    returns false; the error is not reported, so a path whose resolution
    failed and a path that is absent give the same answer. *)
Theorem HasPath_false_on_error :
  (∀ fuel t p exists_ ref err,
     File fuel t p [FollowBasenameLinks] = Some (exists_, ref, Some err) →
     HasPath fuel t p = Some false)
  ∧ (∀ fuel, 3 ≤ fuel →
       File fuel cycAB "/a" [FollowBasenameLinks] = Some (false, None, Some ErrLinkCycleDetected)
       ∧ HasPath fuel cycAB "/a" = Some false
       ∧ File fuel cycAB "/missing" [FollowBasenameLinks] = Some (false, None, None)
       ∧ HasPath fuel cycAB "/missing" = Some false).
Proof.
  split.
  - intros fuel t p ex ref err H. unfold HasPath. by rewrite H.
  - intros fuel Hle. pose proof (File_cycAB fuel Hle) as Ha.
    assert (Hm : File fuel cycAB "/missing" [FollowBasenameLinks] = Some (false, None, None))
      by (apply (File_mono 0); [lia|by vm_compute]).
    unfold HasPath. by rewrite Ha, Hm.
Qed.

Lemma HasPath_false_on_error_witness :
  File 3 cycAB "/a" [FollowBasenameLinks] = Some (false, None, Some ErrLinkCycleDetected)
  ∧ HasPath 3 cycAB "/a" = Some false.
Proof.
  assert (H : File 3 cycAB "/a" [FollowBasenameLinks]
              = Some (false, None, Some ErrLinkCycleDetected)) by (vm_compute; reflexivity).
  split; [exact H|].
  exact (proj1 HasPath_false_on_error 3 cycAB "/a" false None ErrLinkCycleDetected H).
Defined.

(** ** [Add*] on a path that exists *)

Section Existing.

Lemma assignReference_spec t p fn ref :
  tree.Node (assignReference t p fn ref) p = Some (withReference fn (Some ref))
  ∧ (∀ k, k ≠ p → tree.Node (assignReference t p fn ref) k = tree.Node t k).
Proof.
  unfold assignReference, tree.Node; simpl. split.
  - apply lookup_insert_eq.
  - intros k Hk. by apply lookup_insert_ne.
Qed.






End Existing.



(** ** Installing a node *)

Section Install.

Lemma HasNode_true t id : tree.HasNode t id = true ↔ is_Some (tree.Node t id).
Proof. unfold tree.HasNode, tree.Node. apply bool_decide_eq_true. Qed.

Lemma HasNode_false t id : tree.HasNode t id = false ↔ tree.Node t id = None.
Proof.
  unfold tree.HasNode, tree.Node. rewrite bool_decide_eq_false.
  by rewrite eq_None_not_Some.
Qed.

Lemma Replace_inv t old new t' :
  tree.Replace t old new = inr t' →
  ID old = ID new ∧ is_Some (tree.Node t (ID new))
  ∧ t' = tree.mkTree (<[ID new := new]> (tree.nodes t)) (tree.children t)
                     (tree.parent t) (tree.root t).
Proof.
  unfold tree.Replace. destruct (tree.HasNode t (ID old)) eqn:Eh; simpl; [|done].
  destruct (String.eqb_spec (ID old) (ID new)) as [E|]; simpl; [|done].
  intros [= <-]. apply HasNode_true in Eh. by rewrite <- E.
Qed.

Lemma AddChild_inv t p n t' :
  tree.AddChild t p n = inr t' →
  is_Some (tree.Node t (ID p)) ∧ tree.Node t (ID n) = None
  ∧ t' = tree.mkTree (<[ID n := n]> (tree.nodes t))
           (<[ID n := []]> (<[ID p := (tree.ChildIDs t (ID p) ++ [ID n])%list]> (tree.children t)))
           (<[ID n := ID p]> (tree.parent t)) (tree.root t).
Proof.
  unfold tree.AddChild. destruct (tree.HasNode t (ID p)) eqn:Ep; simpl; [|done].
  destruct (tree.HasNode t (ID n)) eqn:En; simpl; [done|].
  intros [= <-]. by rewrite <- HasNode_true, <- HasNode_false.
Qed.

(** A successful [setFileNode] leaves the node at its real path and
    touches no other key. *)
Lemma setFileNode_lookup t fn t' :
  setFileNode t fn = (None, t') →
  tree.Node t' (RealPath fn) = Some fn
  ∧ (∀ k, k ≠ RealPath fn → tree.Node t' k = tree.Node t k).
Proof.
  unfold setFileNode, nodeDirect, IDByPath, stored.
  destruct (tree.Node t (RealPath fn)) as [old|] eqn:Eold.
  - destruct (tree.Replace t old fn) as [e|t1] eqn:ER; [done|].
    intros [= <-]. apply Replace_inv in ER as (_ & _ & ->).
    unfold tree.Node, ID, IDByPath; simpl. split.
    + apply lookup_insert_eq.
    + intros k Hk. by apply lookup_insert_ne.
  - destruct (ParentPath (RealPath fn)) as [pp|]; [|done].
    destruct (tree.Node t pp) as [pn|]; [|done].
    destruct (tree.AddChild t pn fn) as [e|t1] eqn:EA; [done|].
    intros [= <-]. apply AddChild_inv in EA as (_ & _ & ->).
    unfold tree.Node, ID, IDByPath; simpl. split.
    + apply lookup_insert_eq.
    + intros k Hk. by apply lookup_insert_ne.
Qed.

Lemma nodeCopyFor_RealPath u o : RealPath (nodeCopyFor u o) = RealPath u.
Proof.
  unfold nodeCopyFor. destruct o as [orig|]; [|done].
  destruct (Reference orig), (Reference u); try done. by case_bool_decide.
Qed.

Lemma nodeCopyFor_fields u o :
  RealPath (nodeCopyFor u o) = RealPath u
  ∧ FileType (nodeCopyFor u o) = FileType u
  ∧ LinkPath (nodeCopyFor u o) = LinkPath u.
Proof.
  unfold nodeCopyFor. destruct o as [orig|]; [|done].
  destruct (Reference orig), (Reference u); try done. by case_bool_decide.
Qed.

Lemma nodeCopyFor_inherits u o lowerRef :
  inheritsLower u o lowerRef → Reference (nodeCopyFor u o) = Some lowerRef.
Proof.
  intros (orig & -> & Hk & Hu & Hl). unfold nodeCopyFor. rewrite Hl, Hu.
  by rewrite bool_decide_eq_true_2.
Qed.

Lemma nodeCopyFor_keeps u o :
  (∀ lowerRef, ¬ inheritsLower u o lowerRef) → Reference (nodeCopyFor u o) = Reference u.
Proof.
  intros Hno. unfold nodeCopyFor. destruct o as [orig|]; [|done].
  destruct (Reference orig) as [lr|] eqn:El; [|done].
  destruct (Reference u) eqn:Eu; [by rewrite Eu|].
  case_bool_decide as Hk; [|by rewrite Eu].
  exfalso. apply (Hno lr). by exists orig.
Qed.

Lemma graft_installs t u t' :
  graft t u = (None, t') →
  tree.Node t' (RealPath u) = Some (nodeCopyFor u (tree.Node t (RealPath u))).
Proof.
  unfold graft, nodeDirect, IDByPath.
  set (o := tree.Node t (RealPath u)).
  destruct (match o with None => addParentPaths t (RealPath u) | Some _ => (None, t) end)
    as [perr t1].
  destruct perr; [done|].
  destruct (setFileNode t1 (nodeCopyFor u o)) as [[e|] t2] eqn:ES; [done|].
  intros [= <-]. apply setFileNode_lookup in ES as [Hl _].
  by rewrite nodeCopyFor_RealPath in Hl.
Qed.

Lemma mergeVisitor_installs fuel upper t u t' :
  IsWhiteout (RealPath u) = false →
  mergeVisitor fuel upper u t = Some (None, t') →
  ∃ t1, opaqueStep fuel upper t u = Some (None, t1)
        ∧ tree.Node t' (RealPath u) = Some (nodeCopyFor u (tree.Node t1 (RealPath u))).
Proof.
  intros Hw. unfold mergeVisitor.
  destruct (opaqueStep fuel upper t u) as [[[e|] t1]|]; [done| |done].
  unfold whiteoutOrGraft. rewrite Hw. intros [= H].
  exists t1. split; [done|]. by apply graft_installs.
Qed.

End Install.

(** ** Dead links *)

Section DeadLinks.
Variable t : tree.Tree.
Hypothesis Hkeyed : keyed t.

(** A node returned by the ancestor loop is the node stored at the path
    returned with it. *)
Lemma ancestorLoop_found (follow : FileNode → option Resolved) :
  (∀ c p n, tree.Node t (RealPath c) = Some c →
            follow c = Some (p, Some n, None) → tree.Node t p = Some n) →
  ∀ parts idx len s cp cn p n,
    (∀ c, cn = Some c → tree.Node t cp = Some c) →
    ancestorLoop t follow parts idx len s cp cn = Some (p, Some n, None) →
    tree.Node t p = Some n.
Proof.
  intros Hf. induction parts as [|part rest IH]; intros idx len s cp cn p n Hcn; simpl.
  - intros [= -> ->]. by apply Hcn.
  - destruct ((String.eqb part "" || String.eqb part DirSeparator) && (idx =? 0)).
    + by apply IH.
    + unfold nodeDirect, IDByPath.
      destruct (tree.Node t (Normalize (s ++ DirSeparator ++ part))) as [c|] eqn:Ec; [|done].
      assert (Hstep : ∀ c', Some c = Some c' →
                tree.Node t (Normalize (s ++ DirSeparator ++ part)) = Some c')
        by (by intros c' [= <-]).
      destruct (Reference c); [|by apply IH].
      destruct (negb (idx =? len - 1) && IsLink c); [|by apply IH].
      destruct (follow c) as [[[p' n'] e]|] eqn:Ef; [|done].
      destruct e; [done|]. apply IH. intros c' ->.
      apply (Hf c); [|done]. by rewrite (Hkeyed _ _ Ec).
Qed.

Lemma nodeLinksLoop_found fuel :
  ∀ seen lp ln cp cn p n,
    (∀ c, cn = Some c → tree.Node t cp = Some c) →
    nodeLinksLoop fuel t true seen lp ln cp cn = Some (p, Some n, None) →
    tree.Node t p = Some n.
Proof.
  induction fuel as [|fuel IH]; intros seen lp ln cp cn p n Hcn; [done|]. simpl.
  destruct cn as [c|]; [|done].
  case_bool_decide; [done|].
  destruct (negb (IsLink c)); [intros [= <- <-]; by apply Hcn|].
  destruct (String.eqb (nextPathOf c) ""); [intros [= <- <-]; by apply Hcn|].
  destruct (resolveAncestorLinksWith t _ (nextPathOf c)) as [[[p' n'] e]|] eqn:Ea; [|done].
  destruct e; [done|]. apply IH. intros c' ->.
  unfold resolveAncestorLinksWith in Ea.
  apply (ancestorLoop_found _) in Ea; [done| |done].
  intros c0 p0 n0 H0. apply IH. by intros c1 [= <-].
Qed.

Lemma resolveAncestorLinks_found fuel q p n :
  resolveAncestorLinks fuel t q = Some (p, Some n, None) → tree.Node t p = Some n.
Proof.
  unfold resolveAncestorLinks, resolveAncestorLinksWith. intros H.
  apply (ancestorLoop_found _) in H; [done| |done].
  intros c p0 n0 H0. unfold resolveNodeLinks. apply nodeLinksLoop_found.
  by intros c1 [= <-].
Qed.

Lemma nodeLinksLoop_dead fuel :
  ∀ seen lp ln cp cn p,
    (∀ c, cn = Some c → tree.Node t cp = Some c) →
    (cn = None → lastIsDeadLink t lp ln cp) →
    nodeLinksLoop fuel t true seen lp ln cp cn = Some (p, None, None) →
    ∃ l, nodeLinksLoop fuel t false seen lp ln cp cn = Some (RealPath l, Some l, None)
         ∧ lastIsDeadLink t (RealPath l) (Some l) p.
Proof.
  induction fuel as [|fuel IH]; intros seen lp ln cp cn p Hcn Hlast; [done|]. simpl.
  destruct cn as [c|].
  - case_bool_decide; [done|].
    destruct (negb (IsLink c)) eqn:El; [done|].
    destruct (String.eqb (nextPathOf c) ""); [done|].
    destruct (resolveAncestorLinksWith t _ (nextPathOf c)) as [[[p' n'] e]|] eqn:Ea; [|done].
    destruct e; [done|].
    pose proof (Hcn c eq_refl) as Hc.
    apply IH.
    + intros c' ->. by apply (resolveAncestorLinks_found fuel (nextPathOf c)).
    + intros ->. exists c, fuel. rewrite (Hkeyed _ _ Hc).
      repeat split; try done. by apply negb_false_iff in El.
  - intros [= <-]. destruct (Hlast eq_refl) as (l & f & -> & -> & Hl).
    exists l. split; [done|]. by exists l, f.
Qed.

End DeadLinks.

Lemma keyedb_keyed t : keyedb t = true → keyed t.
Proof.
  unfold keyedb, keyed, tree.Node. rewrite bool_decide_eq_true.
  intros H k n Hk. by apply (H k n).
Qed.

(** The two settings of the dead-link flag, run against each other: when
    the run that follows dead links ends at an absent path, the run that
    does not returns the last link. *)
Lemma node_dead_link_runs fuel t q a cp cn p :
  keyed t →
  node fuel t q (mkStrategy a false false) = Some (cp, Some cn, None) →
  node fuel t q (mkStrategy a true false) = Some (p, None, None) →
  ∃ l, node fuel t q (mkStrategy a true true) = Some (RealPath l, Some l, None)
       ∧ lastIsDeadLink t (RealPath l) (Some l) p.
Proof.
  intros Hk. unfold node. destruct a; simpl.
  - destruct (resolveAncestorLinks fuel t q) as [[[cp0 cn0] e]|] eqn:Ea; [|done].
    destruct e; [by destruct cn0|]. destruct cn0 as [c|]; [|done]. intros [= -> ->].
    apply (resolveAncestorLinks_found t Hk) in Ea.
    unfold resolveNodeLinks. intros Hd.
    apply (nodeLinksLoop_dead t Hk) in Hd; [done| |done].
    intros c [= <-]. by rewrite (Hk _ _ Ea).
  - unfold nodeDirect, IDByPath. intros [= -> Hq]. rewrite Hq.
    unfold resolveNodeLinks. intros Hd.
    apply (nodeLinksLoop_dead t Hk) in Hd; [done| |done].
    intros c [= <-]. by rewrite (Hk _ _ Hq).
Qed.

Section DeadChains.
Variable t : tree.Tree.
Hypothesis Hkeyed : keyed t.

Lemma resolveAncestorLinks_det f f' q r r' :
  resolveAncestorLinks f t q = Some r → resolveAncestorLinks f' t q = Some r' → r = r'.
Proof.
  intros H H'.
  apply (resolveAncestorLinks_mono _ (f `max` f')) in H; [|lia].
  apply (resolveAncestorLinks_mono _ (f `max` f')) in H'; [|lia]. congruence.
Qed.

Lemma deadChain_det n c l p :
  deadChain t n c l p → ∀ m l' p', deadChain t m c l' p' → n = m.
Proof.
  induction 1 as [l p f Hl Hn Hr|n c c' p' l p f Hl Hn Hr Hc IH]; intros m l1 p1 H1;
    inversion H1; subst; try done;
    match goal with
    | H2 : resolveAncestorLinks _ t _ = Some _ |- _ =>
        pose proof (resolveAncestorLinks_det _ _ _ _ _ Hr H2) as E
    end; try done.
  injection E as -> ->. f_equal. by eapply IH.
Qed.

Lemma deadChain_last_link n c l p : deadChain t n c l p → IsLink l = true.
Proof. by induction 1. Qed.

(** On a chain that ends at an absent path the cycle check never fires,
    and the loop returns: the absent path when dead links are followed,
    the last link with its path when they are not. *)
Lemma nodeLinksLoop_deadChain n c l p :
  deadChain t n c l p →
  ∀ fd seen lp ln,
    tree.Node t (RealPath c) = Some c →
    (∀ x, x ∈ seen → ∃ c' m l' p', x = RealPath c' ∧ tree.Node t x = Some c'
                                   ∧ deadChain t m c' l' p' ∧ n < m) →
    ∃ fuel, nodeLinksLoop fuel t fd seen lp ln (RealPath c) (Some c)
            = Some (if fd then (p, None, None) else (RealPath l, Some l, None)).
Proof.
  induction 1 as [l p f Hl Hn Hr|n c c' p' l p f Hl Hn Hr Hc IH];
    intros fd seen lp ln Hst Hseen.
  - assert (Hnot : RealPath l ∉ seen).
    { intros (c' & m & l' & p' & Hx & Hc' & Hd & Hlt)%Hseen.
      rewrite Hst in Hc'. injection Hc' as <-.
      pose proof (deadChain_det _ _ _ _ (deadChain_last t l p f Hl Hn Hr) _ _ _ Hd). lia. }
    exists (S (S f)).
    rewrite (nodeLinksLoop_follow (S f) t fd seen lp ln (RealPath l) l p None);
      [|done|done|done|by apply (resolveAncestorLinks_mono f); [lia|]].
    simpl. by destruct fd.
  - assert (Hnot : RealPath c ∉ seen).
    { intros (c0 & m & l' & p0 & Hx & Hc0 & Hd & Hlt)%Hseen.
      rewrite Hst in Hc0. injection Hc0 as <-.
      pose proof (deadChain_det _ _ _ _ (deadChain_step t n c c' p' l p f Hl Hn Hr Hc) _ _ _ Hd).
      lia. }
    pose proof (resolveAncestorLinks_found t Hkeyed _ _ _ _ Hr) as Hc'.
    pose proof (Hkeyed _ _ Hc') as Hp'.
    destruct (IH fd ({[RealPath c]} ∪ seen) (RealPath c) (Some c)) as [fuel1 Hloop].
    + by rewrite Hp'.
    + intros x [->%elem_of_singleton|Hx]%elem_of_union.
      * exists c, (S n), l, p. repeat split; try done; [|lia].
        by apply (deadChain_step t n c c' p' l p f).
      * destruct (Hseen x Hx) as (c0 & m & l' & p0 & ? & ? & ? & ?).
        exists c0, m, l', p0. repeat split; try done. lia.
    + exists (S (f `max` fuel1)).
      rewrite (nodeLinksLoop_follow _ t fd seen lp ln (RealPath c) c p' (Some c'));
        [|done|done|done|by apply (resolveAncestorLinks_mono f); [lia|]].
      rewrite <- Hp'. by apply (nodeLinksLoop_mono fuel1); [lia|].
Qed.

Lemma resolveNodeLinks_deadChain n c l p fd :
  deadChain t n c l p → tree.Node t (RealPath c) = Some c →
  ∃ fuel, resolveNodeLinks fuel t c fd
          = Some (if fd then (p, None, None) else (RealPath l, Some l, None)).
Proof.
  intros Hd Hc. apply (nodeLinksLoop_deadChain n c l p Hd); [done|].
  by intros x ?%elem_of_empty.
Qed.

End DeadChains.

(** C4: take a query resolved with basename-link following whose basename
    node [c] exists and starts a chain of links that ends at an absent
    path [p], behind the last link [l].  With
    [DoNotFollowDeadBasenameLinks] the resolution returns [l] and the path
    of [l]; without it the resolution returns no node (and the absent
    path); both return, and neither returns an error. *)
Theorem dead_basename_link_policy t q a f0 cp c n l p :
  keyed t →
  node f0 t q (mkStrategy a false false) = Some (cp, Some c, None) →
  deadChain t n c l p →
  IsLink l = true
  ∧ ∃ fuel,
      node fuel t q (mkStrategy a true true) = Some (RealPath l, Some l, None)
      ∧ node fuel t q (mkStrategy a true false) = Some (p, None, None).
Proof.
  intros Hk Hq Hd. split; [by apply (deadChain_last_link t n c l p)|].
  assert (Hst : tree.Node t (RealPath c) = Some c
                ∧ ∀ fuel, f0 ≤ fuel → ∀ dnf fd,
                    fd = negb dnf →
                    node fuel t q (mkStrategy a true dnf) = resolveNodeLinks fuel t c fd).
  { unfold node in *. destruct a; simpl in *.
    - destruct (resolveAncestorLinks f0 t q) as [[[cp0 cn0] e]|] eqn:Ea; [|done].
      destruct e; [by destruct cn0|]. destruct cn0 as [c0|]; [|done].
      injection Hq as -> ->. pose proof (resolveAncestorLinks_found t Hk _ _ _ _ Ea) as Hf.
      split; [by rewrite (Hk _ _ Hf)|]. intros fuel Hle dnf fd ->.
      by rewrite (resolveAncestorLinks_mono _ _ _ _ _ Hle Ea).
    - unfold nodeDirect, IDByPath in *. injection Hq as -> Hq.
      split; [by rewrite (Hk _ _ Hq)|]. intros fuel Hle dnf fd ->. by rewrite Hq. }
  destruct Hst as [Hc Hnode].
  destruct (resolveNodeLinks_deadChain t Hk n c l p false Hd Hc) as [f1 H1].
  destruct (resolveNodeLinks_deadChain t Hk n c l p true Hd Hc) as [f2 H2].
  assert (H0 : f0 ≤ f0 `max` (f1 `max` f2)) by lia.
  exists (f0 `max` (f1 `max` f2)). split.
  - rewrite (Hnode _ H0 true false eq_refl).
    by apply (resolveNodeLinks_mono f1); [lia|].
  - rewrite (Hnode _ H0 false true eq_refl).
    by apply (resolveNodeLinks_mono f2); [lia|].
Qed.

Lemma dead_basename_link_policy_witness :
  let l := NewSymLink "/l" "/missing" (Some (fileref.mkReference 0 "/l")) in
  keyed deadLink
  ∧ node 0 deadLink "/l" (mkStrategy true false false) = Some ("/l", Some l, None)
  ∧ deadChain deadLink 0 l l "/missing"
  ∧ IsLink l = true
  ∧ ∃ fuel,
      node fuel deadLink "/l" (mkStrategy true true true) = Some (RealPath l, Some l, None)
      ∧ node fuel deadLink "/l" (mkStrategy true true false) = Some ("/missing", None, None).
Proof.
  intros l.
  assert (Hk : keyed deadLink) by (apply keyedb_keyed; vm_compute; reflexivity).
  assert (H1 : node 0 deadLink "/l" (mkStrategy true false false) = Some ("/l", Some l, None))
    by (vm_compute; reflexivity).
  assert (H2 : deadChain deadLink 0 l l "/missing").
  { apply (deadChain_last deadLink l "/missing" 0);
      [reflexivity|vm_compute; discriminate|vm_compute; reflexivity]. }
  split; [exact Hk|]. split; [exact H1|]. split; [exact H2|].
  exact (dead_basename_link_policy deadLink "/l" true 0 "/l" l 0 l "/missing" Hk H1 H2).
Defined.

(** ** Cycles of basename links *)

Section LinkCycles.
Variable t : tree.Tree.
Hypothesis Hkeyed : keyed t.

(** Walking towards a node whose path has been visited ends in the cycle
    error. *)
Lemma nodeLinksLoop_reaches_seen n c d :
  linkSteps t n c d →
  ∀ fd seen lp ln,
    tree.Node t (RealPath c) = Some c → RealPath d ∈ seen →
    ∃ fuel p, nodeLinksLoop fuel t fd seen lp ln (RealPath c) (Some c)
              = Some (p, None, Some ErrLinkCycleDetected).
Proof.
  induction 1 as [c|n c c' p' d f Hl Hn Hr Hc IH]; intros fd seen lp ln Hst Hd.
  - exists 1, (RealPath c). by apply nodeLinksLoop_seen.
  - destruct (decide (RealPath c ∈ seen)) as [Hin|Hnot].
    + exists 1, (RealPath c). by apply nodeLinksLoop_seen.
    + pose proof (resolveAncestorLinks_found t Hkeyed _ _ _ _ Hr) as Hc'.
      pose proof (Hkeyed _ _ Hc') as Hp'.
      destruct (IH fd ({[RealPath c]} ∪ seen) (RealPath c) (Some c)) as (fuel1 & p & Hloop).
      * by rewrite Hp'.
      * apply elem_of_union. by right.
      * exists (S (f `max` fuel1)), p.
        rewrite (nodeLinksLoop_follow _ t fd seen lp ln (RealPath c) c p' (Some c'));
          [|done|done|done|by apply (resolveAncestorLinks_mono f); [lia|]].
        rewrite <- Hp'. by apply (nodeLinksLoop_mono fuel1); [lia|].
Qed.

(** A chain of links that runs into a cycle is reported, whatever has
    been visited before. *)
Lemma nodeLinksLoop_cycle m c d k :
  linkSteps t m c d → linkSteps t (S k) d d →
  ∀ fd seen lp ln,
    tree.Node t (RealPath c) = Some c →
    ∃ fuel p, nodeLinksLoop fuel t fd seen lp ln (RealPath c) (Some c)
              = Some (p, None, Some ErrLinkCycleDetected).
Proof.
  induction 1 as [c|n c c' p' d f Hl Hn Hr Hc IH]; intros Hcyc fd seen lp ln Hst.
  - destruct (decide (RealPath c ∈ seen)) as [Hin|Hnot].
    { exists 1, (RealPath c). by apply nodeLinksLoop_seen. }
    inversion Hcyc as [|? ? c' p' ? f Hl Hn Hr Hc]; subst.
    pose proof (resolveAncestorLinks_found t Hkeyed _ _ _ _ Hr) as Hc'.
    pose proof (Hkeyed _ _ Hc') as Hp'.
    destruct (nodeLinksLoop_reaches_seen k c' c Hc fd ({[RealPath c]} ∪ seen)
                (RealPath c) (Some c)) as (fuel1 & p & Hloop).
    + by rewrite Hp'.
    + apply elem_of_union. left. by apply elem_of_singleton.
    + exists (S (f `max` fuel1)), p.
      rewrite (nodeLinksLoop_follow _ t fd seen lp ln (RealPath c) c p' (Some c'));
        [|done|done|done|by apply (resolveAncestorLinks_mono f); [lia|]].
      rewrite <- Hp'. by apply (nodeLinksLoop_mono fuel1); [lia|].
  - destruct (decide (RealPath c ∈ seen)) as [Hin|Hnot].
    { exists 1, (RealPath c). by apply nodeLinksLoop_seen. }
    pose proof (resolveAncestorLinks_found t Hkeyed _ _ _ _ Hr) as Hc'.
    pose proof (Hkeyed _ _ Hc') as Hp'.
    destruct (IH Hcyc fd ({[RealPath c]} ∪ seen) (RealPath c) (Some c)) as (fuel1 & p & Hloop).
    + by rewrite Hp'.
    + exists (S (f `max` fuel1)), p.
      rewrite (nodeLinksLoop_follow _ t fd seen lp ln (RealPath c) c p' (Some c'));
        [|done|done|done|by apply (resolveAncestorLinks_mono f); [lia|]].
      rewrite <- Hp'. by apply (nodeLinksLoop_mono fuel1); [lia|].
Qed.

End LinkCycles.

(** C3: each call of [resolveNodeLinks] starts with an empty set of visited
    paths; every link it follows is added to the set; when the current
    path is already in the set the call returns [ErrLinkCycleDetected].
    So a chain of basename links that runs into a cycle is reported, as
    long as the targets themselves resolve.  After [AddSymLink /a /b] and
    [AddSymLink /b /a], [File] on [/a] with [FollowBasenameLinks] returns
    that error. *)
Theorem cycle_detected_by_visited_set :
  (∀ fuel t n fd,
     resolveNodeLinks fuel t n fd = nodeLinksLoop fuel t fd ∅ "" None (RealPath n) (Some n))
  ∧ (∀ fuel t fd seen lp ln cp cn p n,
       cp ∉ seen → IsLink cn = true → nextPathOf cn ≠ "" →
       resolveAncestorLinks fuel t (nextPathOf cn) = Some (p, n, None) →
       nodeLinksLoop (S fuel) t fd seen lp ln cp (Some cn)
       = nodeLinksLoop fuel t fd ({[cp]} ∪ seen) cp (Some cn) p n)
  ∧ (∀ fuel t fd seen lp ln cp cn,
       cp ∈ seen →
       nodeLinksLoop (S fuel) t fd seen lp ln cp (Some cn)
       = Some (cp, None, Some ErrLinkCycleDetected))
  ∧ (∀ t m k c d fd,
       keyed t → tree.Node t (RealPath c) = Some c →
       linkSteps t m c d → linkSteps t (S k) d d →
       ∃ fuel p, resolveNodeLinks fuel t c fd = Some (p, None, Some ErrLinkCycleDetected))
  ∧ (let a1 := AddSymLink NewFileTree 0 "/a" "/b" in
     let a2 := AddSymLink (addedTree a1) (addedNextID a1) "/b" "/a" in
     addedErr a1 = None ∧ addedErr a2 = None ∧
     ∀ fuel, 3 ≤ fuel →
       File fuel (addedTree a2) "/a" [FollowBasenameLinks]
       = Some (false, None, Some ErrLinkCycleDetected)).
Proof.
  split; [done|]. split; [apply nodeLinksLoop_follow|].
  split; [apply nodeLinksLoop_seen|]. split.
  - intros t m k c d fd Hk Hc Hm Hcyc. by apply (nodeLinksLoop_cycle t Hk m c d k).
  - split; [by vm_compute|]. split; [by vm_compute|].
    intros fuel Hle. by apply File_cycAB.
Qed.

Lemma cycle_detected_by_visited_set_witness :
  let a := NewSymLink "/a" "/b" (Some (fileref.mkReference 0 "/a")) in
  let b := NewSymLink "/b" "/a" (Some (fileref.mkReference 1 "/b")) in
  "/a" ∈ ({["/a"]} : gset string)
  ∧ nodeLinksLoop 1 cycAB true {["/a"]} "" None "/a" (Some a)
    = Some ("/a", None, Some ErrLinkCycleDetected)
  ∧ keyed cycAB ∧ tree.Node cycAB (RealPath a) = Some a
  ∧ linkSteps cycAB 0 a a ∧ linkSteps cycAB 2 a a
  ∧ (∃ fuel p, resolveNodeLinks fuel cycAB a true = Some (p, None, Some ErrLinkCycleDetected))
  ∧ 3 ≤ 5
  ∧ File 5 cycAB "/a" [FollowBasenameLinks] = Some (false, None, Some ErrLinkCycleDetected).
Proof.
  intros a b.
  assert (Hin : "/a" ∈ ({["/a"]} : gset string)) by (apply elem_of_singleton; reflexivity).
  assert (Hle : 3 ≤ 5) by lia.
  assert (Hk : keyed cycAB) by (apply keyedb_keyed; vm_compute; reflexivity).
  assert (Ha : tree.Node cycAB (RealPath a) = Some a) by (vm_compute; reflexivity).
  assert (H0 : linkSteps cycAB 0 a a) by apply linkSteps_here.
  assert (H2 : linkSteps cycAB 2 a a).
  { apply (linkSteps_next cycAB 1 a b "/b" a 0);
      [reflexivity|vm_compute; discriminate|vm_compute; reflexivity|].
    apply (linkSteps_next cycAB 0 b a "/a" a 0);
      [reflexivity|vm_compute; discriminate|vm_compute; reflexivity|].
    apply linkSteps_here. }
  split; [exact Hin|].
  split; [exact (proj1 (proj2 (proj2 cycle_detected_by_visited_set)) 0 cycAB true _ "" None "/a" _ Hin)|].
  split; [exact Hk|]. split; [exact Ha|]. split; [exact H0|]. split; [exact H2|].
  split; [exact (proj1 (proj2 (proj2 (proj2 cycle_detected_by_visited_set)))
                   cycAB 0 1 a a true Hk Ha H0 H2)|].
  split; [exact Hle|].
  exact (proj2 (proj2 (proj2 (proj2 (proj2 (proj2 cycle_detected_by_visited_set))))) 5 Hle).
Defined.

(** ** Cycles through ancestors *)

Section AncestorCycles.

Lemma resolveAncestorLinksWith_enters t follow path seg rest d :
  GoPath.Split (Normalize path) = "" :: seg :: rest →
  rest ≠ [] →
  tree.Node t (Normalize ("" ++ DirSeparator ++ seg)) = Some d →
  is_Some (Reference d) → IsLink d = true →
  follow d = None →
  resolveAncestorLinksWith t follow path = None.
Proof.
  intros Hsplit Hrest Hd [r Hr] Hlink Hf.
  unfold resolveAncestorLinksWith. rewrite Hsplit. simpl.
  rewrite andb_false_r. unfold nodeDirect, IDByPath. simpl in Hd. rewrite Hd, Hr, Hlink.
  destruct rest; [done|]. simpl. by rewrite Hf.
Qed.

Lemma resolveNodeLinks_enters fuel t c d fd :
  entersLink t c d →
  resolveNodeLinks fuel t d true = None →
  resolveNodeLinks (S fuel) t c fd = None.
Proof.
  intros (Hlink & Hnext & seg & rest & Hsplit & Hrest & Hd & Hr & Hdl) Hdiv.
  unfold resolveNodeLinks. simpl.
  rewrite Hlink. simpl.
  destruct (String.eqb_spec (nextPathOf c) "") as [E|_]; [done|].
  by rewrite (resolveAncestorLinksWith_enters t _ _ seg rest d).
Qed.

(** Two links that enter each other are never resolved, whatever the
    fuel. *)
Lemma resolveNodeLinks_cycle t a b :
  entersLink t a b → entersLink t b a →
  ∀ fuel, (∀ fd, resolveNodeLinks fuel t a fd = None)
          ∧ (∀ fd, resolveNodeLinks fuel t b fd = None).
Proof.
  intros Hab Hba. induction fuel as [|fuel [IHa IHb]]; [done|].
  split; intros fd.
  - by apply (resolveNodeLinks_enters fuel t a b).
  - by apply (resolveNodeLinks_enters fuel t b a).
Qed.

Lemma cycThroughAncestors_enters :
  let a := NewSymLink "/a" "/b/x" (Some (fileref.mkReference 0 "/a")) in
  let b := NewSymLink "/b" "/a/y" (Some (fileref.mkReference 1 "/b")) in
  entersLink cycThroughAncestors a b ∧ entersLink cycThroughAncestors b a.
Proof.
  split.
  - split; [done|]. split; [done|]. exists "b", ["x"].
    split; [by vm_compute|]. split; [done|]. split; [by vm_compute|]. by split.
  - split; [done|]. split; [done|]. exists "a", ["y"].
    split; [by vm_compute|]. split; [done|]. split; [by vm_compute|]. by split.
Qed.

Lemma File_cycThroughAncestors fuel :
  File fuel cycThroughAncestors "/a" [FollowBasenameLinks] = None.
Proof.
  pose proof cycThroughAncestors_enters as [Hab Hba]. simpl in Hab, Hba.
  pose proof (resolveNodeLinks_cycle _ _ _ Hab Hba fuel) as [Ha _].
  assert (Hnode : tree.Node cycThroughAncestors "/a"
                  = Some (NewSymLink "/a" "/b/x" (Some (fileref.mkReference 0 "/a"))))
    by (by vm_compute).
  assert (Hanc : resolveAncestorLinks fuel cycThroughAncestors "/a"
                 = Some ("/a", Some (NewSymLink "/a" "/b/x" (Some (fileref.mkReference 0 "/a"))), None))
    by (apply (resolveAncestorLinks_mono 0); [lia|by vm_compute]).
  unfold File, nodeDirect, IDByPath. rewrite Hnode.
  change (newLinkResolutionStrategy [FollowBasenameLinks]) with (mkStrategy false true false).
  simpl. unfold node. simpl. by rewrite Hanc, Ha.
Qed.

End AncestorCycles.

(** C2: resolution does not terminate on every finite tree.  After
    [AddSymLink /a /b/x] and [AddSymLink /b /a/y] the tree has three
    nodes, and [File] on [/a] with [FollowBasenameLinks] returns neither a
    result nor [ErrLinkCycleDetected] within any number of steps, nor does
    [HasPath]: every nested resolution starts with an empty visited set. *)
Theorem ancestor_link_cycle_never_returns :
  let a1 := AddSymLink NewFileTree 0 "/a" "/b/x" in
  let a2 := AddSymLink (addedTree a1) (addedNextID a1) "/b" "/a/y" in
  addedErr a1 = None ∧ addedErr a2 = None
  ∧ tree.Length (addedTree a2) = 3
  ∧ ∀ fuel, File fuel (addedTree a2) "/a" [FollowBasenameLinks] = None
            ∧ HasPath fuel (addedTree a2) "/a" = None.
Proof.
  split; [by vm_compute|]. split; [by vm_compute|]. split; [by vm_compute|].
  intros fuel.
  change (addedTree (AddSymLink _ _ "/b" "/a/y")) with cycThroughAncestors.
  unfold HasPath. by rewrite File_cycThroughAncestors.
Qed.

(** ** [HasPath] after an [Add*] call *)

Section AfterAdd.

Lemma HasPath_not_link fuel t p fn :
  tree.Node t p = Some fn → IsLink fn = false → HasPath fuel t p = Some true.
Proof.
  intros Hn Hl. unfold HasPath, File, nodeDirect, IDByPath. by rewrite Hn, Hl.
Qed.

Lemma HasPath_link fuel t p fn :
  tree.Node t p = Some fn → IsLink fn = true →
  HasPath fuel t p = foundNode (node fuel t p (mkStrategy true true false)).
Proof.
  intros Hn Hl. unfold HasPath, File, nodeDirect, IDByPath. rewrite Hn, Hl.
  change (newLinkResolutionStrategy [FollowBasenameLinks]) with (mkStrategy false true false).
  simpl. destruct (node fuel t p _) as [[[cp [c|]] [e|]]|]; done.
Qed.

Lemma File_no_follow_link fuel t p fn :
  tree.Node t p = Some fn → File fuel t p [] = Some (true, Reference fn, None).
Proof.
  intros Hn. unfold File, nodeDirect, IDByPath. rewrite Hn.
  change (newLinkResolutionStrategy []) with (mkStrategy false false false).
  simpl. by destruct (IsLink fn).
Qed.

(** After a successful call the node at the path has the kind of the
    call and the reference the call returned. *)
Ltac added_node :=
  unfold AddFile, AddDir, AddSymLink, AddHardLink, nodeDirect, IDByPath,
         addedErr, addedTree, addedRef;
  match goal with
  | |- context [tree.Node ?t ?p] =>
      let fn := fresh "fn" in let E := fresh "E" in
      destruct (tree.Node t p) as [fn|] eqn:E
  end;
  [ let Hk := fresh "Hk" in
    case_bool_decide as Hk; simpl; [|done];
    match goal with
    | |- context [Reference ?fn] =>
        let Er := fresh "Er" in destruct (Reference fn) eqn:Er
    end; simpl; intros _;
    [ eexists; split; [eassumption|]; by rewrite Hk
    | eexists; split; [apply assignReference_spec|]; by rewrite <- Hk ]
  | match goal with
    | |- context [addParentPaths ?t ?p] =>
        let e := fresh "e" in let t1 := fresh "t1" in
        destruct (addParentPaths t p) as [[e|] t1]; simpl; [done|]
    end;
    match goal with
    | |- context [setFileNode ?t ?fn] =>
        let e := fresh "e" in let t2 := fresh "t2" in let ES := fresh "ES" in
        destruct (setFileNode t fn) as [[e|] t2] eqn:ES; simpl; [done|];
        intros _; apply setFileNode_lookup in ES as [ES _]; by eexists
    end ].

Lemma AddFile_node t nextID p :
  addedErr (AddFile t nextID p) = None →
  ∃ fn, tree.Node (addedTree (AddFile t nextID p)) p = Some fn
        ∧ FileType fn = fileref.TypeReg
        ∧ Reference fn = addedRef (AddFile t nextID p).
Proof. added_node. Qed.

Lemma AddDir_node t nextID p :
  addedErr (AddDir t nextID p) = None →
  ∃ fn, tree.Node (addedTree (AddDir t nextID p)) p = Some fn
        ∧ FileType fn = fileref.TypeDir
        ∧ Reference fn = addedRef (AddDir t nextID p).
Proof. added_node. Qed.

Lemma AddSymLink_node t nextID p target :
  addedErr (AddSymLink t nextID p target) = None →
  ∃ fn, tree.Node (addedTree (AddSymLink t nextID p target)) p = Some fn
        ∧ FileType fn = fileref.TypeSymlink
        ∧ Reference fn = addedRef (AddSymLink t nextID p target).
Proof. added_node. Qed.

Lemma AddHardLink_node t nextID p target :
  addedErr (AddHardLink t nextID p target) = None →
  ∃ fn, tree.Node (addedTree (AddHardLink t nextID p target)) p = Some fn
        ∧ FileType fn = fileref.TypeHardLink
        ∧ Reference fn = addedRef (AddHardLink t nextID p target).
Proof. added_node. Qed.

End AfterAdd.

(** C1, as stated, fails: [AddSymLink /l /missing] succeeds on the empty
    tree, and [HasPath /l] is false, because [HasPath] follows the link and
    its target is absent. *)
Lemma HasPath_after_AddSymLink_dead :
  let a := AddSymLink NewFileTree 0 "/l" "/missing" in
  addedErr a = None
  ∧ HasPath 2 (addedTree a) "/l" = Some false
  ∧ ∀ fuel, HasPath fuel (addedTree a) "/l" ≠ Some true.
Proof.
  split; [by vm_compute|].
  assert (H2 : HasPath 2 (addedTree (AddSymLink NewFileTree 0 "/l" "/missing")) "/l"
               = Some false) by (by vm_compute).
  split; [done|]. intros fuel Hf.
  destruct (Nat.le_ge_cases fuel 2) as [Hle|Hle].
  - apply (HasPath_mono _ _ _ _ _ Hle) in Hf. congruence.
  - apply (HasPath_mono _ _ _ _ _ Hle) in H2. congruence.
Qed.

(** C1, amended: after a successful [AddFile] or [AddDir] on [p],
    [HasPath p] is true.  After a successful [AddSymLink] or [AddHardLink]
    the link is at [p], and [File p] without options finds it and returns
    its reference; [HasPath p] follows the link, and is true exactly when
    the resolution of [p] through its links finds a node. *)
Theorem HasPath_after_add t nextID p :
  (addedErr (AddFile t nextID p) = None →
     ∀ fuel, HasPath fuel (addedTree (AddFile t nextID p)) p = Some true)
  ∧ (addedErr (AddDir t nextID p) = None →
       ∀ fuel, HasPath fuel (addedTree (AddDir t nextID p)) p = Some true)
  ∧ (∀ target, let a := AddSymLink t nextID p target in
       addedErr a = None →
       ∀ fuel,
         File fuel (addedTree a) p [] = Some (true, addedRef a, None)
         ∧ HasPath fuel (addedTree a) p
           = foundNode (node fuel (addedTree a) p (mkStrategy true true false)))
  ∧ (∀ target, let a := AddHardLink t nextID p target in
       addedErr a = None →
       ∀ fuel,
         File fuel (addedTree a) p [] = Some (true, addedRef a, None)
         ∧ HasPath fuel (addedTree a) p
           = foundNode (node fuel (addedTree a) p (mkStrategy true true false))).
Proof.
  split; [|split; [|split]].
  - intros H fuel. destruct (AddFile_node _ _ _ H) as (fn & Hn & Hk & _).
    apply (HasPath_not_link _ _ _ fn); [done|]. unfold IsLink. by rewrite Hk.
  - intros H fuel. destruct (AddDir_node _ _ _ H) as (fn & Hn & Hk & _).
    apply (HasPath_not_link _ _ _ fn); [done|]. unfold IsLink. by rewrite Hk.
  - intros target a H fuel. destruct (AddSymLink_node _ _ _ _ H) as (fn & Hn & Hk & Hr).
    split.
    + subst a. rewrite <- Hr. by apply File_no_follow_link.
    + apply (HasPath_link _ _ _ fn); [done|]. unfold IsLink. by rewrite Hk.
  - intros target a H fuel. destruct (AddHardLink_node _ _ _ _ H) as (fn & Hn & Hk & Hr).
    split.
    + subst a. rewrite <- Hr. by apply File_no_follow_link.
    + apply (HasPath_link _ _ _ fn); [done|]. unfold IsLink. by rewrite Hk.
Qed.

Lemma HasPath_after_add_witness :
  addedErr (AddFile NewFileTree 0 "/a/b") = None
  ∧ HasPath 0 (addedTree (AddFile NewFileTree 0 "/a/b")) "/a/b" = Some true
  ∧ addedErr (AddSymLink NewFileTree 0 "/l" "/missing") = None
  ∧ HasPath 2 (addedTree (AddSymLink NewFileTree 0 "/l" "/missing")) "/l"
    = foundNode (node 2 (addedTree (AddSymLink NewFileTree 0 "/l" "/missing")) "/l"
                      (mkStrategy true true false)).
Proof.
  assert (H1 : addedErr (AddFile NewFileTree 0 "/a/b") = None) by (vm_compute; reflexivity).
  assert (H2 : addedErr (AddSymLink NewFileTree 0 "/l" "/missing") = None)
    by (vm_compute; reflexivity).
  split; [exact H1|].
  split; [exact (proj1 (HasPath_after_add NewFileTree 0 "/a/b") H1 0)|].
  split; [exact H2|].
  exact (proj2 (proj1 (proj2 (proj2 (HasPath_after_add NewFileTree 0 "/l")))
                 "/missing" H2 2)).
Defined.

(** ** Removal *)

Section Removal.

Lemma delete_all_lookup {V} (ks : list string) (m : gmap string V) k :
  tree.delete_all ks m !! k = if decide (k ∈ ks) then None else m !! k.
Proof.
  unfold tree.delete_all. induction ks as [|x ks IH].
  - destruct (decide (k ∈ [])) as [Hin|Hin]; [by apply elem_of_nil in Hin|done].
  - cbn [foldr]. destruct (decide (x = k)) as [->|Hne].
    + rewrite lookup_delete_eq.
      destruct (decide (k ∈ k :: ks)) as [Hin|Hin]; [done|].
      exfalso. apply Hin, list_elem_of_here.
    + rewrite lookup_delete_ne by done. rewrite IH.
      destruct (decide (k ∈ ks)) as [Hin|Hin], (decide (k ∈ x :: ks)) as [Hin'|Hin']; try done.
      * exfalso. by apply Hin', list_elem_of_further.
      * apply elem_of_cons in Hin' as [->|]; done.
Qed.

Lemma subtree_head depth ch id : id ∈ tree.subtree depth ch id.
Proof. destruct depth; apply list_elem_of_here. Qed.

Lemma RemoveNode_inv t n t' cnt :
  tree.RemoveNode t n = inr (t', cnt) →
  tree.root t ≠ Some (ID n) ∧ is_Some (tree.Node t (ID n))
  ∧ tree.nodes t' = tree.delete_all (tree.subtree (size (tree.nodes t)) (tree.children t) (ID n))
                                    (tree.nodes t)
  ∧ tree.root t' = tree.root t.
Proof.
  unfold tree.RemoveNode. case_bool_decide as Hroot; [done|].
  destruct (tree.HasNode t (ID n)) eqn:Eh; simpl; [|done].
  intros [= <- _]. simpl. by apply HasNode_true in Eh.
Qed.

(** Removing a node leaves every other node as it was, or removes it. *)
Lemma RemoveNode_lookup t n t' cnt k :
  tree.RemoveNode t n = inr (t', cnt) →
  tree.Node t' k
  = if decide (k ∈ tree.subtree (tree.Length t) (tree.children t) (ID n)) then None
    else tree.Node t k.
Proof.
  intros H. apply RemoveNode_inv in H as (_ & _ & Hn & _).
  unfold tree.Node, tree.Length. rewrite Hn. apply delete_all_lookup.
Qed.

Lemma RemoveNode_only_removes t n t' cnt k :
  tree.RemoveNode t n = inr (t', cnt) → is_Some (tree.Node t' k) → is_Some (tree.Node t k).
Proof.
  intros H. rewrite (RemoveNode_lookup _ _ _ _ k H). by case_decide; [intros []|].
Qed.


Lemma removeNodes_only_removes children :
  ∀ t e t' k, removeNodes t children = (e, t') →
              is_Some (tree.Node t' k) → is_Some (tree.Node t k).
Proof.
  induction children as [|c rest IH]; intros t e t' k; simpl; [by intros [= _ <-]|].
  destruct (tree.RemoveNode t c) as [err|[t1 cnt]] eqn:ER; [by intros [= _ <-]|].
  intros H Hk. apply (RemoveNode_only_removes t c t1 cnt); [done|]. by apply (IH t1 e t').
Qed.




End Removal.



(** ** Paths: what [Normalize] returns *)

Section Paths.

Lemma Split_nonempty s : GoPath.Split s ≠ [].
Proof.
  destruct s as [|c s]; simpl; [done|].
  destruct (GoPath.is_sep c); [done|]. by destruct (GoPath.Split s).
Qed.

Lemma Split_app a b :
  GoPath.Split (a ++ "/" ++ b) = (GoPath.Split a ++ GoPath.Split b)%list.
Proof.
  induction a as [|c a IH]; simpl; [done|].
  destruct (GoPath.is_sep c); simpl; [by rewrite <- IH|].
  simpl in IH. rewrite IH. pose proof (Split_nonempty a) as Hne.
  by destruct (GoPath.Split a).
Qed.

Lemma Split_noslash s : noslash s = true → GoPath.Split s = [s].
Proof.
  induction s as [|c s IH]; simpl; [done|].
  intros [Hc Hs]%andb_true_iff. apply negb_true_iff in Hc. rewrite Hc.
  by rewrite (IH Hs).
Qed.

Lemma Split_Forall_noslash s : Forall (λ e, noslash e = true) (GoPath.Split s).
Proof.
  induction s as [|c s IH]; simpl; [by repeat constructor|].
  destruct (GoPath.is_sep c) eqn:Ec; [by constructor|].
  destruct (GoPath.Split s) as [|h tl]; [by repeat constructor; simpl; rewrite Ec|].
  inversion IH; subst. constructor; [|done]. simpl. by rewrite Ec.
Qed.

Lemma clean_step_proper stack seg :
  noslash seg = true → Forall properSeg stack →
  Forall properSeg (GoPath.clean_step true stack seg).
Proof.
  intros Hs Hst. unfold GoPath.clean_step.
  destruct (String.eqb_spec seg "") as [|H1]; [done|].
  destruct (String.eqb_spec seg ".") as [|H2]; [done|]. simpl.
  destruct (String.eqb_spec seg "..") as [|H3].
  - destruct stack as [|top below]; [done|].
    inversion Hst as [|? ? Htop Hbelow]; subst.
    destruct (String.eqb_spec top "..") as [->|]; [|done].
    by destruct Htop as (_ & _ & _ & ?).
  - by constructor.
Qed.

Lemma clean_fold_proper l :
  ∀ stack, Forall (λ e, noslash e = true) l → Forall properSeg stack →
           Forall properSeg (fold_left (GoPath.clean_step true) l stack).
Proof.
  induction l as [|seg l IH]; intros stack Hl Hst; simpl; [done|].
  inversion Hl; subst. apply IH; [done|]. by apply clean_step_proper.
Qed.

Lemma clean_step_push stack seg :
  properSeg seg → GoPath.clean_step true stack seg = seg :: stack.
Proof.
  intros (_ & H1 & H2 & H3). unfold GoPath.clean_step.
  apply String.eqb_neq in H1, H2, H3. by rewrite H1, H2, H3.
Qed.

Lemma HasPrefix_sep p : GoPath.HasPrefix (String "/" p) "/" = true.
Proof.
  unfold GoPath.HasPrefix. simpl.
  destruct (ascii_dec "/" "/") as [_|Hne]; [by destruct p|done].
Qed.

Lemma Clean_rooted p :
  GoPath.Clean (String "/" p)
  = String "/" (GoPath.JoinSep
      (rev (fold_left (GoPath.clean_step true) (GoPath.Split (String "/" p)) []))).
Proof. unfold GoPath.Clean. by rewrite HasPrefix_sep. Qed.

(** [Normalize] returns the separator followed by the kept elements. *)
Lemma Normalize_out p :
  ∃ out, Normalize p = String "/" (GoPath.JoinSep out) ∧ Forall properSeg out
         ∧ out = rev (fold_left (GoPath.clean_step true) (GoPath.Split (String "/" p)) []).
Proof.
  exists (rev (fold_left (GoPath.clean_step true) (GoPath.Split (String "/" p)) [])).
  split; [|split; [|reflexivity]].
  - apply Clean_rooted.
  - apply Forall_rev, clean_fold_proper; [apply Split_Forall_noslash|done].
Qed.

Lemma JoinSep_empty l : GoPath.JoinSep l = "" → l = [] ∨ l = [""].
Proof.
  destruct l as [|x [|y rest]]; simpl; [by left|intros ->; by right|].
  destruct x; simpl; done.
Qed.

Lemma Split_JoinSep out :
  Forall properSeg out → out ≠ [] → GoPath.Split (GoPath.JoinSep out) = out.
Proof.
  induction out as [|x rest IH]; intros Hall Hne; [done|].
  inversion Hall as [|? ? Hx Hrest]; subst. destruct rest as [|y rest'].
  - simpl. apply Split_noslash. by destruct Hx.
  - change (GoPath.JoinSep (x :: y :: rest')) with (x ++ "/" ++ GoPath.JoinSep (y :: rest')).
    rewrite Split_app, Split_noslash by (by destruct Hx). rewrite IH; done.
Qed.

(** The elements of a normalized path that is not the root. *)
Lemma Split_Normalize p :
  Normalize p ≠ "/" →
  ∃ out, GoPath.Split (Normalize p) = "" :: out ∧ Forall properSeg out ∧ out ≠ [].
Proof.
  intros Hne. destruct (Normalize_out p) as (out & Hn & Hall & _).
  exists out. rewrite Hn in *. destruct out as [|x rest]; [done|].
  split; [|done]. cbn [GoPath.Split GoPath.is_sep Ascii.eqb Bool.eqb].
  by rewrite Split_JoinSep.
Qed.

(** A path that ends in a kept element does not normalize to the root. *)
Lemma Normalize_child s part :
  properSeg part → Normalize (s ++ DirSeparator ++ part) ≠ "/".
Proof.
  intros Hp. destruct (Normalize_out (s ++ DirSeparator ++ part)) as (out & Hn & _ & Hout).
  rewrite Hn.
  change (String "/" (s ++ DirSeparator ++ part)) with (String "/" s ++ "/" ++ part) in Hout.
  rewrite Split_app, (Split_noslash part) in Hout by (by destruct Hp).
  rewrite fold_left_app in Hout. simpl in Hout. rewrite clean_step_push in Hout by done.
  simpl in Hout. intros [= HJ]. apply JoinSep_empty in HJ as [->| ->].
  - by destruct (rev _).
  - symmetry in Hout. apply app_eq_unit in Hout as [[_ [= Hpart]]|[_ ?]]; [|done].
    by destruct Hp as (_ & ? & _).
Qed.

End Paths.

(** ** [RemovePath] *)

Section RemovePathFacts.

(** Past the first element, the ancestor loop never returns the root. *)
Lemma ancestorLoop_not_root t follow len :
  ∀ out idx s cp cn p n,
    1 ≤ idx → len = idx + length out → Forall properSeg out →
    (out = [] → cp ≠ "/") →
    ancestorLoop t follow out idx len s cp cn = Some (p, Some n, None) →
    p ≠ "/".
Proof.
  induction out as [|part rest IH]; intros idx s cp cn p n Hidx Hlen Hall Hcp; simpl.
  - intros [= <- _]. by apply Hcp.
  - inversion Hall as [|? ? Hpart Hrest]; subst.
    destruct idx as [|idx]; [lia|]. rewrite andb_false_r.
    pose proof (Normalize_child s part Hpart) as Hk.
    unfold nodeDirect, IDByPath.
    destruct (tree.Node t (Normalize (s ++ DirSeparator ++ part))) as [c|]; [|done].
    assert (Hnext : ∀ s' cn',
              ancestorLoop t follow rest (S (S idx)) (S idx + length (part :: rest)) s'
                           (Normalize (s ++ DirSeparator ++ part)) cn'
              = Some (p, Some n, None) → p ≠ "/").
    { intros s' cn'. apply IH; [lia|simpl; lia|done|done]. }
    destruct (Reference c); [|by apply Hnext].
    destruct (negb (S idx =? S idx + length (part :: rest) - 1) && IsLink c) eqn:Elast;
      [|by apply Hnext].
    destruct (follow c) as [[[p' n'] e]|]; [|done]. destruct e; [done|].
    apply IH; [lia|simpl; lia|done|].
    intros ->. apply andb_true_iff in Elast as [Hl _].
    apply negb_true_iff, Nat.eqb_neq in Hl. simpl in Hl. lia.
Qed.

Lemma resolveAncestorLinks_not_root fuel t path p n :
  Normalize path ≠ "/" →
  resolveAncestorLinks fuel t path = Some (p, Some n, None) → p ≠ "/".
Proof.
  intros Hne. destruct (Split_Normalize path Hne) as (out & Hsplit & Hall & Hout).
  unfold resolveAncestorLinks, resolveAncestorLinksWith. rewrite Hsplit. simpl.
  apply ancestorLoop_not_root; [lia|done|done|done].
Qed.

Lemma RemovePath_root fuel t p :
  Normalize p = "/" → RemovePath fuel t p = Some (Some ErrRemovingRoot, t).
Proof. intros H. unfold RemovePath. by rewrite H. Qed.

Lemma RemovePath_absent fuel t p cp :
  Normalize p ≠ "/" →
  node fuel t p (mkStrategy true false false) = Some (cp, None, None) →
  RemovePath fuel t p = Some (None, t).
Proof.
  intros Hne Hn. unfold RemovePath.
  destruct (String.eqb_spec (Normalize p) "/") as [|_]; [done|]. by rewrite Hn.
Qed.

Lemma node_ancestors_only fuel t p :
  node fuel t p (mkStrategy true false false) = resolveAncestorLinks fuel t p.
Proof.
  unfold node. simpl.
  by destruct (resolveAncestorLinks fuel t p) as [[[cp [c|]] [e|]]|].
Qed.

Lemma RemovePath_found fuel t p cp fn :
  keyed t → tree.root t = Some "/" → Normalize p ≠ "/" →
  node fuel t p (mkStrategy true false false) = Some (cp, Some fn, None) →
  tree.Node t cp = Some fn
  ∧ ∃ t', RemovePath fuel t p = Some (None, t')
          ∧ ∀ k, tree.Node t' k
                 = if decide (k ∈ tree.subtree (tree.Length t) (tree.children t) cp)
                   then None else tree.Node t k.
Proof.
  intros Hk Hroot Hne Hn.
  pose proof Hn as Ha. rewrite node_ancestors_only in Ha.
  pose proof (resolveAncestorLinks_found t Hk _ _ _ _ Ha) as Hfound.
  pose proof (resolveAncestorLinks_not_root _ _ _ _ _ Hne Ha) as Hcp.
  pose proof (Hk _ _ Hfound) as Hid.
  split; [done|]. unfold RemovePath.
  destruct (String.eqb_spec (Normalize p) "/") as [|_]; [done|]. rewrite Hn.
  destruct (tree.RemoveNode t fn) as [err|[t' cnt]] eqn:ER.
  - exfalso. unfold tree.RemoveNode, ID, IDByPath in ER. rewrite Hid, Hroot in ER.
    rewrite bool_decide_eq_false_2 in ER by congruence.
    assert (Hh : tree.HasNode t cp = true) by (apply HasNode_true; eauto).
    by rewrite Hh in ER.
  - exists t'. split; [done|]. intros k.
    rewrite (RemoveNode_lookup _ _ _ _ k ER). unfold ID, IDByPath. by rewrite Hid.
Qed.

End RemovePathFacts.

Lemma subtree_child depth ch id c :
  0 < depth → c ∈ default [] (ch !! id) → c ∈ tree.subtree depth ch id.
Proof.
  intros Hd Hc. destruct depth as [|d]; [lia|]. simpl.
  apply list_elem_of_further, list_elem_of_In, in_flat_map.
  exists c. split; [by apply list_elem_of_In|]. apply list_elem_of_In, subtree_head.
Qed.

Lemma Length_pos t k n : tree.Node t k = Some n → 0 < tree.Length t.
Proof.
  unfold tree.Node, tree.Length. intros H.
  destruct (decide (size (tree.nodes t) = 0)) as [E|]; [|lia].
  apply map_size_empty_iff in E. rewrite E in H. by rewrite lookup_empty in H.
Qed.


(** ** The shape of the tree is kept by the mutations *)

Section Shape.

Lemma WF_NewFileTree : WF NewFileTree.
Proof.
  unfold NewFileTree. simpl. split; simpl.
  - intros k n. unfold tree.Node. simpl. intros H.
    apply lookup_insert_Some in H as [[<- <-]|[_ H]]; [done|].
    by rewrite lookup_empty in H.
  - unfold tree.Node. simpl. split; [done|]. split; [|done].
    exists (NewDir "/" None). apply lookup_insert_eq.
  - intros k [n H] Hk. unfold tree.Node in H. simpl in H.
    apply lookup_insert_Some in H as [[<- _]|[_ H]]; [done|].
    by rewrite lookup_empty in H.
  - intros k pp H. by rewrite lookup_empty in H.
  - intros k pp. unfold tree.ChildIDs. simpl. split.
    + intros H. by rewrite lookup_empty in H.
    + intros H. destruct (decide (pp = "/")) as [->|Hne].
      * rewrite lookup_insert_eq in H. by apply elem_of_nil in H.
      * rewrite lookup_insert_ne, lookup_empty in H by done. by apply elem_of_nil in H.
  - exists (λ _, 0). intros k pp H. by rewrite lookup_empty in H.
Qed.

(** Putting a node with the same key in place of a stored one. *)
Lemma WF_update t k n :
  WF t → is_Some (tree.Node t k) → RealPath n = k →
  WF (tree.mkTree (<[k := n]> (tree.nodes t)) (tree.children t) (tree.parent t) (tree.root t)).
Proof.
  intros [HK HR HP HL HC HD] Hin Hrp.
  assert (Hdom : ∀ j, is_Some (<[k := n]> (tree.nodes t) !! j) ↔ is_Some (tree.Node t j)).
  { intros j. unfold tree.Node. destruct (decide (k = j)) as [<-|Hne].
    - rewrite lookup_insert_eq. split; [done|by eexists].
    - by rewrite lookup_insert_ne. }
  split; simpl.
  - intros j m H. unfold tree.Node in H. simpl in H.
    apply lookup_insert_Some in H as [[<- <-]|[_ H]]; [done|by apply HK].
  - destruct HR as (? & ? & ?). repeat split; try done. by apply Hdom.
  - intros j Hj. apply HP. by apply Hdom.
  - intros j pp H. destruct (HL j pp H). split; by apply Hdom.
  - done.
  - done.
Qed.

Lemma WF_assignReference t p fn ref :
  WF t → tree.Node t p = Some fn → WF (assignReference t p fn ref).
Proof.
  intros Hwf Hn. apply WF_update; [done|by eexists|].
  simpl. by apply (wf_keyed t Hwf).
Qed.

Lemma WF_Replace t old new t' :
  WF t → tree.Replace t old new = inr t' → WF t'.
Proof.
  intros Hwf H. apply Replace_inv in H as (_ & Hin & ->). by apply WF_update.
Qed.

Lemma WF_AddChild t pn fn t' pp :
  WF t → ParentPath (RealPath fn) = Some pp → tree.Node t pp = Some pn →
  tree.AddChild t pn fn = inr t' → WF t'.
Proof.
  intros [HK HR HP HL HC [depth HD]] Hpp Hpn HA.
  apply AddChild_inv in HA as (_ & Hn & ->). unfold ID, IDByPath in *.
  rewrite (HK _ _ Hpn) in *. set (k := RealPath fn) in *.
  destruct HR as (Hroot & Hrn & Hrp).
  assert (Hkp : k ≠ pp) by (intros E; rewrite E, Hpn in Hn; done).
  assert (Hkr : k ≠ "/") by (intros E; rewrite E in Hn; rewrite Hn in Hrn; by destruct Hrn).
  assert (Hkeep : ∀ j, is_Some (tree.Node t j) →
                       is_Some (<[k := fn]> (tree.nodes t) !! j)).
  { intros j Hj. destruct (decide (k = j)) as [<-|Hne].
    - rewrite lookup_insert_eq. by eexists.
    - by rewrite lookup_insert_ne. }
  assert (Hin : ∀ j, is_Some (tree.Node t j) → j ≠ k).
  { intros j Hj ->. rewrite Hn in Hj. by destruct Hj. }
  split; simpl.
  - intros j m H. unfold tree.Node in H. simpl in H.
    apply lookup_insert_Some in H as [[<- <-]|[_ H]]; [done|by apply HK].
  - repeat split; [done|by apply Hkeep|]. by rewrite lookup_insert_ne.
  - intros j Hj Hjr. unfold tree.Node in Hj. simpl in Hj.
    destruct (decide (k = j)) as [<-|Hne].
    + exists pp. split; [done|]. apply lookup_insert_eq.
    + rewrite lookup_insert_ne in Hj by done. rewrite lookup_insert_ne by done.
      by apply HP.
  - intros j q H. unfold tree.Node. simpl.
    apply lookup_insert_Some in H as [[<- <-]|[Hne H]].
    + split; [rewrite lookup_insert_eq; by eexists|]. apply Hkeep. by eexists.
    + destruct (HL _ _ H). split; by apply Hkeep.
  - intros j q. unfold tree.ChildIDs. simpl. split.
    + intros H. apply lookup_insert_Some in H as [[<- <-]|[Hne H]].
      * rewrite lookup_insert_ne, lookup_insert_eq by done. simpl.
        apply elem_of_app. right. apply list_elem_of_here.
      * assert (Hq : q ≠ k) by (apply Hin; apply (HL _ _ H)).
        rewrite lookup_insert_ne by done. apply HC in H.
        destruct (decide (pp = q)) as [<-|Hpq].
        -- rewrite lookup_insert_eq. simpl. apply elem_of_app. by left.
        -- by rewrite lookup_insert_ne.
    + intros H. destruct (decide (k = q)) as [<-|Hkq].
      * rewrite lookup_insert_eq in H. by apply elem_of_nil in H.
      * rewrite lookup_insert_ne in H by done.
        destruct (decide (pp = q)) as [<-|Hpq].
        -- rewrite lookup_insert_eq in H. simpl in H.
           apply elem_of_app in H as [H|H].
           ++ apply HC in H. rewrite lookup_insert_ne; [done|].
              intros <-. apply (Hin k); [apply (HL _ _ H)|done].
           ++ apply list_elem_of_singleton in H as ->. apply lookup_insert_eq.
        -- rewrite lookup_insert_ne in H by done. apply HC in H.
           rewrite lookup_insert_ne; [done|].
           intros <-. apply (Hin k); [apply (HL _ _ H)|done].
  - exists (λ x, if decide (x = k) then S (depth pp) else depth x).
    intros j q H. apply lookup_insert_Some in H as [[<- <-]|[Hne H]].
    + rewrite decide_True by done. by rewrite decide_False.
    + rewrite decide_False by done. rewrite decide_False; [by apply HD|].
      apply Hin. apply (HL _ _ H).
Qed.

Lemma WF_setFileNode t fn e t' :
  WF t → setFileNode t fn = (e, t') → WF t'.
Proof.
  intros Hwf. unfold setFileNode, nodeDirect, IDByPath, stored.
  destruct (tree.Node t (RealPath fn)) as [old|] eqn:Eold.
  - destruct (tree.Replace t old fn) as [err|t1] eqn:ER; intros [= _ <-]; [done|].
    by apply (WF_Replace t old fn).
  - destruct (ParentPath (RealPath fn)) as [pp|] eqn:Epp; [|by intros [= _ <-]].
    destruct (tree.Node t pp) as [pn|] eqn:Epn; [|by intros [= _ <-]].
    destruct (tree.AddChild t pn fn) as [err|t1] eqn:EA; intros [= _ <-]; [done|].
    by apply (WF_AddChild t pn fn t1 pp).
Qed.

Lemma WF_addDirs paths : ∀ t e t', WF t → addDirs t paths = (e, t') → WF t'.
Proof.
  induction paths as [|p rest IH]; intros t e t' Hwf; simpl; [by intros [= _ <-]|].
  destruct (setFileNode t (NewDir p None)) as [[err|] t1] eqn:ES.
  - intros [= _ <-]. by apply (WF_setFileNode _ _ _ _ Hwf ES).
  - apply IH. by apply (WF_setFileNode _ _ _ _ Hwf ES).
Qed.

Lemma WF_addParentPaths t p e t' : WF t → addParentPaths t p = (e, t') → WF t'.
Proof.
  intros Hwf. unfold addParentPaths, nodeDirect.
  destruct (ParentPath p); [|by intros [= _ <-]].
  destruct (tree.Node t _); [by intros [= _ <-]|]. by apply WF_addDirs.
Qed.

(** The four [Add*] calls keep the shape, whatever they return. *)
Ltac add_keeps_shape :=
  let Hwf := fresh "Hwf" in
  intros Hwf;
  unfold AddFile, AddDir, AddSymLink, AddHardLink, nodeDirect, IDByPath, addedTree;
  match goal with
  | |- context [tree.Node ?t ?p] =>
      let fn := fresh "fn" in let E := fresh "E" in
      destruct (tree.Node t p) as [fn|] eqn:E
  end;
  [ case_bool_decide; simpl; [|done];
    match goal with
    | |- context [Reference ?fn] => destruct (Reference fn)
    end; simpl; [done|by apply WF_assignReference]
  | match goal with
    | |- context [addParentPaths ?t ?p] =>
        let e := fresh "e" in let t1 := fresh "t1" in let EP := fresh "EP" in
        destruct (addParentPaths t p) as [e t1] eqn:EP;
        apply (WF_addParentPaths _ _ _ _ Hwf) in EP; destruct e; simpl; [done|]
    end;
    match goal with
    | |- context [setFileNode ?t ?fn] =>
        let e := fresh "e" in let t2 := fresh "t2" in let ES := fresh "ES" in
        destruct (setFileNode t fn) as [e t2] eqn:ES; simpl;
        by apply (WF_setFileNode _ _ _ _ ltac:(eassumption) ES)
    end ].

Lemma WF_AddFile t nextID p : WF t → WF (addedTree (AddFile t nextID p)).
Proof. add_keeps_shape. Qed.

Lemma WF_AddDir t nextID p : WF t → WF (addedTree (AddDir t nextID p)).
Proof. add_keeps_shape. Qed.

Lemma WF_AddSymLink t nextID p target :
  WF t → WF (addedTree (AddSymLink t nextID p target)).
Proof. add_keeps_shape. Qed.

Lemma WF_AddHardLink t nextID p target :
  WF t → WF (addedTree (AddHardLink t nextID p target)).
Proof. add_keeps_shape. Qed.

(** *** The subtree below a node *)

Lemma subtree_in_child depth ch id c x :
  c ∈ default [] (ch !! id) → x ∈ tree.subtree depth ch c →
  x ∈ tree.subtree (S depth) ch id.
Proof.
  intros Hc Hx. simpl. apply list_elem_of_further, list_elem_of_In, in_flat_map.
  exists c. split; by apply list_elem_of_In.
Qed.

Lemma subtree_inv depth ch id x :
  x ∈ tree.subtree (S depth) ch id →
  x = id ∨ ∃ c, c ∈ default [] (ch !! id) ∧ x ∈ tree.subtree depth ch c.
Proof.
  simpl. intros [->|H]%elem_of_cons; [by left|]. right.
  apply list_elem_of_In, in_flat_map in H as (c & Hc & Hx).
  exists c. split; by apply list_elem_of_In.
Qed.

(** A key of the subtree is its top or the child of a key of the subtree. *)
Lemma subtree_parent ch depth :
  ∀ id x, x ∈ tree.subtree depth ch id →
          x = id ∨ ∃ q, q ∈ tree.subtree depth ch id ∧ x ∈ default [] (ch !! q).
Proof.
  induction depth as [|d IH]; intros id x Hx.
  - simpl in Hx. apply list_elem_of_singleton in Hx. by left.
  - apply subtree_inv in Hx as [->|(c & Hc & Hx)]; [by left|]. right.
    destruct (IH c x Hx) as [->|(q & Hq & Hxq)].
    + exists id. split; [apply subtree_head|done].
    + exists q. split; [|done]. by apply (subtree_in_child d ch id c).
Qed.

Lemma subtree_step ch depth :
  ∀ id q x, q ∈ tree.subtree depth ch id → x ∈ default [] (ch !! q) →
            x ∈ tree.subtree (S depth) ch id.
Proof.
  induction depth as [|d IH]; intros id q x Hq Hx.
  - simpl in Hq. apply list_elem_of_singleton in Hq as ->.
    apply (subtree_in_child 0 ch id x); [done|apply subtree_head].
  - apply subtree_inv in Hq as [->|(c & Hc & Hq)].
    + apply (subtree_in_child (S d) ch id x); [done|apply subtree_head].
    + apply (subtree_in_child (S d) ch id c); [done|]. by apply (IH c q).
Qed.

Lemma subtree_mono ch d :
  ∀ n id x, d ≤ n → x ∈ tree.subtree d ch id → x ∈ tree.subtree n ch id.
Proof.
  induction d as [|d IH]; intros n id x Hle Hx.
  - simpl in Hx. apply list_elem_of_singleton in Hx as ->. apply subtree_head.
  - destruct n as [|n]; [lia|].
    apply subtree_inv in Hx as [->|(c & Hc & Hx)]; [apply subtree_head|].
    apply (subtree_in_child n ch id c); [done|]. apply IH; [lia|done].
Qed.

(** With a depth for every key, a key of the subtree is found at the
    level that its depth gives. *)
Lemma subtree_level ch (depth : string → nat) :
  (∀ q c, c ∈ default [] (ch !! q) → depth c = S (depth q)) →
  ∀ n id x, x ∈ tree.subtree n ch id →
            depth id ≤ depth x ∧ x ∈ tree.subtree (depth x - depth id) ch id.
Proof.
  intros Hch. induction n as [|n IH]; intros id x Hx.
  - simpl in Hx. apply list_elem_of_singleton in Hx as ->.
    split; [done|]. apply subtree_head.
  - apply subtree_inv in Hx as [->|(c & Hc & Hx)]; [split; [done|apply subtree_head]|].
    destruct (IH c x Hx) as [Hle Hin]. pose proof (Hch id c Hc) as Hd.
    split; [lia|].
    replace (depth x - depth id) with (S (depth x - depth c)) by lia.
    by apply (subtree_in_child _ ch id c).
Qed.

(** The keys from a node up to the root are distinct nodes, so the depth
    of a node below the root is less than the number of nodes. *)
Lemma WF_depth_bound t (depth : string → nat) :
  WF t → (∀ k pp, tree.parent t !! k = Some pp → depth k = S (depth pp)) →
  ∀ k, is_Some (tree.Node t k) →
       depth "/" ≤ depth k ∧ depth k - depth "/" < tree.Length t.
Proof.
  intros [HK HR HP HL HC _] HD.
  assert (Hchain : ∀ n k, depth k = n → is_Some (tree.Node t k) →
            depth "/" ≤ depth k
            ∧ ∃ l : list string,
                NoDup l ∧ length l = S (depth k - depth "/")
                ∧ ∀ y, y ∈ l → is_Some (tree.Node t y) ∧ depth y ≤ depth k).
  { induction n as [|n IH]; intros k Hn Hk.
    - destruct (decide (k = "/")) as [->|Hne].
      + split; [done|]. exists ["/"]. split; [apply NoDup_singleton|].
        split; [simpl; lia|]. intros y ->%list_elem_of_singleton. done.
      + destruct (HP k Hk Hne) as (pp & _ & Hp). apply HD in Hp. lia.
    - destruct (decide (k = "/")) as [->|Hne].
      + split; [done|]. exists ["/"]. split; [apply NoDup_singleton|].
        split; [simpl; lia|]. intros y ->%list_elem_of_singleton. done.
      + destruct (HP k Hk Hne) as (pp & _ & Hp). pose proof (HD _ _ Hp) as Hd.
        destruct (HL _ _ Hp) as [_ Hpn].
        destruct (IH pp ltac:(lia) Hpn) as (Hle & l & Hnd & Hlen & Hl).
        split; [lia|]. exists (k :: l). split; [|split].
        * apply NoDup_cons. split; [|done]. intros Hin. apply Hl in Hin. lia.
        * simpl. rewrite Hlen. lia.
        * intros y [->|Hy]%elem_of_cons; [done|]. destruct (Hl y Hy). split; [done|lia]. }
  intros k Hk. destruct (Hchain _ k eq_refl Hk) as (Hle & l & Hnd & Hlen & Hl).
  split; [done|].
  assert (Hsub : l ⊆+ elements (dom (tree.nodes t))).
  { apply NoDup_submseteq; [done|]. intros y Hy.
    apply elem_of_elements, elem_of_dom. by apply Hl. }
  apply submseteq_length in Hsub. unfold tree.Length.
  rewrite <- (size_dom (tree.nodes t)). unfold size, set_size. simpl. lia.
Qed.

(** In a well-shaped tree the subtree computed by [RemoveNode] has every
    descendant. *)
Lemma subtree_closed t id q x :
  WF t → is_Some (tree.Node t id) →
  q ∈ tree.subtree (tree.Length t) (tree.children t) id →
  x ∈ tree.ChildIDs t q →
  x ∈ tree.subtree (tree.Length t) (tree.children t) id.
Proof.
  intros Hwf Hid Hq Hx. pose proof Hwf as [HK HR HP HL HC [depth HD]].
  assert (Hch : ∀ q c, c ∈ default [] (tree.children t !! q) → depth c = S (depth q)).
  { intros q0 c Hc. apply HD. by apply HC. }
  pose proof (subtree_step _ _ _ _ _ Hq Hx) as Hs.
  destruct (subtree_level _ depth Hch _ _ _ Hs) as [Hle Hlev].
  assert (Hxn : is_Some (tree.Node t x)) by (apply HC in Hx; apply (HL _ _ Hx)).
  destruct (WF_depth_bound t depth Hwf HD x Hxn) as [_ Hb].
  destruct (WF_depth_bound t depth Hwf HD id Hid) as [Hr _].
  apply (subtree_mono _ (depth x - depth id)); [lia|done].
Qed.

(** *** Removal keeps the shape *)

Lemma RemoveNode_tree t n t' cnt :
  tree.RemoveNode t n = inr (t', cnt) →
  let gone := tree.subtree (tree.Length t) (tree.children t) (ID n) in
  let ch := match tree.parent t !! ID n with
            | Some pid => alter (filter (λ k, k ≠ ID n)) pid (tree.children t)
            | None => tree.children t
            end in
  tree.root t ≠ Some (ID n) ∧ is_Some (tree.Node t (ID n))
  ∧ t' = tree.mkTree (tree.delete_all gone (tree.nodes t)) (tree.delete_all gone ch)
                     (tree.delete_all gone (tree.parent t)) (tree.root t).
Proof.
  unfold tree.RemoveNode. case_bool_decide as Hroot; [done|].
  destruct (tree.HasNode t (ID n)) eqn:Eh; simpl; [|done].
  intros [= <- _]. by apply HasNode_true in Eh.
Qed.

(** The children left to a node when [id] is detached from its parent. *)
Lemma detached_children t id q k :
  WF t →
  k ∈ default [] (match tree.parent t !! id with
                  | Some pid => alter (filter (λ k, k ≠ id)) pid (tree.children t)
                  | None => tree.children t
                  end !! q)
  ↔ k ∈ tree.ChildIDs t q ∧ k ≠ id.
Proof.
  intros [HK HR HP HL HC _]. unfold tree.ChildIDs in *.
  destruct (tree.parent t !! id) as [pid|] eqn:Epid.
  - destruct (decide (pid = q)) as [<-|Hne].
    + rewrite lookup_alter_eq. destruct (tree.children t !! pid) as [l|]; simpl.
      * rewrite list_elem_of_filter. tauto.
      * split; [by intros ?%elem_of_nil|by intros [?%elem_of_nil _]].
    + rewrite lookup_alter_ne by done. split; [|tauto].
      intros Hk. split; [done|]. intros ->. apply HC in Hk. congruence.
  - split; [|tauto]. intros Hk. split; [done|]. intros ->. apply HC in Hk. congruence.
Qed.

Lemma WF_RemoveNode t n t' cnt :
  WF t → tree.RemoveNode t n = inr (t', cnt) → WF t'.
Proof.
  intros Hwf HR0. pose proof Hwf as [HK HR HP HL HC [depth HD]].
  apply RemoveNode_tree in HR0 as (Hnr & Hid & ->).
  set (id := ID n) in *.
  set (gone := tree.subtree (tree.Length t) (tree.children t) id).
  destruct HR as (Hroot & Hrn & Hrp).
  assert (G1 : id ∈ gone) by apply subtree_head.
  assert (G2 : ∀ q x, q ∈ gone → x ∈ tree.ChildIDs t q → x ∈ gone).
  { intros q x. by apply subtree_closed. }
  assert (G3 : ∀ x, x ∈ gone → x = id ∨ ∃ q, q ∈ gone ∧ x ∈ tree.ChildIDs t q).
  { intros x. apply subtree_parent. }
  assert (G4 : "/" ∉ gone).
  { intros [E|(q & _ & Hq)]%G3.
    - apply Hnr. by rewrite Hroot, E.
    - apply HC in Hq. congruence. }
  assert (Hup : ∀ k pp, tree.parent t !! k = Some pp → k ∉ gone → pp ∉ gone).
  { intros k pp Hp Hk Hpp. apply Hk, (G2 pp); [done|]. by apply HC. }
  split; simpl.
  - intros k m. unfold tree.Node. simpl. rewrite delete_all_lookup.
    destruct (decide (k ∈ gone)); [done|]. apply HK.
  - unfold tree.Node. simpl. rewrite !delete_all_lookup.
    destruct (decide ("/" ∈ gone)); [done|]. by repeat split.
  - intros k Hk Hkr. unfold tree.Node in Hk. simpl in Hk.
    rewrite delete_all_lookup in Hk. rewrite delete_all_lookup.
    destruct (decide (k ∈ gone)); [by destruct Hk|]. by apply HP.
  - intros k pp. unfold tree.Node. simpl. rewrite !delete_all_lookup.
    destruct (decide (k ∈ gone)) as [|Hk]; [done|]. intros Hp.
    destruct (HL _ _ Hp). rewrite decide_False; [done|]. by apply (Hup k).
  - intros k pp. unfold tree.ChildIDs. simpl. rewrite !delete_all_lookup. split.
    + destruct (decide (k ∈ gone)) as [|Hk]; [done|]. intros Hp.
      rewrite decide_False by (by apply (Hup k)).
      apply detached_children; [done|]. split; [by apply HC|]. by intros ->.
    + destruct (decide (pp ∈ gone)) as [|Hpp]; [by intros ?%elem_of_nil|].
      intros [Hk Hne]%detached_children; [|done].
      rewrite decide_False; [by apply HC|].
      intros [->|(q & Hq & Hkq)]%G3; [done|].
      apply HC in Hk, Hkq. congruence.
  - exists depth. intros k pp. rewrite delete_all_lookup.
    destruct (decide (k ∈ gone)); [done|]. apply HD.
Qed.

Lemma WF_RemovePath fuel t p e t' :
  WF t → RemovePath fuel t p = Some (e, t') → WF t'.
Proof.
  intros Hwf. unfold RemovePath. destruct (String.eqb (Normalize p) "/"); [by intros [= _ <-]|].
  destruct (node fuel t p _) as [[[cp [fn|]] [err|]]|]; try (by intros [= _ <-]).
  destruct (tree.RemoveNode t fn) as [err|[t1 cnt]] eqn:ER; [by intros [= _ <-]|].
  intros [= _ <-]. by apply (WF_RemoveNode t fn t1 cnt).
Qed.

Lemma WF_removeNodes children : ∀ t e t', WF t → removeNodes t children = (e, t') → WF t'.
Proof.
  induction children as [|c rest IH]; intros t e t' Hwf; simpl; [by intros [= _ <-]|].
  destruct (tree.RemoveNode t c) as [err|[t1 cnt]] eqn:ER; [by intros [= _ <-]|].
  apply IH. by apply (WF_RemoveNode t c t1 cnt).
Qed.

Lemma WF_RemoveChildPaths fuel t p e t' :
  WF t → RemoveChildPaths fuel t p = Some (e, t') → WF t'.
Proof.
  intros Hwf. unfold RemoveChildPaths.
  destruct (node fuel t p _) as [[[cp [fn|]] [err|]]|]; try (by intros [= _ <-]).
  intros [= H]. by apply (WF_removeNodes _ _ _ _ Hwf H).
Qed.

Lemma reachable_WF t : reachable t → WF t.
Proof.
  induction 1.
  - apply WF_NewFileTree.
  - by apply WF_AddFile.
  - by apply WF_AddDir.
  - by apply WF_AddSymLink.
  - by apply WF_AddHardLink.
  - by apply (WF_RemovePath fuel t p e).
  - by apply (WF_RemoveChildPaths fuel t p e).
Qed.

End Shape.

(** ** [RemovePath], in a well-shaped tree *)

Section RemovePathShape.

Lemma subtree_nodes t id x :
  WF t → is_Some (tree.Node t id) →
  x ∈ tree.subtree (tree.Length t) (tree.children t) id → is_Some (tree.Node t x).
Proof.
  intros [HK HR HP HL HC _] Hid Hx.
  apply subtree_parent in Hx as [->|(q & _ & Hq)]; [done|].
  apply HC in Hq. apply (HL _ _ Hq).
Qed.

Lemma RemovePath_subtree fuel t p cp fn :
  WF t → Normalize p ≠ "/" →
  node fuel t p (mkStrategy true false false) = Some (cp, Some fn, None) →
  tree.Node t cp = Some fn
  ∧ ∃ t', RemovePath fuel t p = Some (None, t')
          ∧ WF t'
          ∧ tree.Node t' cp = None
          ∧ (∀ q x, is_Some (tree.Node t q) → tree.Node t' q = None →
                    x ∈ tree.ChildIDs t q → tree.Node t' x = None)
          ∧ (∀ k, is_Some (tree.Node t k) → tree.Node t' k = None →
                  k = cp ∨ ∃ q, is_Some (tree.Node t q) ∧ tree.Node t' q = None
                                ∧ k ∈ tree.ChildIDs t q)
          ∧ ∀ k, tree.Node t' k
                 = if decide (k ∈ tree.subtree (tree.Length t) (tree.children t) cp)
                   then None else tree.Node t k.
Proof.
  intros Hwf Hne Hn.
  destruct (RemovePath_found fuel t p cp fn (wf_keyed t Hwf) (proj1 (wf_root t Hwf)) Hne Hn)
    as (Hfound & t' & HR & Hl).
  assert (Hcp : is_Some (tree.Node t cp)) by (by eexists).
  assert (Hgone : ∀ k, is_Some (tree.Node t k) →
            (tree.Node t' k = None
             ↔ k ∈ tree.subtree (tree.Length t) (tree.children t) cp)).
  { intros k [m Hk]. rewrite Hl. destruct (decide _); [done|]. by rewrite Hk. }
  split; [done|]. exists t'. split; [done|].
  split; [by apply (WF_RemovePath fuel t p None)|].
  split; [rewrite Hl; rewrite decide_True; [done|apply subtree_head]|].
  split; [|split; [|done]].
  - intros q x Hq Hq' Hx. rewrite Hl. rewrite decide_True; [done|].
    apply (subtree_closed t cp q x); [done|done| |done]. by apply Hgone.
  - intros k Hk Hk'. apply Hgone in Hk'; [|done].
    apply subtree_parent in Hk' as [->|(q & Hq & Hkq)]; [by left|]. right.
    assert (Hqn : is_Some (tree.Node t q)) by (by apply (subtree_nodes t cp)).
    exists q. split; [done|]. split; [by apply Hgone|done].
Qed.

End RemovePathShape.

(** C7: [RemovePath] returns [ErrRemovingRoot] when the path normalizes to
    [/]; when the path resolves to no node it returns no error and the
    same tree; otherwise the path is resolved through the links of its
    ancestors only, and the node stored at the resolved path (a link
    itself when the path names a link) is removed with the subtree below
    it: the children of every removed node are removed, only such nodes
    are removed, and the tree keeps its shape.  In a tree with [/link]
    pointing to [/target], removing [/link] keeps [/target] and
    [/target/x]; removing [/target] removes [/target/x] and keeps the
    link. *)
Theorem RemovePath_cases :
  (∀ fuel t p, Normalize p = "/" → RemovePath fuel t p = Some (Some ErrRemovingRoot, t))
  ∧ (∀ fuel t p cp,
       Normalize p ≠ "/" →
       node fuel t p (mkStrategy true false false) = Some (cp, None, None) →
       RemovePath fuel t p = Some (None, t))
  ∧ (∀ fuel t p cp fn,
       WF t → Normalize p ≠ "/" →
       node fuel t p (mkStrategy true false false) = Some (cp, Some fn, None) →
       tree.Node t cp = Some fn
       ∧ node fuel t p (mkStrategy true false false) = resolveAncestorLinks fuel t p
       ∧ ∃ t', RemovePath fuel t p = Some (None, t')
               ∧ WF t'
               ∧ tree.Node t' cp = None
               ∧ (∀ q x, is_Some (tree.Node t q) → tree.Node t' q = None →
                         x ∈ tree.ChildIDs t q → tree.Node t' x = None)
               ∧ (∀ k, is_Some (tree.Node t k) → tree.Node t' k = None →
                       k = cp ∨ ∃ q, is_Some (tree.Node t q) ∧ tree.Node t' q = None
                                     ∧ k ∈ tree.ChildIDs t q)
               ∧ ∀ k, tree.Node t' k
                      = if decide (k ∈ tree.subtree (tree.Length t) (tree.children t) cp)
                        then None else tree.Node t k)
  ∧ (let t := linkAndTarget in
     (∃ t', RemovePath 1 t "/link" = Some (None, t')
            ∧ tree.Node t' "/link" = None
            ∧ tree.HasNode t' "/target" = true
            ∧ tree.HasNode t' "/target/x" = true)
     ∧ (∃ t', RemovePath 1 t "/target" = Some (None, t')
              ∧ tree.Node t' "/target" = None
              ∧ tree.Node t' "/target/x" = None
              ∧ tree.HasNode t' "/link" = true)
     ∧ RemovePath 1 t "/absent" = Some (None, t)
     ∧ RemovePath 1 t "/target/.." = Some (Some ErrRemovingRoot, t)).
Proof.
  split; [apply RemovePath_root|]. split; [apply RemovePath_absent|]. split.
  - intros fuel t p cp fn Hwf Hne Hn.
    destruct (RemovePath_subtree _ _ _ _ _ Hwf Hne Hn) as (Hfound & t' & H).
    split; [done|]. split; [apply node_ancestors_only|]. by exists t'.
  - split; [|split; [|split]].
    + eexists. split; [by vm_compute|]. repeat split; by vm_compute.
    + eexists. split; [by vm_compute|]. repeat split; by vm_compute.
    + by vm_compute.
    + by vm_compute.
Qed.

Lemma RemovePath_cases_witness :
  let t := addedTree (AddSymLink (addedTree (AddFile NewFileTree 0 "/target/x")) 1
                                 "/link" "/target") in
  let link := NewSymLink "/link" "/target" (Some (fileref.mkReference 1 "/link")) in
  Normalize "/a/.." = "/"
  ∧ RemovePath 0 t "/a/.." = Some (Some ErrRemovingRoot, t)
  ∧ Normalize "/absent" ≠ "/"
  ∧ node 0 t "/absent" (mkStrategy true false false) = Some ("/absent", None, None)
  ∧ RemovePath 0 t "/absent" = Some (None, t)
  ∧ WF t ∧ Normalize "/link" ≠ "/"
  ∧ node 0 t "/link" (mkStrategy true false false) = Some ("/link", Some link, None)
  ∧ tree.Node t "/link" = Some link
  ∧ ∃ t', RemovePath 0 t "/link" = Some (None, t') ∧ tree.Node t' "/link" = None.
Proof.
  intros t link.
  assert (H1 : Normalize "/a/.." = "/") by (vm_compute; reflexivity).
  assert (H2 : Normalize "/absent" ≠ "/") by (vm_compute; discriminate).
  assert (H3 : node 0 t "/absent" (mkStrategy true false false) = Some ("/absent", None, None))
    by (vm_compute; reflexivity).
  assert (H4 : WF t)
    by (apply reachable_WF, reach_AddSymLink, reach_AddFile, reach_NewFileTree).
  assert (H6 : Normalize "/link" ≠ "/") by (vm_compute; discriminate).
  assert (H7 : node 0 t "/link" (mkStrategy true false false) = Some ("/link", Some link, None))
    by (vm_compute; reflexivity).
  split; [exact H1|].
  split; [exact (proj1 RemovePath_cases 0 t "/a/.." H1)|].
  split; [exact H2|]. split; [exact H3|].
  split; [exact (proj1 (proj2 RemovePath_cases) 0 t "/absent" "/absent" H2 H3)|].
  split; [exact H4|]. split; [exact H6|]. split; [exact H7|].
  destruct (proj1 (proj2 (proj2 RemovePath_cases)) 0 t "/link" "/link" link H4 H6 H7)
    as (Hfound & _ & t' & HR & _ & Hgone & _).
  split; [exact Hfound|]. exists t'. split; [exact HR|exact Hgone].
Defined.

(** ** Parents *)

Section Parents.

Lemma addDirs_nodes paths :
  ∀ t t', addDirs t paths = (None, t') →
          ∀ k n, tree.Node t' k = Some n → tree.Node t k = Some n ∨ n = NewDir k None.
Proof.
  induction paths as [|p rest IH]; intros t t'; simpl.
  - intros [= <-] k n H. by left.
  - destruct (setFileNode t (NewDir p None)) as [[err|] t1] eqn:ES; [done|].
    intros Hrest k n Hk. destruct (IH _ _ Hrest k n Hk) as [H1|H1]; [|by right].
    apply setFileNode_lookup in ES as [Hp Hother]. simpl in Hp, Hother.
    destruct (decide (k = p)) as [->|Hne].
    + right. congruence.
    + left. by rewrite <- (Hother k Hne).
Qed.

(** The nodes that [addParentPaths] creates are directories without
    reference. *)
Lemma addParentPaths_nodes t p t' :
  addParentPaths t p = (None, t') →
  ∀ k n, tree.Node t' k = Some n → tree.Node t k = Some n ∨ n = NewDir k None.
Proof.
  unfold addParentPaths, nodeDirect. destruct (ParentPath p); [|done].
  destruct (tree.Node t _); [intros [= <-] k n H; by left|]. apply addDirs_nodes.
Qed.

Lemma WF_parent_node t :
  WF t →
  tree.HasNode t "/" = true
  ∧ ∀ k n, tree.Node t k = Some n → k ≠ "/" →
           ∃ pp pn, RealPath n = k
                    ∧ ParentPath (RealPath n) = Some pp
                    ∧ tree.Node t pp = Some pn
                    ∧ RealPath pn = pp
                    ∧ tree.parent t !! k = Some pp
                    ∧ k ∈ tree.ChildIDs t pp.
Proof.
  intros [HK (Hroot & Hrn & Hrp) HP HL HC _]. split; [by apply HasNode_true|].
  intros k n Hn Hk. destruct (HP k ltac:(by eexists) Hk) as (pp & Hpp & Hp).
  destruct (HL _ _ Hp) as [_ [pn Hpn]]. exists pp, pn.
  rewrite (HK _ _ Hn). repeat split; try done; [by apply (HK pp)|by apply HC].
Qed.

End Parents.

(** C5, as stated, fails: after [AddFile /a] and [AddFile /a/b], both
    successful, the parent of [/a/b] is the regular file [/a], not a
    directory. *)
Lemma parent_may_be_regular_file :
  let a1 := AddFile NewFileTree 0 "/a" in
  let a2 := AddFile (addedTree a1) (addedNextID a1) "/a/b" in
  addedErr a1 = None ∧ addedErr a2 = None
  ∧ ∃ n pn, tree.Node (addedTree a2) "/a/b" = Some n
            ∧ RealPath n ≠ "/"
            ∧ ParentPath (RealPath n) = Some "/a"
            ∧ tree.Node (addedTree a2) "/a" = Some pn
            ∧ FileType pn = fileref.TypeReg
            ∧ FileType pn ≠ fileref.TypeDir.
Proof.
  split; [by vm_compute|]. split; [by vm_compute|].
  exists (NewFile "/a/b" (Some (fileref.mkReference 1 "/a/b"))),
         (NewFile "/a" (Some (fileref.mkReference 0 "/a"))).
  repeat split; by vm_compute.
Qed.

(** C5, amended: in every tree that the mutation calls ([AddFile],
    [AddDir], [AddSymLink], [AddHardLink], [RemovePath],
    [RemoveChildPaths]) produce from the empty tree, the root is present,
    and every other node is kept under its real path and has a parent
    node: the node at the parent path of its real path, to which it is
    linked as a child.  The kind of the parent is not checked: the parents
    that [addParentPaths] creates are directories without reference, a
    parent that was already there keeps its kind. *)
Theorem parent_of_every_node :
  (∀ t, reachable t →
     tree.HasNode t "/" = true
     ∧ ∀ k n, tree.Node t k = Some n → k ≠ "/" →
              ∃ pp pn, RealPath n = k
                       ∧ ParentPath (RealPath n) = Some pp
                       ∧ tree.Node t pp = Some pn
                       ∧ RealPath pn = pp
                       ∧ tree.parent t !! k = Some pp
                       ∧ k ∈ tree.ChildIDs t pp)
  ∧ (∀ t p t', addParentPaths t p = (None, t') →
       ∀ k n, tree.Node t' k = Some n → tree.Node t k = Some n ∨ n = NewDir k None).
Proof.
  split.
  - intros t Hr. by apply WF_parent_node, reachable_WF.
  - apply addParentPaths_nodes.
Qed.

Lemma parent_of_every_node_witness :
  let t := addedTree (AddFile (addedTree (AddFile NewFileTree 0 "/a")) 1 "/a/b") in
  let n := NewFile "/a/b" (Some (fileref.mkReference 1 "/a/b")) in
  reachable t
  ∧ tree.Node t "/a/b" = Some n
  ∧ "/a/b" ≠ "/"
  ∧ ∃ pp pn, RealPath n = "/a/b"
             ∧ ParentPath (RealPath n) = Some pp
             ∧ tree.Node t pp = Some pn
             ∧ RealPath pn = pp
             ∧ tree.parent t !! "/a/b" = Some pp
             ∧ "/a/b" ∈ tree.ChildIDs t pp.
Proof.
  intros t n.
  assert (Hr : reachable t) by (apply reach_AddFile, reach_AddFile, reach_NewFileTree).
  assert (Hn : tree.Node t "/a/b" = Some n) by (vm_compute; reflexivity).
  assert (Hk : "/a/b" ≠ "/") by discriminate.
  split; [exact Hr|]. split; [exact Hn|]. split; [exact Hk|].
  exact (proj2 (proj1 parent_of_every_node t Hr) "/a/b" n Hn Hk).
Defined.

(** * Further properties of the code *)

(** ** What an [Add*] call leaves alone *)

Section AddKeeps.

Lemma setFileNode_other t fn e t' k :
  setFileNode t fn = (e, t') → k ≠ RealPath fn → tree.Node t' k = tree.Node t k.
Proof.
  intros H Hk. destruct e as [err|].
  - assert (t' = t) as ->; [|done].
    revert H. unfold setFileNode, nodeDirect, stored.
    destruct (tree.Node t (IDByPath (RealPath fn))).
    + destruct (tree.Replace t _ fn); by intros [= _ <-].
    + destruct (ParentPath (RealPath fn)); [|by intros [= _ <-]].
      destruct (tree.Node t _); [|by intros [= _ <-]].
      destruct (tree.AddChild t _ fn); by intros [= _ <-].
  - by apply (setFileNode_lookup t fn t').
Qed.

Lemma addDirs_other paths :
  ∀ t e t' k, addDirs t paths = (e, t') → k ∉ paths → tree.Node t' k = tree.Node t k.
Proof.
  induction paths as [|p rest IH]; intros t e t' k; simpl; [by intros [= _ <-]|].
  intros H [Hkp Hk]%not_elem_of_cons.
  destruct (setFileNode t (NewDir p None)) as [[err|] t1] eqn:ES.
  - injection H as _ <-. by apply (setFileNode_other _ _ _ _ _ ES).
  - rewrite (IH _ _ _ _ H Hk). by apply (setFileNode_other _ _ _ _ _ ES).
Qed.

Lemma pathsToAdd_absent t l x : x ∈ pathsToAdd t l → tree.Node t x = None.
Proof.
  induction l as [|p rest IH]; simpl; [by intros ?%elem_of_nil|].
  unfold IDByPath. destruct (tree.Node t p) eqn:E; [by intros ?%elem_of_nil|].
  intros [->|H]%elem_of_cons; [done|by apply IH].
Qed.

Lemma addParentPaths_keeps t p e t' k n :
  addParentPaths t p = (e, t') → tree.Node t k = Some n → tree.Node t' k = Some n.
Proof.
  unfold addParentPaths, nodeDirect. intros H Hk.
  destruct (ParentPath p); [|by injection H as _ <-].
  destruct (tree.Node t _); [by injection H as _ <-|].
  rewrite (addDirs_other _ _ _ _ k H); [done|].
  intros Hin. apply list_elem_of_In, in_rev, list_elem_of_In, pathsToAdd_absent in Hin.
  congruence.
Qed.

(** The four calls share the proof. *)
Ltac add_keeps_others t p :=
  let Hk := fresh "Hk" in let Hne := fresh "Hne" in
  let fn := fresh "fn" in let E := fresh "E" in
  let e := fresh "e" in let t1 := fresh "t1" in let EP := fresh "EP" in
  intros Hk Hne;
  unfold AddFile, AddDir, AddSymLink, AddHardLink, nodeDirect, IDByPath, addedTree;
  destruct (tree.Node t p) as [fn|] eqn:E;
  [ case_bool_decide; simpl; [|done];
    destruct (Reference fn); simpl; [done|];
    unfold assignReference, tree.Node; simpl; by rewrite lookup_insert_ne
  | destruct (addParentPaths t p) as [e t1] eqn:EP;
    apply (addParentPaths_keeps _ _ _ _ _ _ EP) in Hk; destruct e; simpl; [done|];
    match goal with
    | |- context [setFileNode ?t' ?fn'] =>
        let e2 := fresh "e" in let t2 := fresh "t2" in let ES := fresh "ES" in
        destruct (setFileNode t' fn') as [e2 t2] eqn:ES; simpl;
        by rewrite (setFileNode_other _ _ _ _ _ ES)
    end ].

Lemma AddFile_keeps t nextID p k n :
  tree.Node t k = Some n → k ≠ p → tree.Node (addedTree (AddFile t nextID p)) k = Some n.
Proof. add_keeps_others t p. Qed.

Lemma AddDir_keeps t nextID p k n :
  tree.Node t k = Some n → k ≠ p → tree.Node (addedTree (AddDir t nextID p)) k = Some n.
Proof. add_keeps_others t p. Qed.

Lemma AddSymLink_keeps t nextID p target k n :
  tree.Node t k = Some n → k ≠ p →
  tree.Node (addedTree (AddSymLink t nextID p target)) k = Some n.
Proof. add_keeps_others t p. Qed.

Lemma AddHardLink_keeps t nextID p target k n :
  tree.Node t k = Some n → k ≠ p →
  tree.Node (addedTree (AddHardLink t nextID p target)) k = Some n.
Proof. add_keeps_others t p. Qed.

End AddKeeps.

Section AddKeepsOwn.

Ltac add_keeps_own t p :=
  let fn := fresh "fn" in let E := fresh "E" in let n := fresh "n" in
  intros [n E];
  unfold AddFile, AddDir, AddSymLink, AddHardLink, nodeDirect, IDByPath, addedTree;
  rewrite E; case_bool_decide; simpl; [|by eexists];
  destruct (Reference n); simpl; [by eexists|];
  unfold assignReference, tree.Node; simpl; rewrite lookup_insert_eq; by eexists.

Lemma AddFile_keeps_own t nextID p :
  is_Some (tree.Node t p) → is_Some (tree.Node (addedTree (AddFile t nextID p)) p).
Proof. add_keeps_own t p. Qed.

Lemma AddDir_keeps_own t nextID p :
  is_Some (tree.Node t p) → is_Some (tree.Node (addedTree (AddDir t nextID p)) p).
Proof. add_keeps_own t p. Qed.

Lemma AddSymLink_keeps_own t nextID p target :
  is_Some (tree.Node t p) → is_Some (tree.Node (addedTree (AddSymLink t nextID p target)) p).
Proof. add_keeps_own t p. Qed.

Lemma AddHardLink_keeps_own t nextID p target :
  is_Some (tree.Node t p) → is_Some (tree.Node (addedTree (AddHardLink t nextID p target)) p).
Proof. add_keeps_own t p. Qed.

End AddKeepsOwn.

(** X1: an [Add*] call, whether it succeeds or fails, never removes a node
    and never changes the node of another path: every node of the tree
    before the call is still present, and unchanged when its path is not
    the path of the call. *)
Theorem add_keeps_existing_nodes t nextID p target t' :
  t' ∈ [addedTree (AddFile t nextID p); addedTree (AddDir t nextID p);
        addedTree (AddSymLink t nextID p target);
        addedTree (AddHardLink t nextID p target)] →
  ∀ k n, tree.Node t k = Some n →
         is_Some (tree.Node t' k) ∧ (k ≠ p → tree.Node t' k = Some n).
Proof.
  intros Hin k n Hk.
  assert (Hown : k = p → is_Some (tree.Node t' k)).
  { intros ->. assert (Hp : is_Some (tree.Node t p)) by (by eexists).
    repeat (apply elem_of_cons in Hin as [->|Hin]);
      [by apply AddFile_keeps_own|by apply AddDir_keeps_own
      |by apply AddSymLink_keeps_own|by apply AddHardLink_keeps_own
      |by apply elem_of_nil in Hin]. }
  assert (Hother : k ≠ p → tree.Node t' k = Some n).
  { intros Hne.
    repeat (apply elem_of_cons in Hin as [->|Hin]);
      [by apply AddFile_keeps|by apply AddDir_keeps
      |by apply AddSymLink_keeps|by apply AddHardLink_keeps
      |by apply elem_of_nil in Hin]. }
  split; [|done]. destruct (decide (k = p)) as [E|Hne]; [by apply Hown|].
  rewrite (Hother Hne). by eexists.
Qed.

Lemma add_keeps_existing_nodes_witness :
  let t := build [CallAddFile "/a/b"] in
  let t' := addedTree (AddDir t 1 "/a/b") in
  t' ∈ [addedTree (AddFile t 1 "/a/b"); addedTree (AddDir t 1 "/a/b");
        addedTree (AddSymLink t 1 "/a/b" "/x");
        addedTree (AddHardLink t 1 "/a/b" "/x")]
  ∧ tree.Node t "/a" = Some (NewDir "/a" None)
  ∧ is_Some (tree.Node t' "/a")
  ∧ ("/a" ≠ "/a/b" → tree.Node t' "/a" = Some (NewDir "/a" None)).
Proof.
  intros t t'.
  assert (Hin : t' ∈ [addedTree (AddFile t 1 "/a/b"); addedTree (AddDir t 1 "/a/b");
                      addedTree (AddSymLink t 1 "/a/b" "/x");
                      addedTree (AddHardLink t 1 "/a/b" "/x")])
    by (apply list_elem_of_further, list_elem_of_here).
  assert (Hk : tree.Node t "/a" = Some (NewDir "/a" None)) by (vm_compute; reflexivity).
  split; [exact Hin|]. split; [exact Hk|].
  exact (add_keeps_existing_nodes t 1 "/a/b" "/x" t' Hin "/a" _ Hk).
Defined.

(** ** [merge] keeps the shape of the lower tree *)

Section WalkInvariant.
Context {St : Type}.
Variable P : St → Prop.
Variable t : tree.Tree.
Variable visitor : FileNode → St → option (option error * St).
Variables ShouldContinueBranch ShouldVisit : FileNode → bool.
Hypothesis Hvisit : ∀ n st e st', P st → visitor n st = Some (e, st') → P st'.

Lemma walk_children_preserves (walk : string → St → option (option error * St)) :
  (∀ id st e st', P st → walk id st = Some (e, st') → P st') →
  ∀ ids acc e st',
    (∀ e0 st0, acc = Some (e0, st0) → P st0) →
    fold_left (λ acc id, match acc with
                         | Some (None, st') => walk id st'
                         | stopped => stopped
                         end) ids acc = Some (e, st') →
    P st'.
Proof.
  intros Hwalk. induction ids as [|id ids IH]; intros acc e st' Hacc; simpl.
  - intros ->. by apply (Hacc e).
  - apply IH. intros e0 st0. destruct acc as [[[err|] st1]|]; [|by apply Hwalk, (Hacc None)|done].
    intros [= <- <-]. by apply (Hacc (Some err)).
Qed.

Lemma Walk_preserves depth :
  ∀ id st e st', P st →
                 walker.Walk t visitor ShouldContinueBranch ShouldVisit depth id st
                 = Some (e, st') →
                 P st'.
Proof.
  induction depth as [|d IH]; intros id st e st' Hst; simpl;
    (destruct (tree.Node t id) as [n|]; [|by intros [= _ <-]]);
    unfold walker.visit;
    (destruct (ShouldVisit n);
     [destruct (visitor n st) as [[[err|] st1]|] eqn:Ev;
      [intros [= _ <-]; by apply (Hvisit n st (Some err))| |done];
      pose proof (Hvisit n st None st1 Hst Ev) as Hst1
     |pose proof Hst as Hst1; set (st1 := st)]);
    (destruct (ShouldContinueBranch n); [|by intros [= _ <-]]).
  - by intros [= _ <-].
  - by intros [= _ <-].
  - unfold walker.walk_children. apply walk_children_preserves; [apply IH|].
    by intros e0 st0 [= _ <-].
  - unfold walker.walk_children. apply walk_children_preserves; [apply IH|].
    by intros e0 st0 [= _ <-].
Qed.

Lemma WalkAll_preserves st e st' :
  P st → walker.WalkAll t visitor ShouldContinueBranch ShouldVisit st = Some (e, st') → P st'.
Proof.
  intros Hst. unfold walker.WalkAll. destruct (tree.root t); [|by intros [= _ <-]].
  by apply Walk_preserves.
Qed.

End WalkInvariant.

Lemma WF_graft t u e t' : WF t → graft t u = (e, t') → WF t'.
Proof.
  intros Hwf. unfold graft, nodeDirect.
  destruct (tree.Node t (IDByPath (RealPath u))) as [orig|].
  - destruct (setFileNode t _) as [[err|] t2] eqn:ES; intros [= _ <-];
      by apply (WF_setFileNode _ _ _ _ Hwf ES).
  - destruct (addParentPaths t (RealPath u)) as [[err|] t1] eqn:EP.
    + intros [= _ <-]. by apply (WF_addParentPaths _ _ _ _ Hwf EP).
    + apply (WF_addParentPaths _ _ _ _ Hwf) in EP.
      destruct (setFileNode t1 _) as [[err|] t2] eqn:ES; intros [= _ <-];
        by apply (WF_setFileNode _ _ _ _ EP ES).
Qed.

Lemma WF_mergeVisitor fuel upper u t e t' :
  WF t → mergeVisitor fuel upper u t = Some (e, t') → WF t'.
Proof.
  intros Hwf. unfold mergeVisitor.
  assert (Hop : ∀ e1 t1, opaqueStep fuel upper t u = Some (e1, t1) → WF t1).
  { intros e1 t1. unfold opaqueStep.
    destruct (hasOpaqueDirectory fuel upper (RealPath u)) as [[|]|];
      [|by intros [= _ <-]|done].
    destruct (RemoveChildPaths fuel t (RealPath u)) as [[[err|] t2]|] eqn:ER; [| |done];
      intros [= _ <-]; by apply (WF_RemoveChildPaths _ _ _ _ _ Hwf ER). }
  destruct (opaqueStep fuel upper t u) as [[[err|] t1]|] eqn:Eo; [| |done].
  - intros [= _ <-]. by apply (Hop (Some err)).
  - pose proof (Hop None t1 eq_refl) as Hwf1. unfold whiteoutOrGraft.
    destruct (IsWhiteout (RealPath u)).
    + destruct (UnWhiteoutPath (RealPath u)) as [lowerPath|]; [|by intros [= _ <-]].
      destruct (RemovePath fuel t1 lowerPath) as [[[err|] t2]|] eqn:ER; [| |done];
        intros [= _ <-]; by apply (WF_RemovePath _ _ _ _ _ Hwf1 ER).
    + intros [= H]. by apply (WF_graft _ _ _ _ Hwf1 H).
Qed.

(** X2: [merge] keeps the shape of the lower tree, whatever the upper tree
    is and whether the merge succeeds or stops on an error: nodes stay
    under their real path, the root stays, and every other node has its
    parent node. *)
Theorem merge_keeps_shape fuel t upper e t' :
  WF t → merge fuel t upper = Some (e, t') →
  WF t'
  ∧ tree.HasNode t' "/" = true
  ∧ ∀ k n, tree.Node t' k = Some n → k ≠ "/" →
           ∃ pp pn, RealPath n = k ∧ ParentPath k = Some pp ∧ tree.Node t' pp = Some pn.
Proof.
  intros Hwf Hm.
  assert (Hwf' : WF t').
  { revert Hm. unfold merge. apply (WalkAll_preserves WF); [|done].
    intros n st e0 st' Hst. by apply WF_mergeVisitor. }
  split; [done|]. destruct (WF_parent_node t' Hwf') as [Hroot Hpar].
  split; [done|]. intros k n Hk Hne.
  destruct (Hpar k n Hk Hne) as (pp & pn & H1 & H2 & H3 & _).
  exists pp, pn. rewrite H1 in H2. by repeat split.
Qed.

Lemma merge_keeps_shape_witness :
  ∃ merged,
    WF lowerPasswd
    ∧ merge 1 lowerPasswd upperWhiteout = Some (None, merged)
    ∧ WF merged.
Proof.
  assert (Hwf : WF lowerPasswd)
    by (apply reachable_WF, (reach_AddFile NewFileTree 0 "/etc/passwd"), reach_NewFileTree).
  exists (match merge 1 lowerPasswd upperWhiteout with
          | Some (_, m) => m
          | None => lowerPasswd
          end).
  assert (Hm : merge 1 lowerPasswd upperWhiteout
               = Some (None, match merge 1 lowerPasswd upperWhiteout with
                             | Some (_, m) => m
                             | None => lowerPasswd
                             end)) by (vm_compute; reflexivity).
  split; [exact Hwf|]. split; [exact Hm|].
  exact (proj1 (merge_keeps_shape 1 lowerPasswd upperWhiteout None _ Hwf Hm)).
Defined.

(** ** [RemoveChildPaths] *)

Section ChildPaths.

Lemma filter_keeps_all {A} (P : A → Prop) `{∀ x, Decision (P x)} (l : list A) :
  (∀ x, x ∈ l → P x) → filter P l = l.
Proof.
  induction l as [|x l IH]; intros Hall; [done|].
  rewrite filter_cons_True by (apply Hall, list_elem_of_here).
  f_equal. apply IH. intros y Hy. by apply Hall, list_elem_of_further.
Qed.

Lemma filter_keeps_none {A} (P : A → Prop) `{∀ x, Decision (P x)} (l : list A) :
  (∀ x, x ∈ l → ¬ P x) → filter P l = [].
Proof.
  induction l as [|x l IH]; intros Hall; [done|].
  rewrite filter_cons_False by (apply Hall, list_elem_of_here).
  apply IH. intros y Hy. by apply Hall, list_elem_of_further.
Qed.

(** Resolving with both kinds of links followed returns a stored node. *)
Lemma node_follow_found fuel t p cp fn :
  keyed t →
  node fuel t p (mkStrategy true true false) = Some (cp, Some fn, None) →
  tree.Node t cp = Some fn.
Proof.
  intros Hk. unfold node. simpl.
  destruct (resolveAncestorLinks fuel t p) as [[[cp0 cn0] e]|] eqn:Ea; [|done].
  destruct e; [by destruct cn0|]. destruct cn0 as [c|]; [|done].
  apply (resolveAncestorLinks_found t Hk) in Ea.
  unfold resolveNodeLinks. apply (nodeLinksLoop_found t Hk).
  intros c0 [= <-]. by rewrite (Hk _ _ Ea).
Qed.

(** Removing a child of [cp]: [cp] stays, and loses this child only. *)
Lemma RemoveNode_child t c cp t1 cnt :
  WF t → tree.parent t !! ID c = Some cp → tree.RemoveNode t c = inr (t1, cnt) →
  tree.Node t1 cp = tree.Node t cp
  ∧ tree.ChildIDs t1 cp = filter (λ k, k ≠ ID c) (tree.ChildIDs t cp)
  ∧ tree.Node t1 (ID c) = None
  ∧ ∀ k, is_Some (tree.Node t1 k) → tree.parent t1 !! k = tree.parent t !! k.
Proof.
  intros Hwf Hp HR. pose proof Hwf as [HK HR0 HP HL HC [depth HD]].
  pose proof (RemoveNode_lookup t c t1 cnt) as Hl.
  apply RemoveNode_tree in HR as (Hnr & Hid & ->). rewrite Hp.
  set (gone := tree.subtree (tree.Length t) (tree.children t) (ID c)) in *.
  assert (Hcp : cp ∉ gone).
  { intros Hin.
    assert (Hch : ∀ q x, x ∈ default [] (tree.children t !! q) → depth x = S (depth q)).
    { intros q x Hx. apply HD. by apply HC. }
    destruct (subtree_level _ depth Hch _ _ _ Hin) as [Hle _].
    pose proof (HD _ _ Hp). lia. }
  unfold tree.Node, tree.ChildIDs. simpl. rewrite !delete_all_lookup.
  rewrite !decide_False by done. rewrite lookup_alter_eq.
  split; [done|]. split; [by destruct (tree.children t !! cp)|].
  split; [rewrite decide_True; [done|apply subtree_head]|].
  intros k Hk. rewrite delete_all_lookup in Hk. rewrite delete_all_lookup.
  destruct (decide (k ∈ gone)); [by destruct Hk|done].
Qed.

Lemma removeNodes_children cp children :
  ∀ t t', WF t → removeNodes t children = (None, t') →
          (∀ c, c ∈ children → is_Some (tree.Node t (ID c)) →
                tree.parent t !! ID c = Some cp) →
          WF t'
          ∧ tree.Node t' cp = tree.Node t cp
          ∧ tree.ChildIDs t' cp
            = filter (λ k, k ∉ ID <$> children) (tree.ChildIDs t cp)
          ∧ ∀ c, c ∈ children → tree.Node t' (ID c) = None.
Proof.
  induction children as [|c rest IH]; intros t t' Hwf; simpl.
  - intros [= <-] _. split; [done|]. split; [done|]. split.
    + symmetry. apply filter_keeps_all. intros x _. apply not_elem_of_nil.
    + by intros c ?%elem_of_nil.
  - destruct (tree.RemoveNode t c) as [err|[t1 cnt]] eqn:ER; [done|]. intros Hrest Hpar.
    assert (Hc : is_Some (tree.Node t (ID c))) by (apply RemoveNode_inv in ER; apply ER).
    pose proof (Hpar c (list_elem_of_here _ _) Hc) as Hp.
    destruct (RemoveNode_child t c cp t1 cnt Hwf Hp ER) as (Hn1 & Hc1 & Hgone & Hpar1).
    pose proof (WF_RemoveNode _ _ _ _ Hwf ER) as Hwf1.
    destruct (IH t1 t' Hwf1 Hrest) as (Hwf' & Hn & Hch & Hnone).
    { intros c0 Hc0 Hs. rewrite (Hpar1 _ Hs). apply Hpar; [by apply list_elem_of_further|].
      by apply (RemoveNode_only_removes t c t1 cnt). }
    split; [done|]. split; [by rewrite Hn|]. split.
    + rewrite Hch, Hc1. rewrite list_filter_filter. apply list_filter_iff.
      intros x. rewrite not_elem_of_cons. tauto.
    + intros c0 [->|Hc0]%elem_of_cons; [|by apply Hnone].
      destruct (tree.Node t' (ID c)) eqn:E; [|done].
      assert (Hs : is_Some (tree.Node t1 (ID c)))
        by (apply (removeNodes_only_removes rest t1 None t'); [done|by eexists]).
      rewrite Hgone in Hs. by destruct Hs.
Qed.

End ChildPaths.

(** [RemoveChildPaths] on a path that resolves to a node. *)
Lemma RemoveChildPaths_found fuel t p cp fn t' :
  WF t →
  node fuel t p (mkStrategy true true false) = Some (cp, Some fn, None) →
  RemoveChildPaths fuel t p = Some (None, t') →
  WF t'
  ∧ tree.Node t' cp = Some fn
  ∧ tree.ChildIDs t' cp = []
  ∧ ∀ c, c ∈ tree.ChildIDs t cp → tree.Node t' c = None.
Proof.
  intros Hwf Hn HR. pose proof Hwf as [HK HR0 HP HL HC _].
  pose proof (node_follow_found _ _ _ _ _ HK Hn) as Hfn.
  pose proof (HK _ _ Hfn) as Hid.
  unfold RemoveChildPaths in HR. rewrite Hn in HR. injection HR as HR.
  unfold tree.Children, ID, IDByPath in HR. rewrite Hid in HR.
  assert (Hkids : ∀ x, x ∈ tree.ChildIDs t cp →
            ∃ nx, tree.Node t x = Some nx ∧ ID nx = x).
  { intros x Hx. apply HC in Hx. destruct (HL _ _ Hx) as [[nx Hnx] _].
    exists nx. split; [done|]. by apply HK. }
  destruct (removeNodes_children cp _ t t' Hwf HR) as (Hwf' & Hn' & Hch & Hnone).
  { intros c (x & Hx & Hc)%list_elem_of_omap _.
    rewrite (HK _ _ Hc : ID c = x). by apply HC. }
  split; [done|]. split; [by rewrite Hn'|]. split.
  - rewrite Hch. apply filter_keeps_none. intros x Hx Hnot. apply Hnot.
    destruct (Hkids x Hx) as (nx & Hnx & Hidx). apply list_elem_of_fmap.
    exists nx. split; [done|]. apply list_elem_of_omap. by exists x.
  - intros c Hc. destruct (Hkids c Hc) as (nx & Hnx & Hidx). rewrite <- Hidx.
    apply Hnone. apply list_elem_of_omap. by exists c.
Qed.

(** X3: [RemoveChildPaths] on a path that resolves to a node, in a
    well-shaped tree: when it returns without error, the node is kept as it
    was and has no children left, every former child is gone, and the tree
    keeps its shape.  On a path that resolves to no node it changes
    nothing. *)
Theorem RemoveChildPaths_empties :
  (∀ fuel t p cp fn t',
     WF t →
     node fuel t p (mkStrategy true true false) = Some (cp, Some fn, None) →
     RemoveChildPaths fuel t p = Some (None, t') →
     WF t'
     ∧ tree.Node t' cp = Some fn
     ∧ tree.ChildIDs t' cp = []
     ∧ ∀ c, c ∈ tree.ChildIDs t cp → tree.Node t' c = None)
  ∧ (∀ fuel t p cp,
       node fuel t p (mkStrategy true true false) = Some (cp, None, None) →
       RemoveChildPaths fuel t p = Some (None, t)).
Proof.
  split.
  - apply RemoveChildPaths_found.
  - intros fuel t p cp Hn. unfold RemoveChildPaths. by rewrite Hn.
Qed.

Lemma RemoveChildPaths_empties_witness :
  let t := addedTree (AddSymLink (addedTree (AddFile NewFileTree 0 "/target/x")) 1
                                 "/link" "/target") in
  WF t
  ∧ node 2 t "/link" (mkStrategy true true false)
    = Some ("/target", Some (NewDir "/target" None), None)
  ∧ tree.ChildIDs t "/target" = ["/target/x"]
  ∧ ∃ t', RemoveChildPaths 2 t "/link" = Some (None, t')
          ∧ tree.Node t' "/target" = Some (NewDir "/target" None)
          ∧ tree.ChildIDs t' "/target" = []
          ∧ ∀ c, c ∈ tree.ChildIDs t "/target" → tree.Node t' c = None.
Proof.
  intros t.
  assert (Hwf : WF t)
    by (apply reachable_WF, reach_AddSymLink, reach_AddFile, reach_NewFileTree).
  assert (Hn : node 2 t "/link" (mkStrategy true true false)
               = Some ("/target", Some (NewDir "/target" None), None))
    by (vm_compute; reflexivity).
  split; [exact Hwf|]. split; [exact Hn|]. split; [vm_compute; reflexivity|].
  exists (match RemoveChildPaths 2 t "/link" with Some (_, m) => m | None => t end).
  assert (HR : RemoveChildPaths 2 t "/link"
               = Some (None, match RemoveChildPaths 2 t "/link" with
                             | Some (_, m) => m
                             | None => t
                             end)) by (vm_compute; reflexivity).
  split; [exact HR|].
  exact (proj2 (proj1 RemoveChildPaths_empties 2 t "/link" "/target" _ _ Hwf Hn HR)).
Defined.

(** ** [PathDiff] and [Equal] *)

Section Comparisons.

Lemma elem_of_Nodes t n : n ∈ tree.Nodes t ↔ ∃ k, tree.Node t k = Some n.
Proof.
  unfold tree.Nodes, tree.Node. rewrite list_elem_of_fmap. split.
  - intros ([k m] & -> & H). exists k. by apply elem_of_map_to_list.
  - intros [k H]. exists (k, n). split; [done|]. by apply elem_of_map_to_list.
Qed.

(** In a tree that keeps nodes under their real path, the [ID]s of the
    nodes are the keys. *)
Lemma elem_of_node_IDs t x :
  keyed t → x ∈ ID <$> tree.Nodes t ↔ is_Some (tree.Node t x).
Proof.
  intros Hk. rewrite list_elem_of_fmap. split.
  - intros (n & -> & [k Hn]%elem_of_Nodes). rewrite (Hk _ _ Hn : ID n = k). by eexists.
  - intros [n Hn]. exists n. split; [symmetry; by apply Hk|]. apply elem_of_Nodes. by exists x.
Qed.

Lemma PathDiff_extra t other x :
  keyed t → keyed other →
  x ∈ (PathDiff t other).1 ↔ is_Some (tree.Node other x) ∧ tree.Node t x = None.
Proof.
  intros Hk Ho. unfold PathDiff. simpl.
  rewrite list_elem_of_filter, elem_of_list_to_set, !elem_of_node_IDs by done.
  rewrite eq_None_not_Some. tauto.
Qed.

Lemma PathDiff_swap t other : PathDiff other t = ((PathDiff t other).2, (PathDiff t other).1).
Proof. reflexivity. Qed.

Lemma PathDiff_missing t other x :
  keyed t → keyed other →
  x ∈ (PathDiff t other).2 ↔ is_Some (tree.Node t x) ∧ tree.Node other x = None.
Proof.
  intros Hk Ho. rewrite <- (PathDiff_extra other t x Ho Hk). by rewrite (PathDiff_swap t other).
Qed.

Lemma length_zero_nil {A} (l : list A) : (length l =? 0) = true ↔ l = [].
Proof. destruct l; simpl; [done|]. split; done. Qed.

Lemma Equal_paths t other :
  keyed t → keyed other →
  Equal t other = true ↔ dom (tree.nodes t) = dom (tree.nodes other).
Proof.
  intros Hk Ho. unfold Equal.
  destruct (PathDiff t other) as [extra missing] eqn:EP.
  assert (He : ∀ x, x ∈ extra ↔ is_Some (tree.Node other x) ∧ tree.Node t x = None).
  { intros x. rewrite <- (PathDiff_extra t other x Hk Ho). by rewrite EP. }
  assert (Hm : ∀ x, x ∈ missing ↔ is_Some (tree.Node t x) ∧ tree.Node other x = None).
  { intros x. rewrite <- (PathDiff_missing t other x Hk Ho). by rewrite EP. }
  split.
  - destruct (tree.Length t =? tree.Length other); simpl; [|done].
    intros [->%length_zero_nil ->%length_zero_nil]%andb_true_iff.
    apply set_eq. intros x. rewrite !elem_of_dom. unfold tree.Node in *. split; intros Hx.
    + destruct (tree.nodes other !! x) eqn:E; [by eexists|].
      exfalso. apply (not_elem_of_nil x), Hm. by split.
    + destruct (tree.nodes t !! x) eqn:E; [by eexists|].
      exfalso. apply (not_elem_of_nil x), He. by split.
  - intros Hdom.
    assert (Hsame : ∀ x, is_Some (tree.Node t x) ↔ is_Some (tree.Node other x)).
    { intros x. unfold tree.Node. by rewrite <- !elem_of_dom, Hdom. }
    assert (Hlen : tree.Length t = tree.Length other).
    { unfold tree.Length. by rewrite <- !(size_dom (D := gset string)), Hdom. }
    rewrite Hlen, Nat.eqb_refl. simpl. apply andb_true_iff. split; apply length_zero_nil.
    + destruct extra as [|x l]; [done|]. exfalso.
      destruct (proj1 (He x) (list_elem_of_here _ _)) as [Hx Hn].
      apply Hsame in Hx. rewrite Hn in Hx. by destruct Hx.
    + destruct missing as [|x l]; [done|]. exfalso.
      destruct (proj1 (Hm x) (list_elem_of_here _ _)) as [Hx Hn].
      apply Hsame in Hx. rewrite Hn in Hx. by destruct Hx.
Qed.

Lemma Equal_refl t : Equal t t = true.
Proof.
  unfold Equal, PathDiff. rewrite Nat.eqb_refl. simpl.
  rewrite filter_keeps_none; [done|].
  intros x Hx Hnot. apply Hnot. by apply elem_of_list_to_set.
Qed.

Lemma Equal_sym t other : Equal t other = Equal other t.
Proof.
  unfold Equal. rewrite (PathDiff_swap t other).
  destruct (PathDiff t other) as [extra missing]. simpl.
  rewrite (Nat.eqb_sym (tree.Length other)). by rewrite andb_comm.
Qed.

End Comparisons.

(** X4: [Equal] is reflexive and symmetric, and on trees that keep their
    nodes under their real paths it holds exactly when the two trees have
    the same set of paths: kinds, link targets and references are not
    compared. *)
Theorem Equal_compares_paths :
  (∀ t, Equal t t = true)
  ∧ (∀ t other, Equal t other = Equal other t)
  ∧ (∀ t other, keyed t → keyed other →
       (Equal t other = true ↔ dom (tree.nodes t) = dom (tree.nodes other))).
Proof.
  split; [apply Equal_refl|]. split; [apply Equal_sym|apply Equal_paths].
Qed.

Lemma Equal_compares_paths_witness :
  let t := build [CallAddFile "/a"] in
  let other := build [CallAddSymLink "/a" "/elsewhere"] in
  keyed t ∧ keyed other
  ∧ tree.Node t "/a" ≠ tree.Node other "/a"
  ∧ dom (tree.nodes t) = dom (tree.nodes other)
  ∧ Equal t other = true.
Proof.
  intros t other.
  assert (Hk : keyed t) by (apply keyedb_keyed; vm_compute; reflexivity).
  assert (Ho : keyed other) by (apply keyedb_keyed; vm_compute; reflexivity).
  assert (Hd : dom (tree.nodes t) = dom (tree.nodes other)) by (vm_compute; reflexivity).
  split; [exact Hk|]. split; [exact Ho|]. split; [vm_compute; discriminate|].
  split; [exact Hd|].
  exact (proj2 (proj2 (proj2 Equal_compares_paths) t other Hk Ho) Hd).
Defined.

(** X5: on trees that keep their nodes under their real paths, [PathDiff]
    returns as extra the paths that only the other tree has and as missing
    the paths that only this tree has; swapping the trees swaps the two
    lists. *)
Theorem PathDiff_lists :
  (∀ t other x, keyed t → keyed other →
     (x ∈ (PathDiff t other).1 ↔ is_Some (tree.Node other x) ∧ tree.Node t x = None)
     ∧ (x ∈ (PathDiff t other).2 ↔ is_Some (tree.Node t x) ∧ tree.Node other x = None))
  ∧ (∀ t other, PathDiff other t = ((PathDiff t other).2, (PathDiff t other).1)).
Proof.
  split; [|apply PathDiff_swap].
  intros t other x Hk Ho. split; [by apply PathDiff_extra|by apply PathDiff_missing].
Qed.

Lemma PathDiff_lists_witness :
  let t := build [CallAddFile "/a"] in
  let other := build [CallAddFile "/b"] in
  keyed t ∧ keyed other
  ∧ PathDiff t other = (["/b"], ["/a"])
  ∧ ("/b" ∈ (PathDiff t other).1 ↔ is_Some (tree.Node other "/b") ∧ tree.Node t "/b" = None).
Proof.
  intros t other.
  assert (Hk : keyed t) by (apply keyedb_keyed; vm_compute; reflexivity).
  assert (Ho : keyed other) by (apply keyedb_keyed; vm_compute; reflexivity).
  split; [exact Hk|]. split; [exact Ho|]. split; [vm_compute; reflexivity|].
  exact (proj1 (proj1 PathDiff_lists t other "/b" Hk Ho)).
Defined.

(** ** [AllFiles] and [AllRealPaths] *)

Section Listings.

Lemma elem_of_AllFiles t r :
  r ∈ AllFiles t
  ↔ ∃ k fn, tree.Node t k = Some fn ∧ FileType fn = fileref.TypeReg ∧ Reference fn = Some r.
Proof.
  unfold AllFiles. rewrite list_elem_of_omap. split.
  - intros (fn & [k Hk]%elem_of_Nodes & H). exists k, fn.
    case_bool_decide; [done|discriminate].
  - intros (k & fn & Hk & Hreg & Href). exists fn. split; [apply elem_of_Nodes; by exists k|].
    by rewrite bool_decide_eq_true_2.
Qed.

Lemma elem_of_AllRealPaths t x :
  keyed t → x ∈ AllRealPaths t ↔ is_Some (tree.Node t x).
Proof. apply elem_of_node_IDs. Qed.

Lemma length_AllRealPaths t : length (AllRealPaths t) = tree.Length t.
Proof.
  unfold AllRealPaths, tree.Nodes, tree.Length. rewrite !length_fmap.
  apply length_map_to_list.
Qed.

End Listings.

(** X6: [AllFiles] lists exactly the references of the regular-file nodes
    that have one (directories, links and nodes without reference never
    appear), so the reference returned by a successful [AddFile] is
    listed afterwards; [AllRealPaths] has one entry per node, and on a
    tree that keeps nodes under their real paths these are the paths
    present. *)
Theorem AllFiles_lists_regular_files :
  (∀ t r,
     r ∈ AllFiles t
     ↔ ∃ k fn, tree.Node t k = Some fn ∧ FileType fn = fileref.TypeReg
               ∧ Reference fn = Some r)
  ∧ (∀ t nextID p,
       addedErr (AddFile t nextID p) = None →
       ∃ r, addedRef (AddFile t nextID p) = Some r
            ∧ r ∈ AllFiles (addedTree (AddFile t nextID p)))
  ∧ (∀ t, length (AllRealPaths t) = tree.Length t)
  ∧ (∀ t x, keyed t → (x ∈ AllRealPaths t ↔ is_Some (tree.Node t x))).
Proof.
  split; [apply elem_of_AllFiles|]. split; [|split; [apply length_AllRealPaths|]].
  - intros t nextID p Hok.
    destruct (AddFile_node t nextID p Hok) as (fn & Hn & Hreg & Href).
    assert (Hr : is_Some (addedRef (AddFile t nextID p))).
    { revert Hok. unfold AddFile, addedErr, addedRef, nodeDirect.
      destruct (tree.Node t (IDByPath p)) as [f|].
      - case_bool_decide; simpl; [|done]. destruct (Reference f); by eexists.
      - destruct (addParentPaths t p) as [[e|] t1]; simpl; [done|].
        destruct (setFileNode t1 _) as [e t2]; simpl. by eexists. }
    destruct Hr as [r Hr]. exists r. split; [done|].
    apply elem_of_AllFiles. exists p, fn. by rewrite Href.
  - intros t x Hk. by apply elem_of_AllRealPaths.
Qed.

Lemma AllFiles_lists_regular_files_witness :
  let t := build [CallAddSymLink "/l" "/a/b"] in
  addedErr (AddFile t 1 "/a/b") = None
  ∧ AllFiles (addedTree (AddFile t 1 "/a/b")) = [fileref.mkReference 1 "/a/b"]
  ∧ ∃ r, addedRef (AddFile t 1 "/a/b") = Some r
         ∧ r ∈ AllFiles (addedTree (AddFile t 1 "/a/b")).
Proof.
  intros t.
  assert (Hok : addedErr (AddFile t 1 "/a/b") = None) by (vm_compute; reflexivity).
  split; [exact Hok|]. split; [vm_compute; reflexivity|].
  exact (proj1 (proj2 AllFiles_lists_regular_files) t 1 "/a/b" Hok).
Defined.

(** ** Paths: normal forms, parents and constituents *)

Section NormalForms.

Lemma clean_fold_push l :
  Forall properSeg l →
  ∀ stack, fold_left (GoPath.clean_step true) l stack = (rev l ++ stack)%list.
Proof.
  induction 1 as [|x l Hx Hl IH]; intros stack; simpl; [done|].
  rewrite clean_step_push by done. rewrite IH. by rewrite <- app_assoc.
Qed.

Lemma append_cons ch (a b : string) : String ch a ++ b = String ch (a ++ b).
Proof. reflexivity. Qed.

Lemma append_assoc (a b c : string) : (a ++ b) ++ c = a ++ b ++ c.
Proof. induction a as [|ch a IH]; [done|]. rewrite !append_cons. by rewrite IH. Qed.

Lemma JoinSep_snoc pre x :
  pre ≠ [] → GoPath.JoinSep (pre ++ [x]) = GoPath.JoinSep pre ++ "/" ++ x.
Proof.
  induction pre as [|y pre IH]; intros Hne; [done|].
  destruct pre as [|z pre]; [done|].
  change (GoPath.JoinSep ((y :: z :: pre) ++ [x]))
    with (y ++ "/" ++ GoPath.JoinSep ((z :: pre) ++ [x])).
  rewrite IH by done.
  change (GoPath.JoinSep (y :: z :: pre)) with (y ++ "/" ++ GoPath.JoinSep (z :: pre)).
  by rewrite !append_assoc.
Qed.

Lemma JoinSep_not_empty out : Forall properSeg out → out ≠ [] → GoPath.JoinSep out ≠ "".
Proof.
  intros Hall Hne HJ. apply JoinSep_empty in HJ as [->| ->]; [done|].
  inversion Hall as [|? ? Hx _]; subst. by destruct Hx as (_ & ? & _).
Qed.

Lemma Normalize_normalOf out :
  Forall properSeg out → Normalize (normalOf out) = normalOf out.
Proof.
  intros Hall. unfold Normalize, normalOf, DirSeparator, GoPath.DirSeparator.
  change ("/" ++ ?s) with (String "/" s). rewrite Clean_rooted. f_equal. f_equal.
  destruct out as [|x out]; [done|].
  cbn [GoPath.Split GoPath.is_sep Ascii.eqb Bool.eqb].
  rewrite Split_JoinSep by done.
  change (fold_left (GoPath.clean_step true) ("" :: "" :: x :: out) [])
    with (fold_left (GoPath.clean_step true) (x :: out) []).
  rewrite clean_fold_push by done. rewrite app_nil_r. apply rev_involutive.
Qed.

Lemma Split_sep s : GoPath.Split (String "/" s) = "" :: GoPath.Split s.
Proof. reflexivity. Qed.

Lemma clean_fold_empty l stack :
  fold_left (GoPath.clean_step true) ("" :: l) stack
  = fold_left (GoPath.clean_step true) l stack.
Proof. reflexivity. Qed.

(** The elements that [path.Clean] keeps of a normal form are its own. *)
Lemma clean_fold_normalOf out :
  Forall properSeg out →
  fold_left (GoPath.clean_step true) (GoPath.Split (normalOf out)) [] = rev out.
Proof.
  intros Hall. unfold normalOf. rewrite Split_sep, clean_fold_empty.
  destruct out as [|x out]; [done|].
  rewrite Split_JoinSep by done. rewrite clean_fold_push by done. apply app_nil_r.
Qed.

Lemma Normalize_is_normalOf p :
  ∃ out, Normalize p = normalOf out ∧ Forall properSeg out.
Proof. destruct (Normalize_out p) as (out & H1 & H2 & _). by exists out. Qed.

Lemma normalOf_root out : Forall properSeg out → normalOf out = "/" → out = [].
Proof.
  intros Hall [= HJ]. destruct out as [|x out]; [done|].
  by apply JoinSep_not_empty in HJ.
Qed.

Lemma normalOf_inj out out' :
  Forall properSeg out → Forall properSeg out' → normalOf out = normalOf out' → out = out'.
Proof.
  intros H1 H2 E. apply (f_equal GoPath.Split) in E.
  apply (f_equal (λ l, rev (fold_left (GoPath.clean_step true) l []))) in E.
  by rewrite !clean_fold_normalOf, !rev_involutive in E.
Qed.

(** One more element below a normal form, or below the empty string. *)
Lemma Normalize_accOf pre x :
  Forall properSeg pre → properSeg x →
  Normalize (accOf pre ++ DirSeparator ++ x) = normalOf (pre ++ [x]).
Proof.
  intros Hpre Hx. unfold Normalize, DirSeparator, GoPath.DirSeparator.
  rewrite append_cons. change ("" ++ ?s) with s. rewrite Clean_rooted.
  unfold normalOf at 1. f_equal. f_equal.
  rewrite <- append_cons. rewrite Split_app, (Split_noslash x) by (by destruct Hx).
  rewrite fold_left_app.
  assert (Hfold : fold_left (GoPath.clean_step true) (GoPath.Split (String "/" (accOf pre))) []
                  = rev pre).
  { destruct pre as [|y pre]; [done|].
    unfold accOf. rewrite Split_sep, clean_fold_empty. by apply clean_fold_normalOf. }
  rewrite Hfold. cbn [fold_left]. rewrite clean_step_push by done.
  simpl. by rewrite rev_involutive.
Qed.

Lemma noslash_SplitDir b : noslash b = true → GoPath.SplitDir b = ("", b).
Proof.
  induction b as [|c b IH]; [done|]. simpl.
  intros [Hc Hb]%andb_true_iff. rewrite (IH Hb). simpl.
  apply negb_true_iff in Hc. by rewrite Hc.
Qed.

(** [filepath.Split] cuts behind the last separator. *)
Lemma SplitDir_app a b :
  noslash b = true → GoPath.SplitDir (a ++ "/" ++ b) = (a ++ "/", b).
Proof.
  intros Hb. induction a as [|c a IH].
  - change ("" ++ "/" ++ b) with (String "/" b). simpl. by rewrite (noslash_SplitDir b Hb).
  - rewrite (append_cons c a ("/" ++ b)), (append_cons c a "/").
    cbn [GoPath.SplitDir]. rewrite IH.
    destruct a as [|c' a]; [done|]. by rewrite (append_cons c' a "/").
Qed.

(** The parent of a normal form drops the last element. *)
Lemma ParentPath_normalOf pre x :
  Forall properSeg pre → properSeg x →
  ParentPath (normalOf (pre ++ [x])) = Some (normalOf pre).
Proof.
  intros Hpre Hx.
  assert (Hall : Forall properSeg (pre ++ [x])) by (apply Forall_app; split; [done|by constructor]).
  unfold ParentPath. rewrite (Normalize_normalOf _ Hall).
  destruct (String.eqb_spec (normalOf (pre ++ [x])) DirSeparator) as [E|_].
  { apply normalOf_root in E; [|done]. by destruct pre. }
  f_equal.
  assert (Hdir : fst (GoPath.SplitDir (normalOf (pre ++ [x]))) = accOf pre ++ "/").
  { destruct pre as [|y pre].
    - change (normalOf ([] ++ [x])) with ("" ++ "/" ++ x).
      by rewrite SplitDir_app by (by destruct Hx).
    - unfold normalOf, accOf. rewrite JoinSep_snoc by done.
      rewrite <- append_cons. by rewrite SplitDir_app by (by destruct Hx). }
  rewrite Hdir.
  unfold Normalize, DirSeparator, GoPath.DirSeparator.
  rewrite append_cons. change ("" ++ ?s) with s. rewrite Clean_rooted.
  unfold normalOf. f_equal. f_equal.
  rewrite <- append_cons.
  change (String "/" (accOf pre) ++ "/") with (String "/" (accOf pre) ++ "/" ++ "").
  rewrite Split_app, fold_left_app. simpl.
  destruct pre as [|y pre]; [done|].
  unfold accOf. rewrite clean_fold_normalOf by done. apply rev_involutive.
Qed.

Lemma ParentPath_of_Normalize p :
  ParentPath p = ParentPath (Normalize p).
Proof.
  destruct (Normalize_is_normalOf p) as (out & E & Hall).
  unfold ParentPath. by rewrite E, (Normalize_normalOf _ Hall).
Qed.

End NormalForms.

(** ** Resolution in a tree without links *)

Section LinkFree.
Variable t : tree.Tree.
Hypothesis Hfree : linkFree t.

(** Without links the ancestor loop is a descent by direct lookups. *)
Lemma ancestorLoop_linkFree follow len :
  ∀ rest pre idx cp cn,
    1 ≤ idx → Forall properSeg pre → Forall properSeg rest →
    (rest = [] → cp = normalOf pre) →
    ∃ q, ancestorLoop t follow rest idx len (accOf pre) cp cn
         = Some (q, descend t pre rest cn, None)
         ∧ (is_Some (descend t pre rest cn) → q = normalOf (pre ++ rest)).
Proof.
  induction rest as [|x rest IH]; intros pre idx cp cn Hidx Hpre Hrest Hcp; simpl.
  - exists cp. split; [done|]. intros _. rewrite app_nil_r. by apply Hcp.
  - inversion Hrest as [|? ? Hx Hrest']; subst.
    destruct idx as [|idx]; [lia|]. rewrite andb_false_r.
    rewrite (Normalize_accOf pre x Hpre Hx). unfold nodeDirect, IDByPath.
    destruct (tree.Node t (normalOf (pre ++ [x]))) as [c|] eqn:Ec.
    + assert (Hpre' : Forall properSeg (pre ++ [x]))
        by (apply Forall_app; split; [done|by constructor]).
      assert (Hacc : accOf (pre ++ [x]) = normalOf (pre ++ [x])) by (by destruct pre).
      destruct (IH (pre ++ [x])%list (S (S idx)) (normalOf (pre ++ [x])) (Some c))
        as (q & Hq & Hfound); [lia|done|done|done|].
      rewrite Hacc in Hq. rewrite <- app_assoc in Hfound. simpl in Hfound.
      exists q. split; [|done].
      destruct (Reference c); [|done]. by rewrite (Hfree _ _ Ec), andb_false_r.
    + exists (normalOf (pre ++ [x])). split; [done|]. by intros [? ?].
Qed.

Lemma resolveAncestorLinks_linkFree fuel p out :
  Normalize p = normalOf out → Forall properSeg out →
  ∃ q, resolveAncestorLinks fuel t p
       = Some (q, descend t [] out (tree.Node t "/"), None)
       ∧ (is_Some (descend t [] out (tree.Node t "/")) → q = Normalize p).
Proof.
  intros Hn Hall. unfold resolveAncestorLinks, resolveAncestorLinksWith. rewrite Hn.
  destruct out as [|x out].
  - exists "/". split; [|done].
    change (GoPath.Split (normalOf [])) with [""; ""]. simpl.
    unfold nodeDirect, IDByPath. change (Normalize ("" ++ DirSeparator ++ "")) with "/".
    destruct (tree.Node t "/") as [c|] eqn:Ec; [|done]. by destruct (Reference c).
  - unfold normalOf at 1. rewrite Split_sep, Split_JoinSep by done.
    generalize (length (GoPath.Split (normalOf (x :: out)))). intros len.
    change (ancestorLoop t ?f ("" :: ?l) 0 len "" "" None)
      with (ancestorLoop t f l 1 len (accOf []) "" None).
    destruct (ancestorLoop_linkFree (λ n, resolveNodeLinks fuel t n true)
                len (x :: out) [] 1 "" None)
      as (q & Hq & Hfound); [lia|done|done|done|].
    exists q. cbn [descend] in *. split; [exact Hq|exact Hfound].
Qed.

End LinkFree.

Section LinkFreeShape.
Variable t : tree.Tree.
Hypothesis Hwf : WF t.

(** In a well-formed tree a node has one at every prefix of its path. *)
Lemma node_chain post :
  ∀ pre, Forall properSeg (pre ++ post) →
    is_Some (tree.Node t (normalOf (pre ++ post))) → is_Some (tree.Node t (normalOf pre)).
Proof.
  induction post as [|x post IH] using rev_ind; intros pre Hall Hn.
  - by rewrite app_nil_r in Hn.
  - rewrite app_assoc in Hall, Hn.
    apply Forall_app in Hall as [Hall Hx]. apply Forall_cons in Hx as [Hx _].
    apply IH; [done|].
    destruct (wf_parent t Hwf _ Hn) as (pp & Hpp & Hpar).
    + intros E. apply normalOf_root in E.
      * by destruct (pre ++ post)%list.
      * apply Forall_app; split; [done|by constructor].
    + rewrite (ParentPath_normalOf _ _ Hall Hx) in Hpp. injection Hpp as <-.
      by destruct (wf_linked t Hwf _ _ Hpar).
Qed.

Lemma descend_lookup rest :
  ∀ pre cn, Forall properSeg (pre ++ rest) →
    (rest = [] → cn = tree.Node t (normalOf pre)) →
    descend t pre rest cn = tree.Node t (normalOf (pre ++ rest)).
Proof.
  induction rest as [|x rest IH]; intros pre cn Hall Hcn; simpl.
  - rewrite app_nil_r. by apply Hcn.
  - replace (pre ++ x :: rest)%list with ((pre ++ [x]) ++ rest)%list in *
      by (by rewrite <- app_assoc).
    destruct (tree.Node t (normalOf (pre ++ [x]))) as [c|] eqn:Ec.
    + by apply IH.
    + destruct (tree.Node t (normalOf ((pre ++ [x]) ++ rest))) as [m|] eqn:Em; [|done].
      destruct (node_chain rest (pre ++ [x])%list Hall) as [c Hc]; [by rewrite Em|].
      by rewrite Hc in Ec.
Qed.

End LinkFreeShape.

Lemma linkFreeb_linkFree t : linkFreeb t = true → linkFree t.
Proof.
  unfold linkFreeb, linkFree, tree.Node. rewrite bool_decide_eq_true.
  intros H k n Hk. by apply (H k n).
Qed.

Section LinkFreeLookups.
Variable t : tree.Tree.
Hypothesis Hwf : WF t.
Hypothesis Hfree : linkFree t.

Lemma resolveNodeLinks_not_link fuel cn fd :
  IsLink cn = false →
  resolveNodeLinks (S fuel) t cn fd = Some (RealPath cn, Some cn, None).
Proof.
  intros Hl. unfold resolveNodeLinks. simpl.
  rewrite bool_decide_eq_false_2 by set_solver. by rewrite Hl.
Qed.

Lemma node_linkFree fuel p s :
  FollowAncestorLinks s = true →
  ∃ q, node (S fuel) t p s = Some (q, tree.Node t (Normalize p), None)
       ∧ (is_Some (tree.Node t (Normalize p)) → q = Normalize p).
Proof.
  intros Hs. unfold node, FollowLinks. rewrite Hs. cbn [orb negb].
  destruct (Normalize_is_normalOf p) as (out & Hn & Hall).
  destruct (resolveAncestorLinks_linkFree t Hfree (S fuel) p out Hn Hall) as (q & Hq & Hfound).
  rewrite (descend_lookup t Hwf out [] (tree.Node t "/")) in Hq, Hfound by done.
  cbn [app] in Hq, Hfound. rewrite <- Hn in Hq, Hfound. rewrite Hq.
  destruct (tree.Node t (Normalize p)) as [cn|] eqn:Ec.
  - exists (Normalize p). split; [|done]. rewrite Hfound by done.
    destruct (sFollowBasenameLinks s); [|done].
    rewrite (resolveNodeLinks_not_link _ _ _ (Hfree _ _ Ec)).
    by rewrite (wf_keyed t Hwf _ _ Ec).
  - by exists q.
Qed.

Lemma File_linkFree fuel p opts :
  File (S fuel) t p opts
  = Some (match (match tree.Node t p with
                 | Some n => Some n
                 | None => tree.Node t (Normalize p)
                 end) with
          | Some n => (true, Reference n, None)
          | None => (false, None, None)
          end).
Proof.
  unfold File, nodeDirect, IDByPath.
  destruct (tree.Node t p) as [cn|] eqn:Ec.
  - by rewrite (Hfree _ _ Ec).
  - destruct (node_linkFree fuel p
                (mkStrategy true (sFollowBasenameLinks (newLinkResolutionStrategy opts))
                   (sDoNotFollowDeadBasenameLinks (newLinkResolutionStrategy opts))))
      as (q & Hq & _); [done|].
    rewrite Hq. by destruct (tree.Node t (Normalize p)).
Qed.

Lemma HasPath_linkFree fuel p :
  HasPath (S fuel) t p
  = Some (bool_decide (is_Some (tree.Node t p) ∨ is_Some (tree.Node t (Normalize p)))).
Proof.
  unfold HasPath. rewrite File_linkFree.
  destruct (tree.Node t p) as [n|].
  - by rewrite bool_decide_eq_true_2 by (left; eauto).
  - destruct (tree.Node t (Normalize p)) as [n|].
    + by rewrite bool_decide_eq_true_2 by (right; eauto).
    + rewrite bool_decide_eq_false_2; [done|]. by intros [[? ?]|[? ?]].
Qed.

End LinkFreeLookups.

(** X7. In a well-formed tree that holds no link, every lookup returns
    with one unit of fuel and reports no error: a resolution that follows
    ancestor links returns the node stored at the normalized path, under
    that path when there is one; [File] finds the node stored at the path as
    given or else at its normal form, whatever the options; [HasPath] is
    true exactly when one of the two is there. *)
Theorem linkFree_lookups t fuel p :
  WF t → linkFree t →
  (∀ s, FollowAncestorLinks s = true →
        ∃ q, node (S fuel) t p s = Some (q, tree.Node t (Normalize p), None)
             ∧ (is_Some (tree.Node t (Normalize p)) → q = Normalize p))
  ∧ (∀ opts, File (S fuel) t p opts
             = Some (match (match tree.Node t p with
                            | Some n => Some n
                            | None => tree.Node t (Normalize p)
                            end) with
                     | Some n => (true, Reference n, None)
                     | None => (false, None, None)
                     end))
  ∧ HasPath (S fuel) t p
    = Some (bool_decide (is_Some (tree.Node t p) ∨ is_Some (tree.Node t (Normalize p)))).
Proof.
  intros Hwf Hfree. split; [|split].
  - intros s Hs. by apply node_linkFree.
  - intros opts. by apply File_linkFree.
  - by apply HasPath_linkFree.
Qed.

Lemma linkFree_lookups_witness :
  WF lowerPasswd ∧ linkFree lowerPasswd
  ∧ File 1 lowerPasswd "etc//passwd/" []
    = Some (true, Some (fileref.mkReference 0 "/etc/passwd"), None)
  ∧ HasPath 1 lowerPasswd "etc/shadow" = Some false.
Proof.
  assert (Hwf : WF lowerPasswd).
  { apply reachable_WF. apply (reach_AddFile NewFileTree 0 "/etc/passwd"). constructor. }
  assert (Hfree : linkFree lowerPasswd) by (by apply linkFreeb_linkFree; vm_compute).
  split; [done|]. split; [done|].
  split.
  - rewrite (proj1 (proj2 (linkFree_lookups lowerPasswd 0 "etc//passwd/" Hwf Hfree)) []).
    by vm_compute.
  - rewrite (proj2 (proj2 (linkFree_lookups lowerPasswd 0 "etc/shadow" Hwf Hfree))).
    by vm_compute.
Defined.

(** ** Chains of links that end at a node *)

Section LiveChains.
Variable t : tree.Tree.
Hypothesis Hkeyed : keyed t.

Lemma linkSteps_det n c d :
  linkSteps t n c d → IsLink d = false → ∀ m, linkSteps t m c d → n = m.
Proof.
  induction 1 as [c|n c c' p' d f Hl Hn Hr Hc IH]; intros Hd m H1;
    inversion H1; subst; try done; try congruence.
  match goal with
  | H2 : resolveAncestorLinks _ t _ = Some _ |- _ =>
      pose proof (resolveAncestorLinks_det t _ _ _ _ _ Hr H2) as E
  end.
  injection E as -> ->. f_equal. by apply IH.
Qed.

Lemma linkSteps_stored n c d :
  linkSteps t n c d → tree.Node t (RealPath c) = Some c → tree.Node t (RealPath d) = Some d.
Proof.
  induction 1 as [c|n c c' p' d f Hl Hn Hr Hc IH]; [done|]. intros _. apply IH.
  pose proof (resolveAncestorLinks_found t Hkeyed _ _ _ _ Hr) as Hc'.
  by rewrite (Hkeyed _ _ Hc').
Qed.

(** On a chain that ends at a node that is no link the cycle check never
    fires, and the loop returns that node under its path. *)
Lemma nodeLinksLoop_live n c d :
  linkSteps t n c d → IsLink d = false →
  ∀ fd seen lp ln,
    tree.Node t (RealPath c) = Some c →
    (∀ x, x ∈ seen → ∃ c' m, x = RealPath c' ∧ tree.Node t x = Some c'
                             ∧ linkSteps t m c' d ∧ n < m) →
    ∃ fuel, nodeLinksLoop fuel t fd seen lp ln (RealPath c) (Some c)
            = Some (RealPath d, Some d, None).
Proof.
  induction 1 as [c|n c c' p' d f Hl Hn Hr Hc IH]; intros Hd fd seen lp ln Hst Hseen.
  - assert (Hnot : RealPath c ∉ seen).
    { intros (c' & m & Hx & Hc' & Hs & Hlt)%Hseen.
      rewrite Hst in Hc'. injection Hc' as <-.
      pose proof (linkSteps_det _ _ _ (linkSteps_here t c) Hd _ Hs). lia. }
    exists 1. simpl. rewrite bool_decide_eq_false_2 by done. by rewrite Hd.
  - assert (Hnot : RealPath c ∉ seen).
    { intros (c0 & m & Hx & Hc0 & Hs & Hlt)%Hseen.
      rewrite Hst in Hc0. injection Hc0 as <-.
      pose proof (linkSteps_det _ _ _ (linkSteps_next t n c c' p' d f Hl Hn Hr Hc) Hd _ Hs).
      lia. }
    pose proof (resolveAncestorLinks_found t Hkeyed _ _ _ _ Hr) as Hc'.
    pose proof (Hkeyed _ _ Hc') as Hp'.
    destruct (IH Hd fd ({[RealPath c]} ∪ seen) (RealPath c) (Some c)) as [fuel1 Hloop].
    + by rewrite Hp'.
    + intros x [->%elem_of_singleton|Hx]%elem_of_union.
      * exists c, (S n). repeat split; try done; [|lia].
        by apply (linkSteps_next t n c c' p' d f).
      * destruct (Hseen x Hx) as (c0 & m & ? & ? & ? & ?).
        exists c0, m. repeat split; try done. lia.
    + exists (S (f `max` fuel1)).
      rewrite (nodeLinksLoop_follow _ t fd seen lp ln (RealPath c) c p' (Some c'));
        [|done|done|done|by apply (resolveAncestorLinks_mono f); [lia|]].
      rewrite <- Hp'. by apply (nodeLinksLoop_mono fuel1); [lia|].
Qed.

Lemma resolveNodeLinks_live n c d :
  linkSteps t n c d → IsLink d = false → tree.Node t (RealPath c) = Some c →
  ∃ fuel, ∀ fd, resolveNodeLinks fuel t c fd = Some (RealPath d, Some d, None).
Proof.
  intros Hs Hd Hc.
  destruct (nodeLinksLoop_live n c d Hs Hd true ∅ "" None Hc) as [f1 H1];
    [by intros x ?%elem_of_empty|].
  destruct (nodeLinksLoop_live n c d Hs Hd false ∅ "" None Hc) as [f2 H2];
    [by intros x ?%elem_of_empty|].
  exists (f1 `max` f2). intros [|].
  - by apply (resolveNodeLinks_mono f1); [lia|].
  - by apply (resolveNodeLinks_mono f2); [lia|].
Qed.

End LiveChains.

(** X8. A chain of links that ends at a node which is no link resolves to
    that node.  Take a query whose basename node [c] exists and from which
    [n] links lead to the node [d], no link itself.  With basename-link
    following, the resolution returns [d] under its own path, whatever the
    dead-link flag: the cycle check never fires on the way, no error is
    reported, and [d] is a node of the tree. *)
Theorem live_link_chain_resolves t q a f0 cp c n d :
  keyed t →
  node f0 t q (mkStrategy a false false) = Some (cp, Some c, None) →
  linkSteps t n c d → IsLink d = false →
  tree.Node t (RealPath d) = Some d
  ∧ ∃ fuel, ∀ dnf,
      node fuel t q (mkStrategy a true dnf) = Some (RealPath d, Some d, None).
Proof.
  intros Hk Hq Hs Hd.
  assert (Hc : tree.Node t (RealPath c) = Some c).
  { destruct a.
    - unfold node in Hq. simpl in Hq.
      destruct (resolveAncestorLinks f0 t q) as [[[cp0 [cn0|]] [e|]]|] eqn:Ea; try done.
      injection Hq as -> ->.
      pose proof (resolveAncestorLinks_found t Hk _ _ _ _ Ea) as Hf.
      by rewrite (Hk _ _ Hf).
    - rewrite node_noFollow in Hq. unfold nodeDirect, IDByPath in Hq.
      injection Hq as -> Hf. by rewrite (Hk _ _ Hf). }
  split; [by apply (linkSteps_stored t Hk n c d)|].
  destruct (resolveNodeLinks_live t Hk n c d Hs Hd Hc) as [f1 Hr].
  exists (f0 `max` f1). intros dnf.
  assert (Hr' : resolveNodeLinks (f0 `max` f1) t c (negb dnf) = Some (RealPath d, Some d, None))
    by (apply (resolveNodeLinks_mono f1); [lia|apply Hr]).
  destruct a.
  - unfold node in Hq |- *. simpl in Hq |- *.
    destruct (resolveAncestorLinks f0 t q) as [[[cp0 [cn0|]] [e|]]|] eqn:Ea; try done.
    injection Hq as -> ->.
    by rewrite (resolveAncestorLinks_mono f0 (f0 `max` f1) _ _ _ ltac:(lia) Ea).
  - rewrite node_noFollow in Hq. unfold nodeDirect, IDByPath in Hq.
    injection Hq as -> Hf. unfold node. simpl. unfold IDByPath. by rewrite Hf.
Qed.

Lemma live_link_chain_resolves_witness :
  let l1 := NewSymLink "/l1" "/l2" (Some (fileref.mkReference 1 "/l1")) in
  let f := NewFile "/data/f" (Some (fileref.mkReference 0 "/data/f")) in
  keyed linkChain
  ∧ node 0 linkChain "/l1" (mkStrategy true false false) = Some ("/l1", Some l1, None)
  ∧ linkSteps linkChain 2 l1 f
  ∧ tree.Node linkChain (RealPath f) = Some f
  ∧ ∃ fuel, ∀ dnf,
      node fuel linkChain "/l1" (mkStrategy true true dnf) = Some (RealPath f, Some f, None).
Proof.
  intros l1 f.
  assert (Hk : keyed linkChain) by (by apply keyedb_keyed; vm_compute).
  assert (Hq : node 0 linkChain "/l1" (mkStrategy true false false) = Some ("/l1", Some l1, None))
    by (by vm_compute).
  assert (Hs : linkSteps linkChain 2 l1 f).
  { apply (linkSteps_next linkChain 1 l1
             (NewSymLink "/l2" "data/f" (Some (fileref.mkReference 2 "/l2"))) "/l2" f 1);
      [done|done|by vm_compute|].
    apply (linkSteps_next linkChain 0 _ f "/data/f" f 1); [done|done|by vm_compute|].
    constructor. }
  split; [done|]. split; [done|]. split; [done|].
  by apply (live_link_chain_resolves linkChain "/l1" true 0 "/l1" l1 2 f).
Defined.

(** ** Adding a path that is not there *)

Section FreshPaths.

Lemma prefixes_app {A} (l1 l2 : list A) :
  prefixes (l1 ++ l2) = (prefixes l1 ++ map (app l1) (prefixes l2))%list.
Proof.
  induction l1 as [|a l1 IH]; simpl.
  - symmetry. apply map_id.
  - f_equal. by rewrite IH, map_app, map_map.
Qed.

Lemma ConstituentPaths_normalOf full :
  Forall properSeg full →
  ConstituentPaths (normalOf full) = "/" :: map normalOf (prefixes full).
Proof.
  intros Hall. unfold ConstituentPaths. rewrite (Normalize_normalOf _ Hall).
  change (map (λ pre, DirSeparator ++ GoPath.JoinSep pre)) with (map normalOf).
  change DirSeparator with "/". f_equal. f_equal. f_equal.
  destruct full as [|x full]; [done|].
  unfold normalOf. rewrite Split_sep, Split_JoinSep by done.
  rewrite filter_cons_False by (by intros H; apply H).
  apply filter_keeps_all. intros y Hy.
  rewrite Forall_forall in Hall. by destruct (Hall y Hy) as (_ & ? & _).
Qed.

Lemma pathsToAdd_absent_app t l1 l2 :
  Forall (λ x, tree.Node t x = None) l1 →
  pathsToAdd t (l1 ++ l2) = (l1 ++ pathsToAdd t l2)%list.
Proof.
  induction 1 as [|x l1 Hx _ IH]; [done|]. simpl. unfold IDByPath.
  by rewrite Hx, IH.
Qed.

(** The first loop of [addParentPaths] collects the paths below the
    deepest one that exists. *)
Lemma pathsToAdd_split t pre rest :
  is_Some (tree.Node t (normalOf pre)) →
  Forall (λ r, tree.Node t (normalOf (pre ++ r)) = None) (prefixes rest) →
  rev (pathsToAdd t (rev ("/" :: map normalOf (prefixes (pre ++ rest)))))
  = map (λ r, normalOf (pre ++ r)) (prefixes rest).
Proof.
  intros [pn Hpn] Habs.
  rewrite prefixes_app, map_app, map_map, app_comm_cons.
  match goal with
  | |- context [(?l ++ map _ _)%list] =>
      assert (HE : ∃ E, l = (E ++ [normalOf pre])%list)
  end.
  { destruct pre as [|z pre _] using rev_ind; [by exists []|].
    exists ("/" :: map normalOf (prefixes pre)).
    by rewrite prefixes_app, map_app. }
  destruct HE as [E ->].
  rewrite rev_app_distr, rev_app_distr. cbn [rev app].
  rewrite pathsToAdd_absent_app.
  - cbn [pathsToAdd]. unfold IDByPath. rewrite Hpn.
    by rewrite app_nil_r, rev_involutive.
  - apply Forall_rev. by apply Forall_map.
Qed.

Section FreshShape.
Variable t : tree.Tree.
Hypothesis Hwf : WF t.

Lemma deepest_present full :
  ∃ pre rest, full = (pre ++ rest)%list
              ∧ is_Some (tree.Node t (normalOf pre))
              ∧ Forall (λ r, tree.Node t (normalOf (pre ++ r)) = None) (prefixes rest).
Proof.
  induction full as [|z full IH] using rev_ind.
  - exists [], []. split; [done|]. split; [|by constructor].
    by destruct (wf_root t Hwf) as (_ & ? & _).
  - destruct (tree.Node t (normalOf (full ++ [z]))) as [n|] eqn:En.
    + exists (full ++ [z])%list, []. rewrite app_nil_r.
      split; [done|]. split; [by rewrite En|by constructor].
    + destruct IH as (pre & rest & -> & Hpre & Habs).
      exists pre, (rest ++ [z])%list. split; [by rewrite app_assoc|]. split; [done|].
      rewrite prefixes_app. apply Forall_app. split; [done|].
      constructor; [|by constructor]. by rewrite app_assoc.
Qed.

Lemma setFileNode_child fn pre x :
  Forall properSeg pre → properSeg x →
  RealPath fn = normalOf (pre ++ [x]) → is_Some (tree.Node t (normalOf pre)) →
  ∃ t', setFileNode t fn = (None, t').
Proof.
  intros Hpre Hx Hfn [pn Hpn]. unfold setFileNode, nodeDirect, IDByPath.
  destruct (tree.Node t (RealPath fn)) as [old|] eqn:Eold.
  - unfold tree.Replace, ID, IDByPath.
    rewrite (wf_keyed t Hwf _ _ Eold).
    rewrite (proj2 (HasNode_true t (RealPath fn))) by (by rewrite Eold).
    rewrite String.eqb_refl. by eexists.
  - rewrite Hfn, (ParentPath_normalOf _ _ Hpre Hx), Hpn.
    unfold tree.AddChild, ID, IDByPath.
    rewrite (wf_keyed t Hwf _ _ Hpn).
    rewrite (proj2 (HasNode_true t (normalOf pre))) by (by rewrite Hpn).
    rewrite Hfn in Eold.
    rewrite Hfn, (proj2 (HasNode_false t (normalOf (pre ++ [x])))) by done.
    by eexists.
Qed.

End FreshShape.

(** The second loop of [addParentPaths], run below a path that exists,
    adds every path it is given. *)
Lemma addDirs_chain rest :
  ∀ pre t, WF t → Forall properSeg (pre ++ rest) →
    is_Some (tree.Node t (normalOf pre)) →
    ∃ t', addDirs t (map (λ r, normalOf (pre ++ r)) (prefixes rest)) = (None, t')
          ∧ WF t' ∧ is_Some (tree.Node t' (normalOf (pre ++ rest))).
Proof.
  induction rest as [|y rest IH]; intros pre t Hwf Hall Hpre.
  - exists t. by rewrite app_nil_r.
  - apply Forall_app in Hall as [Hp Hr]. inversion Hr as [|? ? Hy Hr']; subst.
    destruct (setFileNode_child t Hwf (NewDir (normalOf (pre ++ [y])) None) pre y)
      as [t1 H1]; [done..|].
    pose proof (WF_setFileNode _ _ _ _ Hwf H1) as Hwf1.
    pose proof (proj1 (setFileNode_lookup _ _ _ H1)) as Hn1. simpl in Hn1.
    destruct (IH (pre ++ [y])%list t1) as (t' & Ht' & Hwf' & Hn'); [done| |by rewrite Hn1|].
    { rewrite <- app_assoc. apply Forall_app. split; [done|by constructor]. }
    exists t'. cbn [prefixes map addDirs]. rewrite H1.
    rewrite map_map.
    rewrite <- app_assoc in Hn'. split; [|done]. rewrite <- Ht'. f_equal.
    apply map_ext. intros r. by rewrite <- app_assoc.
Qed.

Lemma addParentPaths_fresh t out x :
  WF t → Forall properSeg out → properSeg x →
  ∃ t1, addParentPaths t (normalOf (out ++ [x])) = (None, t1)
        ∧ WF t1 ∧ is_Some (tree.Node t1 (normalOf out)).
Proof.
  intros Hwf Hout Hx.
  assert (Hall : Forall properSeg (out ++ [x]))
    by (apply Forall_app; split; [done|by constructor]).
  unfold addParentPaths, nodeDirect, IDByPath.
  rewrite (ParentPath_normalOf _ _ Hout Hx).
  destruct (tree.Node t (normalOf out)) as [pn|] eqn:Epn.
  - exists t. by rewrite Epn.
  - rewrite (ConstituentPaths_normalOf _ Hall).
    destruct (deepest_present t Hwf (out ++ [x])%list) as (pre & rest & E & Hpre & Habs).
    rewrite E. rewrite E in Hall.
    destruct (addDirs_chain rest pre t Hwf Hall Hpre) as (t' & Ht' & Hwf' & Hn').
    exists t'. split; [|split; [done|]].
    { etrans; [|exact Ht']. f_equal. exact (pathsToAdd_split t pre rest Hpre Habs). }
    rewrite <- E in Hn'.
    by apply (node_chain t' Hwf' [x] out); [apply Forall_app; split; [done|by constructor]|].
Qed.

(** What an [Add*] call does with a node [fn] made for a new path. *)
Lemma add_fresh t fn :
  WF t → Normalize (RealPath fn) = RealPath fn → RealPath fn ≠ "/" →
  ∃ t1 t', addParentPaths t (RealPath fn) = (None, t1)
           ∧ setFileNode t1 fn = (None, t')
           ∧ tree.Node t' (RealPath fn) = Some fn ∧ WF t'
           ∧ ∃ pp, ParentPath (RealPath fn) = Some pp ∧ is_Some (tree.Node t' pp).
Proof.
  intros Hwf Hnorm Hroot.
  destruct (Normalize_is_normalOf (RealPath fn)) as (full & E & Hall). rewrite Hnorm in E.
  destruct full as [|x out _] using rev_ind; [done|].
  apply Forall_app in Hall as [Hout Hx]. apply Forall_cons in Hx as [Hx _].
  rewrite E.
  destruct (addParentPaths_fresh t out x Hwf Hout Hx) as (t1 & H1 & Hwf1 & Hp1).
  destruct (setFileNode_child t1 Hwf1 fn out x Hout Hx E Hp1) as [t' H'].
  pose proof (WF_setFileNode _ _ _ _ Hwf1 H') as Hwf'.
  pose proof (proj1 (setFileNode_lookup _ _ _ H')) as Hn'. rewrite E in Hn'.
  exists t1, t'. do 4 (split; [done|]).
  exists (normalOf out). split; [by apply ParentPath_normalOf|].
  by apply (node_chain t' Hwf' [x] out);
    [apply Forall_app; split; [done|by constructor]|rewrite Hn'].
Qed.

End FreshPaths.

(** X9. In a well-formed tree, adding a node at a normalized path other
    than the root where no node is stored cannot fail: each of [AddFile],
    [AddDir], [AddSymLink] and [AddHardLink] returns a new reference made
    for the path, uses one identifier, reports no error, and leaves a
    well-formed tree that holds the new node at the path, with that
    reference, below a node at its parent path. *)
Theorem add_fresh_path_succeeds t nextID p target :
  WF t → Normalize p = p → p ≠ "/" → tree.Node t p = None →
  let ref := fileref.mkReference nextID p in
  ∀ a fn,
    (a, fn) ∈ [(AddFile t nextID p, NewFile p (Some ref));
               (AddDir t nextID p, NewDir p (Some ref));
               (AddSymLink t nextID p target, NewSymLink p target (Some ref));
               (AddHardLink t nextID p target, NewHardLink p target (Some ref))] →
    a = (Some ref, None, addedTree a, S nextID)
    ∧ tree.Node (addedTree a) p = Some fn
    ∧ WF (addedTree a)
    ∧ ∃ pp, ParentPath p = Some pp ∧ is_Some (tree.Node (addedTree a) pp).
Proof.
  intros Hwf Hnorm Hroot Habs ref a fn Hin. subst ref.
  assert (Hfn : RealPath fn = p).
  { repeat (apply elem_of_cons in Hin as [[= _ ->]|Hin]; [done|]).
    by apply elem_of_nil in Hin. }
  destruct (add_fresh t fn Hwf) as (t1 & t' & H1 & H2 & Hn & Hwf' & Hpp);
    [by rewrite Hfn..|].
  rewrite Hfn in H1, Hn, Hpp.
  assert (Ha : a = (Some (fileref.mkReference nextID p), None, t', S nextID)).
  { repeat (apply elem_of_cons in Hin as [[= -> ->]|Hin];
            [ unfold AddFile, AddDir, AddSymLink, AddHardLink, nodeDirect, IDByPath;
              rewrite Habs, H1; cbn; by rewrite H2 |]).
    by apply elem_of_nil in Hin. }
  by rewrite Ha.
Qed.

Lemma add_fresh_path_succeeds_witness :
  let ref := fileref.mkReference 1 "/etc/ssl/cert" in
  WF lowerPasswd ∧ Normalize "/etc/ssl/cert" = "/etc/ssl/cert"
  ∧ tree.Node lowerPasswd "/etc/ssl/cert" = None
  ∧ AddSymLink lowerPasswd 1 "/etc/ssl/cert" "../passwd"
    = (Some ref, None, addedTree (AddSymLink lowerPasswd 1 "/etc/ssl/cert" "../passwd"), 2)
  ∧ tree.Node (addedTree (AddSymLink lowerPasswd 1 "/etc/ssl/cert" "../passwd")) "/etc/ssl/cert"
    = Some (NewSymLink "/etc/ssl/cert" "../passwd" (Some ref)).
Proof.
  intros ref.
  assert (Hwf : WF lowerPasswd).
  { apply reachable_WF. apply (reach_AddFile NewFileTree 0 "/etc/passwd"). constructor. }
  assert (Hn : Normalize "/etc/ssl/cert" = "/etc/ssl/cert") by (by vm_compute).
  assert (Ha : tree.Node lowerPasswd "/etc/ssl/cert" = None) by (by vm_compute).
  assert (Hr : "/etc/ssl/cert" ≠ "/") by done.
  split; [done|]. split; [done|]. split; [done|].
  destruct (add_fresh_path_succeeds lowerPasswd 1 "/etc/ssl/cert" "../passwd" Hwf Hn Hr Ha
              (AddSymLink lowerPasswd 1 "/etc/ssl/cert" "../passwd")
              (NewSymLink "/etc/ssl/cert" "../passwd" (Some ref)))
    as (H1 & H2 & _).
  - apply list_elem_of_further, list_elem_of_further, list_elem_of_here.
  - by split.
Defined.

(** ** Listing a directory *)

Lemma normalKeysb_normalKeys t : normalKeysb t = true → normalKeys t.
Proof.
  unfold normalKeysb, normalKeys, tree.Node. rewrite bool_decide_eq_true.
  intros H k n Hk. by apply (H k n).
Qed.

Section ListPathsFacts.
Variable t : tree.Tree.
Hypothesis Hwf : WF t.
Hypothesis Hfree : linkFree t.
Hypothesis Hnormal : normalKeys t.

Lemma ChildIDs_present pp k : k ∈ tree.ChildIDs t pp → is_Some (tree.Node t k).
Proof.
  intros Hk. apply (wf_children t Hwf) in Hk.
  by destruct (wf_linked t Hwf _ _ Hk).
Qed.

Lemma listChildren_linkFree fuel dir ids :
  ∀ listing,
    (∀ k, k ∈ ids → is_Some (tree.Node t k)) →
    listChildren (S fuel) t dir (omap (tree.Node t) ids) listing
    = Some ((listing ++ map (λ k, GoPath.Join [dir; Basename k]) ids)%list, None).
Proof.
  induction ids as [|k ids IH]; intros listing Hall.
  - simpl. by rewrite app_nil_r.
  - destruct (Hall k) as [c Hc]; [apply list_elem_of_here|].
    cbn [omap list_omap]. rewrite Hc. cbn [listChildren].
    rewrite (wf_keyed t Hwf _ _ Hc).
    destruct (node_linkFree t Hwf Hfree fuel k (mkStrategy true false false))
      as (q & Hq & Hfound); [done|].
    rewrite (Hnormal _ _ Hc) in Hq, Hfound. rewrite Hq.
    rewrite (Hfound ltac:(by rewrite Hc)).
    rewrite IH by (intros k' Hk'; by apply Hall, list_elem_of_further).
    by rewrite <- app_assoc.
Qed.

Lemma ListPaths_linkFree fuel dir :
  ListPaths (S fuel) t dir
  = Some (match tree.Node t (Normalize dir) with
          | Some n =>
              if bool_decide (FileType n = fileref.TypeDir)
              then map (λ k, GoPath.Join [dir; Basename k]) (tree.ChildIDs t (Normalize dir))
              else []
          | None => []
          end, None).
Proof.
  unfold ListPaths.
  destruct (node_linkFree t Hwf Hfree fuel dir (mkStrategy true true false))
    as (q & Hq & _); [done|].
  rewrite Hq. destruct (tree.Node t (Normalize dir)) as [n|] eqn:En; [|done].
  case_bool_decide; [|done]. cbn [negb].
  unfold tree.Children, ID, IDByPath. rewrite (wf_keyed t Hwf _ _ En).
  rewrite listChildren_linkFree; [done|].
  intros k Hk. by apply (ChildIDs_present (Normalize dir)).
Qed.

End ListPathsFacts.

(** X10. In a well-formed tree without links whose keys are normalized
    paths, [ListPaths] returns with one unit of fuel and never reports an
    error.  For a directory stored at the normal form of [dir] it lists the
    children of that node in their stored order, one entry for each: the
    directory as it was given, joined with the basename of the child.  For
    a path that is absent or holds a node of another kind it lists
    nothing. *)
Theorem ListPaths_lists_children t fuel dir :
  WF t → linkFree t → normalKeys t →
  ListPaths (S fuel) t dir
  = Some (match tree.Node t (Normalize dir) with
          | Some n =>
              if bool_decide (FileType n = fileref.TypeDir)
              then map (λ k, GoPath.Join [dir; Basename k]) (tree.ChildIDs t (Normalize dir))
              else []
          | None => []
          end, None).
Proof. intros Hwf Hfree Hnormal. by apply ListPaths_linkFree. Qed.

Lemma ListPaths_lists_children_witness :
  WF etcTree ∧ linkFree etcTree ∧ normalKeys etcTree
  ∧ ListPaths 1 etcTree "etc/" = Some (["etc/passwd"; "etc/group"], None)
  ∧ ListPaths 1 etcTree "/bin/sh" = Some ([], None).
Proof.
  assert (Hwf : WF etcTree).
  { assert (E : etcTree
                = addedTree (AddFile (addedTree (AddFile (addedTree
                    (AddFile NewFileTree 0 "/etc/passwd")) 1 "/bin/sh")) 2 "/etc/group"))
      by (vm_compute; reflexivity).
    rewrite E. apply reachable_WF. repeat apply reach_AddFile. constructor. }
  assert (Hfree : linkFree etcTree) by (by apply linkFreeb_linkFree; vm_compute).
  assert (Hnormal : normalKeys etcTree) by (by apply normalKeysb_normalKeys; vm_compute).
  split; [done|]. split; [done|]. split; [done|]. split.
  - rewrite (ListPaths_lists_children etcTree 0 "etc/" Hwf Hfree Hnormal). by vm_compute.
  - rewrite (ListPaths_lists_children etcTree 0 "/bin/sh" Hwf Hfree Hnormal). by vm_compute.
Defined.

(** ** Removing, then looking up *)

Section RemoveLookup.
Variable t : tree.Tree.
Hypothesis Hwf : WF t.
Hypothesis Hfree : linkFree t.

Lemma Normalize_idem p : Normalize (Normalize p) = Normalize p.
Proof.
  destruct (Normalize_is_normalOf p) as (out & -> & Hall). by apply Normalize_normalOf.
Qed.

Lemma RemovePath_linkFree fuel p :
  Normalize p ≠ "/" →
  ∃ t', RemovePath (S fuel) t p = Some (None, t')
        ∧ WF t' ∧ linkFree t'
        ∧ (∀ k n, tree.Node t' k = Some n → tree.Node t k = Some n)
        ∧ tree.Node t' (Normalize p) = None
        ∧ (tree.Node t (Normalize p) = None → t' = t).
Proof.
  intros Hne.
  destruct (node_linkFree t Hwf Hfree fuel p (mkStrategy true false false))
    as (q & Hq & Hfound); [done|].
  destruct (tree.Node t (Normalize p)) as [fn|] eqn:En.
  - rewrite (Hfound ltac:(done)) in Hq.
    destruct (RemovePath_subtree _ _ _ _ _ Hwf Hne Hq)
      as (_ & t' & HR & Hwf' & Hgone & _ & _ & Hl).
    assert (Hsub : ∀ k n, tree.Node t' k = Some n → tree.Node t k = Some n).
    { intros k n. rewrite Hl. by destruct (decide _). }
    exists t'. do 2 (split; [done|]).
    split; [intros k n Hk; by apply (Hfree k), Hsub|].
    by do 2 (split; [done|]).
  - exists t. split; [by apply (RemovePath_absent _ _ _ q)|]. by do 4 (split; [done|]).
Qed.

End RemoveLookup.

(** X11. In a well-formed tree without links, [RemovePath] on a path that
    does not normalize to the root returns without error; the tree after it
    is well formed and without links, holds only nodes that were there
    before, and has no node at the normal form of the path: [HasPath] is
    false there and [File] finds nothing, whatever the options.  When no
    node is stored at the normal form of the path the tree is unchanged,
    also when a node is stored under the path as it was given. *)
Theorem RemovePath_then_absent t fuel p :
  WF t → linkFree t → Normalize p ≠ "/" →
  ∃ t', RemovePath (S fuel) t p = Some (None, t')
        ∧ WF t' ∧ linkFree t'
        ∧ (∀ k n, tree.Node t' k = Some n → tree.Node t k = Some n)
        ∧ HasPath (S fuel) t' (Normalize p) = Some false
        ∧ (∀ opts, File (S fuel) t' (Normalize p) opts = Some (false, None, None))
        ∧ (tree.Node t (Normalize p) = None → t' = t).
Proof.
  intros Hwf Hfree Hne.
  destruct (RemovePath_linkFree t Hwf Hfree fuel p Hne)
    as (t' & HR & Hwf' & Hfree' & Hsub & Hgone & Hsame).
  exists t'. do 4 (split; [done|]). split; [|split; [|done]].
  - rewrite (HasPath_linkFree t' Hwf' Hfree'), Normalize_idem, Hgone.
    apply f_equal, bool_decide_eq_false_2. by intros [[? ?]|[? ?]].
  - intros opts.
    by rewrite (File_linkFree t' Hwf' Hfree'), Normalize_idem, Hgone.
Qed.

Lemma RemovePath_then_absent_witness :
  WF etcTree ∧ linkFree etcTree ∧ Normalize "etc/./" ≠ "/"
  ∧ ∃ t', RemovePath 1 etcTree "etc/./" = Some (None, t')
          ∧ HasPath 1 t' "/etc" = Some false
          ∧ tree.Node t' "/etc/passwd" = None
          ∧ tree.HasNode t' "/bin/sh" = true.
Proof.
  assert (Hwf : WF etcTree).
  { assert (E : etcTree
                = addedTree (AddFile (addedTree (AddFile (addedTree
                    (AddFile NewFileTree 0 "/etc/passwd")) 1 "/bin/sh")) 2 "/etc/group"))
      by (vm_compute; reflexivity).
    rewrite E. apply reachable_WF. repeat apply reach_AddFile. constructor. }
  assert (Hfree : linkFree etcTree) by (by apply linkFreeb_linkFree; vm_compute).
  assert (Hne : Normalize "etc/./" ≠ "/") by (by vm_compute).
  split; [done|]. split; [done|]. split; [done|].
  destruct (RemovePath_then_absent etcTree 0 "etc/./" Hwf Hfree Hne)
    as (t' & HR & _ & _ & _ & HH & _).
  exists t'. split; [done|]. split; [exact HH|].
  assert (E : Some (None, t') = RemovePath 1 etcTree "etc/./") by (by rewrite HR).
  vm_compute in E. injection E as ->. split; by vm_compute.
Defined.

(** ** Merging an empty layer *)

Section EmptyUpper.

Lemma hasOpaqueDirectory_empty fuel :
  hasOpaqueDirectory fuel NewFileTree "/" = Some false.
Proof.
  unfold hasOpaqueDirectory. apply (HasPath_mono 0); [lia|]. by vm_compute.
Qed.

Lemma graft_same_root t d :
  tree.Node t "/" = Some d → RealPath d = "/" → FileType d = fileref.TypeDir →
  LinkPath d = "" →
  graft t (NewDir "/" None) = (None, t).
Proof.
  intros Hd Hp Hk Hl. unfold graft, nodeDirect, IDByPath. cbn [RealPath NewDir].
  rewrite Hd.
  assert (Hcopy : nodeCopyFor (NewDir "/" None) (Some d) = d).
  { destruct d as [rp ft lp r]. simpl in *. subst. by destruct r. }
  rewrite Hcopy. unfold setFileNode, IDByPath. rewrite Hp, Hd.
  unfold tree.Replace, ID, IDByPath. rewrite Hp.
  rewrite (proj2 (HasNode_true t "/")) by (by rewrite Hd).
  cbn. f_equal. destruct t as [ns ch pa ro]. unfold tree.Node in Hd. simpl in *.
  f_equal. by apply insert_id.
Qed.

Lemma merge_empty fuel t d :
  tree.Node t "/" = Some d → RealPath d = "/" → FileType d = fileref.TypeDir →
  LinkPath d = "" →
  merge fuel t NewFileTree = Some (None, t).
Proof.
  intros Hd Hp Hk Hl. unfold merge, walker.WalkAll.
  change (tree.root NewFileTree) with (Some "/").
  change (tree.Length NewFileTree) with 1.
  cbn [walker.Walk].
  change (tree.Node NewFileTree "/") with (Some (NewDir "/" None)).
  change (tree.ChildIDs NewFileTree "/") with (@nil string).
  unfold walker.visit.
  change (negb (IsDirWhiteout (ID (NewDir "/" None)))) with true.
  change (negb (IsWhiteout (ID (NewDir "/" None)))) with true.
  cbn iota.
  unfold mergeVisitor, opaqueStep. cbn [RealPath NewDir].
  rewrite hasOpaqueDirectory_empty. unfold whiteoutOrGraft. cbn [RealPath NewDir].
  change (IsWhiteout "/") with false. cbn iota.
  by rewrite (graft_same_root t d).
Qed.

End EmptyUpper.

(** X12. Merging an empty upper tree, which holds the root alone, onto a
    lower tree whose root is a directory changes nothing: [merge] returns
    without error, for every fuel, and the lower tree is as it was. *)
Theorem merge_empty_upper fuel t d :
  tree.Node t "/" = Some d → RealPath d = "/" → FileType d = fileref.TypeDir →
  LinkPath d = "" →
  merge fuel t NewFileTree = Some (None, t).
Proof. apply merge_empty. Qed.

Lemma merge_empty_upper_witness :
  tree.Node etcTree "/" = Some (NewDir "/" None)
  ∧ merge 0 etcTree NewFileTree = Some (None, etcTree).
Proof.
  assert (Hd : tree.Node etcTree "/" = Some (NewDir "/" None)) by (by vm_compute).
  split; [done|].
  by apply (merge_empty_upper 0 etcTree (NewDir "/" None)).
Defined.

(** ** Opaque directories in a merge *)

Section Opaque.


End Opaque.

Section WalkExt.
Context {St : Type}.
Variable t : tree.Tree.
Variables v v' : FileNode → St → option (option error * St).
Variables ShouldContinueBranch ShouldVisit ShouldVisit' : FileNode → bool.
Hypothesis Hvisit :
  ∀ n st, walker.visit v ShouldVisit n st = walker.visit v' ShouldVisit' n st.




End WalkExt.




(** ** A link among the ancestors *)

Section AncestorRedirect.
Variable t : tree.Tree.
Variable follow : FileNode → option Resolved.

(** Past the first element, the loop uses its index and the number of
    elements only to tell the last element. *)
Lemma ancestorLoop_shift :
  ∀ parts idx len idx' len' s cp cn,
    1 ≤ idx → 1 ≤ idx' → idx + length parts = len → idx' + length parts = len' →
    ancestorLoop t follow parts idx len s cp cn
    = ancestorLoop t follow parts idx' len' s cp cn.
Proof.
  induction parts as [|part rest IH]; intros idx len idx' len' s cp cn H1 H1' Hl Hl';
    [done|]. cbn [ancestorLoop length] in *.
  assert (E0 : (idx =? 0) = false) by (apply Nat.eqb_neq; lia).
  assert (E0' : (idx' =? 0) = false) by (apply Nat.eqb_neq; lia).
  assert (EL : (idx =? len - 1) = (idx' =? len' - 1)).
  { destruct rest as [|y rest].
    - rewrite (proj2 (Nat.eqb_eq idx (len - 1))) by (simpl in *; lia).
      by rewrite (proj2 (Nat.eqb_eq idx' (len' - 1))) by (simpl in *; lia).
    - rewrite (proj2 (Nat.eqb_neq idx (len - 1))) by (simpl in *; lia).
      by rewrite (proj2 (Nat.eqb_neq idx' (len' - 1))) by (simpl in *; lia). }
  rewrite E0, E0', !andb_false_r, EL.
  assert (IH' : ∀ s cp cn, ancestorLoop t follow rest (S idx) len s cp cn
                           = ancestorLoop t follow rest (S idx') len' s cp cn)
    by (intros; apply IH; lia).
  destruct (nodeDirect t _) as [[cp1 [c|]] [e|]]; try done.
  destruct (Reference c); [|apply IH'].
  destruct (negb (idx' =? len' - 1) && IsLink c); [|apply IH'].
  by destruct (follow c) as [[[p n] [e|]]|].
Qed.

(** Elements walked without following a link. *)
Lemma ancestorLoop_plain rest len :
  ∀ mid pre idx cp cn,
    1 ≤ idx → Forall properSeg pre → Forall properSeg mid →
    (∀ r, r ∈ prefixes mid →
          ∃ n, tree.Node t (normalOf (pre ++ r)) = Some n
               ∧ (Reference n = None ∨ IsLink n = false)) →
    (mid = [] → cp = normalOf pre ∧ cn = tree.Node t (normalOf pre)) →
    ancestorLoop t follow (mid ++ rest) idx len (accOf pre) cp cn
    = ancestorLoop t follow rest (idx + length mid) len (accOf (pre ++ mid))
        (normalOf (pre ++ mid)) (tree.Node t (normalOf (pre ++ mid))).
Proof.
  induction mid as [|y mid IH]; intros pre idx cp cn Hidx Hpre Hmid Hplain Hst.
  - destruct (Hst eq_refl) as [-> ->]. by rewrite app_nil_r, Nat.add_0_r.
  - inversion Hmid as [|? ? Hy Hmid']; subst.
    cbn [app ancestorLoop length].
    assert (E0 : (idx =? 0) = false) by (apply Nat.eqb_neq; lia).
    rewrite E0, andb_false_r, (Normalize_accOf pre y Hpre Hy).
    unfold nodeDirect, IDByPath.
    destruct (Hplain [y]) as (n & Hn & Hnl); [apply list_elem_of_here|].
    rewrite Hn.
    assert (Hacc : accOf (pre ++ [y]) = normalOf (pre ++ [y])) by (by destruct pre).
    assert (Hnext : ancestorLoop t follow (mid ++ rest) (S idx) len
                      (normalOf (pre ++ [y])) (normalOf (pre ++ [y])) (Some n)
                    = ancestorLoop t follow rest (idx + S (length mid)) len
                        (accOf (pre ++ y :: mid)) (normalOf (pre ++ y :: mid))
                        (tree.Node t (normalOf (pre ++ y :: mid)))).
    { rewrite <- Hacc at 1.
      rewrite (IH (pre ++ [y])%list (S idx) (normalOf (pre ++ [y])) (Some n)).
      - rewrite <- app_assoc. cbn [app]. f_equal. lia.
      - lia.
      - apply Forall_app. split; [done|by constructor].
      - done.
      - intros r Hr. rewrite <- app_assoc. apply Hplain.
        cbn [prefixes]. apply list_elem_of_further, list_elem_of_In, in_map.
        by apply list_elem_of_In.
      - by intros _. }
    destruct (Reference n) as [ref|]; [|exact Hnext].
    destruct Hnl as [?|Hl]; [done|]. rewrite Hl, andb_false_r. exact Hnext.
Qed.

End AncestorRedirect.

Section AncestorRedirectResolve.
Variable t : tree.Tree.
Hypothesis Hkeyed : keyed t.

Lemma plainPath_app pre r :
  plainPath t pre → r ∈ prefixes pre →
  ∃ n, tree.Node t (normalOf ([] ++ r)) = Some n ∧ (Reference n = None ∨ IsLink n = false).
Proof. intros H Hr. by apply H. Qed.

Lemma resolveAncestorLinks_redirect fuel pre x rest l pre' d :
  Forall properSeg (pre ++ x :: rest) → Forall properSeg pre' →
  rest ≠ [] → pre' ≠ [] →
  plainPath t pre →
  tree.Node t (normalOf (pre ++ [x])) = Some l →
  is_Some (Reference l) → IsLink l = true →
  resolveNodeLinks fuel t l true = Some (normalOf pre', Some d, None) →
  plainPath t pre' →
  resolveAncestorLinks fuel t (normalOf (pre ++ x :: rest))
  = resolveAncestorLinks fuel t (normalOf (pre' ++ rest)).
Proof.
  intros Hall Hpre' Hrest Hne Hplain Hl [ref Href] Hlink Hfollow Hplain'.
  pose proof Hall as Hall0.
  apply Forall_app in Hall as [Hpre Hxr]. inversion Hxr as [|? ? Hx Hr]; subst.
  assert (Hall' : Forall properSeg (pre' ++ rest)) by (by apply Forall_app).
  assert (Hd : tree.Node t (normalOf pre') = Some d).
  { apply (nodeLinksLoop_found t Hkeyed fuel ∅ "" None (RealPath l) (Some l)); [|done].
    intros c [= <-]. by rewrite (Hkeyed _ _ Hl). }
  unfold resolveAncestorLinks, resolveAncestorLinksWith.
  rewrite (Normalize_normalOf _ Hall0), (Normalize_normalOf _ Hall').
  unfold normalOf at 1 2 3 4.
  rewrite !Split_sep, !Split_JoinSep; [|done|by destruct pre'|done|by destruct pre].
  set (f := λ n, resolveNodeLinks fuel t n true).
  change (ancestorLoop t f ("" :: ?l) 0 ?len "" "" None)
    with (ancestorLoop t f l 1 len (accOf []) "" None).
  (* the right-hand side walks [pre'] *)
  rewrite (ancestorLoop_plain t f rest _ pre' [] 1 "" None); [|lia|done|done| |by destruct pre'].
  2:{ intros r Hin. by apply (plainPath_app pre'). }
  cbn [app]. rewrite Hd.
  assert (Hacc' : accOf pre' = normalOf pre') by (by destruct pre').
  rewrite Hacc'.
  (* the left-hand side walks [pre], then meets the link *)
  replace (pre ++ x :: rest)%list with (pre ++ [x] ++ rest)%list by done.
  destruct rest as [|y rest]; [done|].
  assert (Hstep : ∀ idx len cp cn,
            1 ≤ idx → idx + length (x :: y :: rest) = len →
            ancestorLoop t f (x :: y :: rest) idx len (accOf pre) cp cn
            = ancestorLoop t f (y :: rest) (S idx) len (normalOf pre') (normalOf pre') (Some d)).
  { intros idx len cp cn Hidx Hlen. cbn [ancestorLoop].
    assert (E0 : (idx =? 0) = false) by (apply Nat.eqb_neq; lia).
    assert (EL : (idx =? len - 1) = false) by (apply Nat.eqb_neq; simpl in Hlen; lia).
    rewrite E0, andb_false_r, (Normalize_accOf pre x Hpre Hx).
    unfold nodeDirect, IDByPath. rewrite Hl, Href, EL, Hlink. cbn [negb andb].
    unfold f at 1. by rewrite Hfollow. }
  destruct pre as [|z pre].
  - cbn [app]. rewrite Hstep; [|lia|done].
    apply ancestorLoop_shift; try lia;
      cbn [length app]; rewrite ?length_app; cbn [length]; lia.
  - rewrite (ancestorLoop_plain t f ([x] ++ y :: rest) _ (z :: pre) [] 1 "" None);
      [|lia|done|done| |done].
    2:{ intros r Hin. by apply (plainPath_app (z :: pre)). }
    cbn [app]. change (accOf ([] ++ z :: pre)) with (accOf (z :: pre)).
    rewrite Hstep; [|lia|cbn [length app]; rewrite ?length_app; cbn [length]; lia].
    apply ancestorLoop_shift; try lia;
      cbn [length app]; rewrite ?length_app; cbn [length]; lia.
Qed.

End AncestorRedirectResolve.

(** X14. A link among the ancestors of a path redirects the resolution.
    Let the elements [pre] be walked without following a link, let the node
    [l] stored at the next element [x] be a link with a reference, not the
    last element of the path, and let the resolution of [l] return the node
    [d] under the normalized path with the elements [pre'], not the root,
    itself walked without following a link.  Then resolving the path with
    the elements [pre], [x], [rest] gives what resolving the path with the
    elements [pre'], [rest] gives, for every strategy that follows ancestor
    links: the same path, node and error, or neither returns. *)
Theorem ancestor_link_redirects t fuel pre x rest l pre' d :
  keyed t →
  Forall properSeg (pre ++ x :: rest) → Forall properSeg pre' →
  rest ≠ [] → pre' ≠ [] →
  plainPath t pre →
  tree.Node t (normalOf (pre ++ [x])) = Some l →
  is_Some (Reference l) → IsLink l = true →
  resolveNodeLinks fuel t l true = Some (normalOf pre', Some d, None) →
  plainPath t pre' →
  ∀ s, FollowAncestorLinks s = true →
       node fuel t (normalOf (pre ++ x :: rest)) s
       = node fuel t (normalOf (pre' ++ rest)) s.
Proof.
  intros Hk Hall Hpre' Hrest Hne Hplain Hl Href Hlink Hfollow Hplain' s Hs.
  unfold node, FollowLinks. rewrite Hs. cbn [orb negb].
  by rewrite (resolveAncestorLinks_redirect t Hk fuel pre x rest l pre' d).
Qed.

Lemma ancestor_link_redirects_witness :
  let l := NewSymLink "/link" "/target" (Some (fileref.mkReference 1 "/link")) in
  let d := NewDir "/target" None in
  keyed linkAndTarget
  ∧ tree.Node linkAndTarget "/link" = Some l
  ∧ resolveNodeLinks 2 linkAndTarget l true = Some ("/target", Some d, None)
  ∧ node 2 linkAndTarget "/link/x" (mkStrategy true false false)
    = node 2 linkAndTarget "/target/x" (mkStrategy true false false)
  ∧ node 2 linkAndTarget "/target/x" (mkStrategy true false false)
    = Some ("/target/x",
            Some (NewFile "/target/x" (Some (fileref.mkReference 0 "/target/x"))), None).
Proof.
  intros l d.
  assert (Hk : keyed linkAndTarget) by (by apply keyedb_keyed; vm_compute).
  assert (Hl : tree.Node linkAndTarget (normalOf ([] ++ ["link"])) = Some l) by (by vm_compute).
  assert (Hf : resolveNodeLinks 2 linkAndTarget l true = Some (normalOf ["target"], Some d, None))
    by (by vm_compute).
  assert (Hp : ∀ s, s ∈ ["link"; "x"; "target"] → properSeg s).
  { intros s Hs.
    repeat (apply elem_of_cons in Hs as [->|Hs]; [by unfold properSeg; repeat split|]).
    by apply elem_of_nil in Hs. }
  split; [done|]. split; [exact Hl|]. split; [exact Hf|]. split; [|by vm_compute].
  assert (Hall : Forall properSeg ([] ++ "link" :: ["x"])).
  { constructor; [apply Hp, list_elem_of_here|].
    constructor; [apply Hp, list_elem_of_further, list_elem_of_here|constructor]. }
  assert (Hpre' : Forall properSeg ["target"]).
  { constructor; [|constructor].
    apply Hp, list_elem_of_further, list_elem_of_further, list_elem_of_here. }
  assert (Hplain : plainPath linkAndTarget []) by (by intros r ?%elem_of_nil).
  assert (Hplain' : plainPath linkAndTarget ["target"]).
  { intros r ->%list_elem_of_singleton. exists d. split; [by vm_compute|by left]. }
  exact (ancestor_link_redirects linkAndTarget 2 [] "link" ["x"] l ["target"] d
           Hk Hall Hpre' ltac:(discriminate) ltac:(discriminate) Hplain Hl
           (ex_intro _ _ eq_refl) eq_refl Hf Hplain'
           (mkStrategy true false false) eq_refl).
Defined.

(** ** Trees of files and directories *)

Section WalkStored.
Context {St : Type}.
Variable P : St → Prop.
Variable t : tree.Tree.
Variable visitor : FileNode → St → option (option error * St).
Variables ShouldContinueBranch ShouldVisit : FileNode → bool.
Hypothesis Hvisit :
  ∀ id n st e st', tree.Node t id = Some n → P st → visitor n st = Some (e, st') → P st'.

(** The walk hands the visitor nodes of the tree only. *)
Lemma Walk_stored_preserves depth :
  ∀ id st e st', P st →
                 walker.Walk t visitor ShouldContinueBranch ShouldVisit depth id st
                 = Some (e, st') →
                 P st'.
Proof.
  induction depth as [|d IH]; intros id st e st' Hst; simpl;
    (destruct (tree.Node t id) as [n|] eqn:En; [|by intros [= _ <-]]);
    unfold walker.visit;
    (destruct (ShouldVisit n);
     [destruct (visitor n st) as [[[err|] st1]|] eqn:Ev;
      [intros [= _ <-]; by apply (Hvisit id n st (Some err))| |done];
      pose proof (Hvisit id n st None st1 En Hst Ev) as Hst1
     |pose proof Hst as Hst1; set (st1 := st)]);
    (destruct (ShouldContinueBranch n); [|by intros [= _ <-]]).
  - by intros [= _ <-].
  - by intros [= _ <-].
  - unfold walker.walk_children. apply (walk_children_preserves P); [apply IH|].
    by intros e0 st0 [= _ <-].
  - unfold walker.walk_children. apply (walk_children_preserves P); [apply IH|].
    by intros e0 st0 [= _ <-].
Qed.

Lemma WalkAll_stored_preserves st e st' :
  P st → walker.WalkAll t visitor ShouldContinueBranch ShouldVisit st = Some (e, st') → P st'.
Proof.
  intros Hst. unfold walker.WalkAll. destruct (tree.root t); [|by intros [= _ <-]].
  by apply Walk_stored_preserves.
Qed.

End WalkStored.

Section Plain.

Lemma plain_sub t t' :
  plain t → (∀ k n, tree.Node t' k = Some n → tree.Node t k = Some n) → plain t'.
Proof. intros Hp Hsub k n Hk. by apply Hp, Hsub. Qed.

Lemma plain_split t : plain t ↔ linkFree t ∧ normalKeys t.
Proof.
  split.
  - intros Hp. split; intros k n Hk; by destruct (Hp k n Hk).
  - intros [Hl Hn] k n Hk. split; [by apply (Hl k)|by apply (Hn k n)].
Qed.

Lemma plain_NewTree : plain NewFileTree.
Proof.
  intros k n. unfold NewFileTree, tree.Node. simpl. unfold ID, IDByPath. simpl.
  rewrite lookup_insert_Some. intros [[<- <-]|[_ H]]; [done|].
  by rewrite lookup_empty in H.
Qed.

Lemma setFileNode_fail t fn err t' : setFileNode t fn = (Some err, t') → t' = t.
Proof.
  unfold setFileNode, nodeDirect, stored.
  destruct (tree.Node t (IDByPath (RealPath fn))).
  - destruct (tree.Replace t _ fn); by intros [= _ <-].
  - destruct (ParentPath (RealPath fn)); [|by intros [= _ <-]].
    destruct (tree.Node t _); [|by intros [= _ <-]].
    destruct (tree.AddChild t _ fn); by intros [= _ <-].
Qed.

Lemma setFileNode_plain t fn e t' :
  plain t → IsLink fn = false → Normalize (RealPath fn) = RealPath fn →
  setFileNode t fn = (e, t') → plain t'.
Proof.
  intros Hp Hl Hn HS. destruct e as [err|].
  - by rewrite (setFileNode_fail _ _ _ _ HS).
  - destruct (setFileNode_lookup _ _ _ HS) as [Hnew Hother]. intros k n Hk.
    destruct (decide (k = RealPath fn)) as [->|Hne].
    + rewrite Hnew in Hk. by injection Hk as <-.
    + rewrite (Hother _ Hne) in Hk. by apply Hp.
Qed.

Lemma addDirs_plain paths :
  ∀ t e t', plain t → Forall (λ q, Normalize q = q) paths →
            addDirs t paths = (e, t') → plain t'.
Proof.
  induction paths as [|q rest IH]; intros t e t' Hp Hall; simpl; [by intros [= _ <-]|].
  inversion Hall as [|? ? Hq Hrest]; subst.
  destruct (setFileNode t (NewDir q None)) as [[err|] t1] eqn:ES.
  - intros [= _ <-]. by apply (setFileNode_plain _ _ _ _ Hp) in ES.
  - apply (setFileNode_plain _ _ _ _ Hp) in ES; [|done|done]. by apply IH.
Qed.

Lemma prefixes_Forall {A} (Q : A → Prop) (l : list A) :
  Forall Q l → ∀ r, r ∈ prefixes l → Forall Q r.
Proof.
  induction 1 as [|x l Hx Hl IH]; intros r; simpl; [by intros ?%elem_of_nil|].
  intros [->|Hr]%elem_of_cons; [by repeat constructor|].
  apply list_elem_of_In, in_map_iff in Hr as (r' & <- & Hr').
  constructor; [done|]. by apply IH, list_elem_of_In.
Qed.

Lemma ConstituentPaths_normal p q : q ∈ ConstituentPaths p → Normalize q = q.
Proof.
  destruct (Normalize_is_normalOf p) as (out & E & Hall).
  assert (EC : ConstituentPaths p = ConstituentPaths (normalOf out)).
  { unfold ConstituentPaths. by rewrite E, (Normalize_normalOf _ Hall). }
  rewrite EC, (ConstituentPaths_normalOf _ Hall).
  intros [->|Hq]%elem_of_cons; [by vm_compute|].
  apply list_elem_of_In, in_map_iff in Hq as (r & <- & Hr).
  apply Normalize_normalOf, (prefixes_Forall _ out); [done|by apply list_elem_of_In].
Qed.

Lemma pathsToAdd_subset t l x : x ∈ pathsToAdd t l → x ∈ l.
Proof.
  induction l as [|p rest IH]; simpl; [done|].
  destruct (tree.Node t (IDByPath p)); [by intros ?%elem_of_nil|].
  intros [->|H]%elem_of_cons; [apply list_elem_of_here|by apply list_elem_of_further, IH].
Qed.

Lemma addParentPaths_plain t p e t' :
  plain t → addParentPaths t p = (e, t') → plain t'.
Proof.
  intros Hp. unfold addParentPaths, nodeDirect.
  destruct (ParentPath p); [|by intros [= _ <-]].
  destruct (tree.Node t _); [by intros [= _ <-]|].
  apply addDirs_plain; [done|]. apply Forall_forall. intros q Hq.
  apply (ConstituentPaths_normal p).
  apply list_elem_of_In, in_rev, list_elem_of_In, pathsToAdd_subset in Hq.
  by apply list_elem_of_In, in_rev, list_elem_of_In in Hq.
Qed.

Lemma assignReference_plain t p fn ref :
  plain t → tree.Node t p = Some fn → plain (assignReference t p fn ref).
Proof.
  intros Hp Hfn k n Hk. destruct (assignReference_spec t p fn ref) as [Hnew Hother].
  destruct (decide (k = p)) as [->|Hne].
  - rewrite Hnew in Hk. injection Hk as <-. by apply (Hp p fn).
  - rewrite (Hother _ Hne) in Hk. by apply Hp.
Qed.

Lemma AddFile_plain t nextID p :
  plain t → Normalize p = p → plain (addedTree (AddFile t nextID p)).
Proof.
  intros Hp Hn. unfold AddFile, nodeDirect, IDByPath.
  destruct (tree.Node t p) as [fn|] eqn:Efn.
  - destruct (negb _); [done|]. destruct (Reference fn); [done|].
    by apply assignReference_plain.
  - destruct (addParentPaths t p) as [[err|] t1] eqn:EP;
      apply (addParentPaths_plain _ _ _ _ Hp) in EP; [done|]. cbn.
    destruct (setFileNode t1 _) as [e t2] eqn:ES.
    by apply (setFileNode_plain _ _ _ _ EP) in ES.
Qed.

Lemma AddDir_plain t nextID p :
  plain t → Normalize p = p → plain (addedTree (AddDir t nextID p)).
Proof.
  intros Hp Hn. unfold AddDir, nodeDirect, IDByPath.
  destruct (tree.Node t p) as [fn|] eqn:Efn.
  - destruct (negb _); [done|]. destruct (Reference fn); [done|].
    by apply assignReference_plain.
  - destruct (addParentPaths t p) as [[err|] t1] eqn:EP;
      apply (addParentPaths_plain _ _ _ _ Hp) in EP; [done|]. cbn.
    destruct (setFileNode t1 _) as [e t2] eqn:ES.
    by apply (setFileNode_plain _ _ _ _ EP) in ES.
Qed.

Lemma RemoveNode_sub t n t' cnt k m :
  tree.RemoveNode t n = inr (t', cnt) → tree.Node t' k = Some m → tree.Node t k = Some m.
Proof. intros H. rewrite (RemoveNode_lookup _ _ _ _ k H). by case_decide. Qed.

Lemma RemovePath_sub fuel t p e t' k m :
  RemovePath fuel t p = Some (e, t') → tree.Node t' k = Some m → tree.Node t k = Some m.
Proof.
  unfold RemovePath. destruct (String.eqb (Normalize p) "/"); [by intros [= _ <-]|].
  destruct (node fuel t p _) as [[[cp [fn|]] [err|]]|]; try (by intros [= _ <-]).
  destruct (tree.RemoveNode t fn) as [err|[t1 cnt]] eqn:ER; [by intros [= _ <-]|].
  intros [= _ <-]. by apply (RemoveNode_sub t fn t1 cnt).
Qed.

Lemma removeNodes_sub children :
  ∀ t e t' k m, removeNodes t children = (e, t') →
                tree.Node t' k = Some m → tree.Node t k = Some m.
Proof.
  induction children as [|c rest IH]; intros t e t' k m; simpl; [by intros [= _ <-]|].
  destruct (tree.RemoveNode t c) as [err|[t1 cnt]] eqn:ER; [by intros [= _ <-]|].
  intros H Hk. apply (RemoveNode_sub t c t1 cnt); [done|]. by apply (IH t1 e t').
Qed.

Lemma RemoveChildPaths_sub fuel t p e t' k m :
  RemoveChildPaths fuel t p = Some (e, t') →
  tree.Node t' k = Some m → tree.Node t k = Some m.
Proof.
  unfold RemoveChildPaths.
  destruct (node fuel t p _) as [[[cp [fn|]] [err|]]|]; try (by intros [= _ <-]).
  intros [= H]. by apply (removeNodes_sub _ _ _ _ _ _ H).
Qed.

Lemma graft_plain t u e t' :
  plain t → IsLink u = false → Normalize (RealPath u) = RealPath u →
  graft t u = (e, t') → plain t'.
Proof.
  intros Hp Hl Hn. unfold graft, nodeDirect.
  assert (Hcopy : ∀ o, IsLink (nodeCopyFor u o) = false
                       ∧ Normalize (RealPath (nodeCopyFor u o)) = RealPath (nodeCopyFor u o)).
  { intros o. destruct (nodeCopyFor_fields u o) as (-> & Hk & _).
    split; [|done]. unfold IsLink in *. by rewrite Hk. }
  destruct (tree.Node t (IDByPath (RealPath u))) as [orig|].
  - destruct (Hcopy (Some orig)) as [H1 H2].
    destruct (setFileNode t _) as [[err|] t2] eqn:ES; intros [= _ <-];
      by apply (setFileNode_plain _ _ _ _ Hp H1 H2 ES).
  - destruct (Hcopy None) as [H1 H2].
    destruct (addParentPaths t (RealPath u)) as [[err|] t1] eqn:EP.
    + intros [= _ <-]. by apply (addParentPaths_plain _ _ _ _ Hp EP).
    + apply (addParentPaths_plain _ _ _ _ Hp) in EP.
      destruct (setFileNode t1 _) as [[err|] t2] eqn:ES; intros [= _ <-];
        by apply (setFileNode_plain _ _ _ _ EP H1 H2 ES).
Qed.

Lemma mergeVisitor_plain fuel upper u t e t' :
  plain t → IsLink u = false → Normalize (RealPath u) = RealPath u →
  mergeVisitor fuel upper u t = Some (e, t') → plain t'.
Proof.
  intros Hp Hl Hn. unfold mergeVisitor.
  assert (Hop : ∀ e1 t1, opaqueStep fuel upper t u = Some (e1, t1) → plain t1).
  { intros e1 t1. unfold opaqueStep.
    destruct (hasOpaqueDirectory fuel upper (RealPath u)) as [[|]|];
      [|by intros [= _ <-]|done].
    destruct (RemoveChildPaths fuel t (RealPath u)) as [[[err|] t2]|] eqn:ER; [| |done];
      intros [= _ <-]; apply (plain_sub t); try done; intros k m;
      by apply (RemoveChildPaths_sub _ _ _ _ _ _ _ ER). }
  destruct (opaqueStep fuel upper t u) as [[[err|] t1]|] eqn:Eo; [| |done].
  - intros [= _ <-]. by apply (Hop (Some err)).
  - pose proof (Hop None t1 eq_refl) as Hp1. unfold whiteoutOrGraft.
    destruct (IsWhiteout (RealPath u)).
    + destruct (UnWhiteoutPath (RealPath u)) as [lowerPath|]; [|by intros [= _ <-]].
      destruct (RemovePath fuel t1 lowerPath) as [[[err|] t2]|] eqn:ER; [| |done];
        intros [= _ <-]; apply (plain_sub t1); try done; intros k m;
        by apply (RemovePath_sub _ _ _ _ _ _ _ ER).
    + intros [= H]. by apply (graft_plain _ _ _ _ Hp1 Hl Hn H).
Qed.

Lemma merge_plain fuel t upper e t' :
  plain t → keyed upper → plain upper → merge fuel t upper = Some (e, t') → plain t'.
Proof.
  intros Hp Hk Hu. unfold merge. apply WalkAll_stored_preserves; [|done].
  intros id n st e0 st' Hid Hst. destruct (Hu _ _ Hid) as [Hl Hn].
  apply mergeVisitor_plain; [done|done|]. by rewrite (Hk _ _ Hid).
Qed.

Lemma merge_WF fuel t upper e t' : WF t → merge fuel t upper = Some (e, t') → WF t'.
Proof.
  intros Hwf. unfold merge. apply WalkAll_preserves; [|done].
  intros n st e0 st'. apply WF_mergeVisitor.
Qed.

Lemma plainBuilt_WF_plain t : plainBuilt t → WF t ∧ plain t.
Proof.
  induction 1 as [|t nextID p _ [Hwf Hp] Hn|t nextID p _ [Hwf Hp] Hn
                  |fuel t p e t' _ [Hwf Hp] HR|fuel t p e t' _ [Hwf Hp] HR
                  |fuel t upper e t' _ [Hwf Hp] _ [Hwfu Hpu] HM].
  - split; [apply WF_NewFileTree|apply plain_NewTree].
  - split; [by apply WF_AddFile|by apply AddFile_plain].
  - split; [by apply WF_AddDir|by apply AddDir_plain].
  - split; [by apply (WF_RemovePath _ _ _ _ _ Hwf HR)|].
    apply (plain_sub t); [done|]. intros k m. by apply (RemovePath_sub _ _ _ _ _ _ _ HR).
  - split; [by apply (WF_RemoveChildPaths _ _ _ _ _ Hwf HR)|].
    apply (plain_sub t); [done|]. intros k m. by apply (RemoveChildPaths_sub _ _ _ _ _ _ _ HR).
  - split; [by apply (merge_WF _ _ _ _ _ Hwf HM)|].
    by apply (merge_plain _ _ _ _ _ Hp (wf_keyed _ Hwfu) Hpu HM).
Qed.

End Plain.

(** X15. The trees built from the empty tree by adding files and
    directories at normalized paths, removing paths or child paths, and
    merging such trees onto each other, are well formed, hold no link and
    keep every node under a normalized path.  On such a tree [HasPath]
    returns with one unit of fuel, and is true exactly when a node is
    stored at the normal form of the path. *)
Theorem plainBuilt_invariants t :
  plainBuilt t →
  WF t ∧ linkFree t ∧ normalKeys t
  ∧ ∀ fuel p, HasPath (S fuel) t p = Some (tree.HasNode t (Normalize p)).
Proof.
  intros Hb. destruct (plainBuilt_WF_plain t Hb) as [Hwf Hp].
  destruct (proj1 (plain_split t) Hp) as [Hfree Hnormal].
  do 3 (split; [done|]). intros fuel p.
  rewrite (HasPath_linkFree t Hwf Hfree). f_equal. unfold tree.HasNode.
  apply bool_decide_ext. split; [|by right].
  intros [[n Hn]|H]; [|done]. rewrite (Hnormal _ _ Hn). by exists n.
Qed.

Lemma plainBuilt_invariants_witness :
  plainBuilt etcTree
  ∧ WF etcTree ∧ linkFree etcTree ∧ normalKeys etcTree
  ∧ HasPath 1 etcTree "etc/../bin/./sh" = Some true.
Proof.
  assert (Hb : plainBuilt etcTree).
  { assert (E : etcTree
                = addedTree (AddFile (addedTree (AddFile (addedTree
                    (AddFile NewFileTree 0 "/etc/passwd")) 1 "/bin/sh")) 2 "/etc/group"))
      by (vm_compute; reflexivity).
    rewrite E. repeat (apply plain_AddFile; [|by vm_compute]). constructor. }
  destruct (plainBuilt_invariants etcTree Hb) as (Hwf & Hfree & Hnormal & HH).
  do 4 (split; [done|]). rewrite HH. by vm_compute.
Defined.

(** * The node that a merge installs *)

Section Grafts.
Variable t : tree.Tree.
Hypothesis Hwf : WF t.

Lemma setFileNode_existing fn old :
  tree.Node t (RealPath fn) = Some old → ∃ t', setFileNode t fn = (None, t').
Proof.
  intros Hold. unfold setFileNode, nodeDirect, IDByPath. rewrite Hold.
  unfold tree.Replace, ID, IDByPath. rewrite (wf_keyed t Hwf _ _ Hold).
  rewrite (proj2 (HasNode_true t (RealPath fn))) by (by rewrite Hold).
  rewrite String.eqb_refl. by eexists.
Qed.

(** On a normalized path the graft of an upper node cannot fail. *)
Lemma graft_succeeds u :
  Normalize (RealPath u) = RealPath u → ∃ t', graft t u = (None, t').
Proof.
  intros Hn. unfold graft, nodeDirect, IDByPath.
  destruct (tree.Node t (RealPath u)) as [orig|] eqn:Eo.
  - destruct (setFileNode_existing (nodeCopyFor u (Some orig)) orig) as [t' H'].
    + by rewrite nodeCopyFor_RealPath.
    + rewrite H'. by eexists.
  - assert (Hroot : RealPath u ≠ "/").
    { intros E. destruct (wf_root t Hwf) as (_ & [r Hr] & _). congruence. }
    destruct (add_fresh t u Hwf Hn Hroot) as (t1 & t' & H1 & H2 & _).
    rewrite H1. cbn [nodeCopyFor]. rewrite H2. by eexists.
Qed.

Lemma graft_keeps u e t' k n :
  graft t u = (e, t') → k ≠ RealPath u → tree.Node t k = Some n → tree.Node t' k = Some n.
Proof.
  unfold graft, nodeDirect, IDByPath. intros H Hk Hn.
  destruct (tree.Node t (RealPath u)) as [orig|].
  - destruct (setFileNode t _) as [[err|] t2] eqn:ES; injection H as _ <-;
      rewrite (setFileNode_other _ _ _ _ k ES); try done;
      by rewrite nodeCopyFor_RealPath.
  - destruct (addParentPaths t (RealPath u)) as [[err|] t1] eqn:EP.
    + injection H as _ <-. by apply (addParentPaths_keeps _ _ _ _ _ _ EP).
    + apply (addParentPaths_keeps _ _ _ _ _ _ EP) in Hn.
      destruct (setFileNode t1 _) as [[err|] t2] eqn:ES; injection H as _ <-;
        rewrite (setFileNode_other _ _ _ _ k ES); try done;
        by rewrite nodeCopyFor_RealPath.
Qed.

(** A visit of [merge] at a node that is no whiteout, in a directory that
    is not opaque: the copy is installed. *)
Lemma mergeVisitor_grafts fuel upper u :
  IsWhiteout (RealPath u) = false →
  Normalize (RealPath u) = RealPath u →
  hasOpaqueDirectory fuel upper (RealPath u) = Some false →
  ∃ t', mergeVisitor fuel upper u t = Some (None, t')
        ∧ tree.Node t' (RealPath u) = Some (nodeCopyFor u (tree.Node t (RealPath u)))
        ∧ (∀ k n, k ≠ RealPath u → tree.Node t k = Some n → tree.Node t' k = Some n)
        ∧ WF t'.
Proof.
  intros Hw Hn Hop. destruct (graft_succeeds u Hn) as [t' HG].
  exists t'. unfold mergeVisitor, opaqueStep, whiteoutOrGraft. rewrite Hop, Hw, HG.
  split; [done|]. split; [by apply graft_installs|]. split.
  - intros k n Hk Hkn. by apply (graft_keeps u None t').
  - by apply (WF_graft _ _ _ _ Hwf HG).
Qed.

End Grafts.

(** C9: the node that [merge] installs in the lower tree is a copy of the
    upper node (same real path, kind and link target); the copy has the
    reference of the lower node when the lower tree has a node at the
    path, of the same kind, with a reference, and the upper node has none;
    in every other case it has the reference of the upper node.  The copy
    is what a successful visit leaves at the path of the upper node; and
    the visit does succeed, leaving the other nodes of the lower tree to
    their paths, when the lower tree is well formed, the path of the upper
    node is normalized and no whiteout, and its directory is not opaque.
    Merging the upper tree with [/d/x], the link [/f] and [/g/y] onto the
    lower tree with the file [/f], the directory [/d] and the file [/g]:
    [/d] keeps the reference of the lower tree, [/f] becomes the link with
    the reference of the upper tree, [/g] becomes a directory without
    reference, and the files of the upper tree are added with theirs. *)
Theorem merge_copy_reference :
  (∀ u o,
     RealPath (nodeCopyFor u o) = RealPath u
     ∧ FileType (nodeCopyFor u o) = FileType u
     ∧ LinkPath (nodeCopyFor u o) = LinkPath u
     ∧ (∀ lowerRef, inheritsLower u o lowerRef →
          Reference (nodeCopyFor u o) = Some lowerRef)
     ∧ ((∀ lowerRef, ¬ inheritsLower u o lowerRef) →
          Reference (nodeCopyFor u o) = Reference u))
  ∧ (∀ fuel upper t u t',
       IsWhiteout (RealPath u) = false →
       mergeVisitor fuel upper u t = Some (None, t') →
       ∃ t1, opaqueStep fuel upper t u = Some (None, t1)
             ∧ tree.Node t' (RealPath u)
               = Some (nodeCopyFor u (tree.Node t1 (RealPath u))))
  ∧ (∀ fuel upper t u,
       WF t →
       IsWhiteout (RealPath u) = false →
       Normalize (RealPath u) = RealPath u →
       hasOpaqueDirectory fuel upper (RealPath u) = Some false →
       ∃ t', mergeVisitor fuel upper u t = Some (None, t')
             ∧ tree.Node t' (RealPath u)
               = Some (nodeCopyFor u (tree.Node t (RealPath u)))
             ∧ (∀ k n, k ≠ RealPath u → tree.Node t k = Some n →
                       tree.Node t' k = Some n)
             ∧ WF t')
  ∧ (tree.Node lowerRefs "/f" = Some (NewFile "/f" (Some (fileref.mkReference 0 "/f")))
     ∧ tree.Node lowerRefs "/d" = Some (NewDir "/d" (Some (fileref.mkReference 1 "/d")))
     ∧ tree.Node lowerRefs "/g" = Some (NewFile "/g" (Some (fileref.mkReference 2 "/g")))
     ∧ tree.Node upperRefs "/d" = Some (NewDir "/d" None)
     ∧ tree.Node upperRefs "/g" = Some (NewDir "/g" None)
     ∧ ∃ merged,
         merge 2 lowerRefs upperRefs = Some (None, merged)
         ∧ tree.Node merged "/d" = Some (NewDir "/d" (Some (fileref.mkReference 1 "/d")))
         ∧ tree.Node merged "/d/x"
           = Some (NewFile "/d/x" (Some (fileref.mkReference 0 "/d/x")))
         ∧ tree.Node merged "/f"
           = Some (NewSymLink "/f" "/d/x" (Some (fileref.mkReference 1 "/f")))
         ∧ tree.Node merged "/g" = Some (NewDir "/g" None)
         ∧ tree.Node merged "/g/y"
           = Some (NewFile "/g/y" (Some (fileref.mkReference 2 "/g/y")))).
Proof.
  split; [|split; [|split]].
  - intros u o. pose proof (nodeCopyFor_fields u o) as (H1 & H2 & H3).
    repeat split; try done.
    + apply nodeCopyFor_inherits.
    + apply nodeCopyFor_keeps.
  - apply mergeVisitor_installs.
  - intros fuel upper t u Hwf. by apply mergeVisitor_grafts.
  - do 5 (split; [by vm_compute|]).
    eexists. split; [by vm_compute|]. repeat split; by vm_compute.
Qed.

Lemma merge_copy_reference_witness :
  let u := NewFile "/d/x" (Some (fileref.mkReference 0 "/d/x")) in
  let d := NewDir "/d" None in
  let ref := fileref.mkReference 1 "/d" in
  tree.Node upperRefs "/d/x" = Some u
  ∧ tree.Node lowerRefs "/d/x" = None
  ∧ WF lowerRefs
  ∧ IsWhiteout (RealPath u) = false
  ∧ Normalize (RealPath u) = RealPath u
  ∧ hasOpaqueDirectory 2 upperRefs (RealPath u) = Some false
  ∧ (∃ t', mergeVisitor 2 upperRefs u lowerRefs = Some (None, t')
           ∧ tree.Node t' "/d/x" = Some u
           ∧ tree.HasNode t' "/f" = true)
  ∧ inheritsLower d (tree.Node lowerRefs "/d") ref
  ∧ Reference (nodeCopyFor d (tree.Node lowerRefs "/d")) = Some ref.
Proof.
  intros u d ref.
  assert (Hu : tree.Node upperRefs "/d/x" = Some u) by (by vm_compute).
  assert (Hl : tree.Node lowerRefs (RealPath u) = None) by (by vm_compute).
  assert (Hwf : WF lowerRefs).
  { assert (E : lowerRefs
                = addedTree (AddFile (addedTree (AddDir (addedTree
                    (AddFile NewFileTree 0 "/f")) 1 "/d")) 2 "/g"))
      by (vm_compute; reflexivity).
    rewrite E. apply reachable_WF.
    apply reach_AddFile, reach_AddDir, reach_AddFile. constructor. }
  assert (Hw : IsWhiteout (RealPath u) = false) by (by vm_compute).
  assert (Hn : Normalize (RealPath u) = RealPath u) by (by vm_compute).
  assert (Hop : hasOpaqueDirectory 2 upperRefs (RealPath u) = Some false) by (by vm_compute).
  assert (Hi : inheritsLower d (tree.Node lowerRefs "/d") ref).
  { exists (NewDir "/d" (Some ref)). repeat split; vm_compute; reflexivity. }
  split; [exact Hu|]. split; [exact Hl|]. split; [exact Hwf|]. split; [exact Hw|].
  split; [exact Hn|]. split; [exact Hop|]. split.
  - destruct (proj1 (proj2 (proj2 merge_copy_reference)) 2 upperRefs lowerRefs u
                Hwf Hw Hn Hop) as (t' & Hm & Hnode & Hkeep & _).
    exists t'. split; [exact Hm|]. split.
    + rewrite Hl in Hnode. exact Hnode.
    + apply HasNode_true.
      assert (Hf : tree.Node lowerRefs "/f"
                   = Some (NewFile "/f" (Some (fileref.mkReference 0 "/f"))))
        by (by vm_compute).
      rewrite (Hkeep "/f" _ ltac:(discriminate) Hf). by eexists.
  - split; [exact Hi|].
    exact (proj1 (proj2 (proj2 (proj2 (proj1 merge_copy_reference d _)))) ref Hi).
Defined.
